(** * A_Maze_ing: a shallow embedding of [src/mazegen/generator.py]

    The [MazeGenerator] class is modelled field by field.  The grid is the
    row-major [list (list Z)] of wall bitmasks ([grid[y][x]]), the history is
    the list of recorded steps, the pattern and the carver's [visited] set
    are [gset]s of coordinates.  The random source [random.Random] is a
    record of its state and of the single primitive [_randbelow] that
    [choice] and [randint] are built from. *)

From Stdlib Require Import ZArith Lia.
From stdpp Require Import base list gmap sets strings relations.
From Stdlib Require Import Ascii.

Open Scope Z_scope.
Open Scope nat_scope.

(** ** Constants of [MazeGenerator] *)

Definition NORTH : Z := 1.
Definition EAST : Z := 2.
Definition SOUTH : Z := 4.
Definition WEST : Z := 8.
Definition ALL_WALLS : Z := 15.

Abbreviation coord := (nat * nat)%type.

(** One history entry: [[(x1, y1, grid[y1][x1]), (x2, y2, grid[y2][x2])]]. *)
Definition step : Type := ((nat * nat * Z) * (nat * nat * Z))%type.

(** ** The random source

    [random.Random(seed)] gives a state; [_randbelow(n)] draws a number in
    [[0, n)] and advances the state.  [choice] and [randint] of CPython are
    defined from it below. *)
Record Random := {
  rstate : Type;
  seeded : Z -> rstate;
  randbelow : nat -> rstate -> nat * rstate;
  randbelow_lt : forall n s, 0 < n -> (randbelow n s).1 < n
}.

(** ** Grid access: [grid[y][x]] and [grid[y][x] = v] *)

Definition get (g : list (list Z)) (x y : nat) : Z :=
  match g !! y with
  | Some row => match row !! x with Some v => v | None => 0%Z end
  | None => 0%Z
  end.

Definition set_cell (g : list (list Z)) (x y : nat) (v : Z) : list (list Z) :=
  match g !! y with
  | Some row => <[y := <[x := v]> row]> g
  | None => g
  end.

(** [[[ALL_WALLS for _ in range(width)] for _ in range(height)]] *)
Definition all_walls (w h : nat) : list (list Z) := replicate h (replicate w ALL_WALLS).

(** The grid has [h] rows of [w] cells. *)
Definition wf_grid (w h : nat) (g : list (list Z)) : Prop :=
  length g = h /\ forall y row, g !! y = Some row -> length row = w.

(** ** [_remove_wall] *)

Definition opposite (direction : Z) : Z :=
  if Z.eqb direction NORTH then SOUTH
  else if Z.eqb direction SOUTH then NORTH
  else if Z.eqb direction EAST then WEST
  else if Z.eqb direction WEST then EAST
  else 0%Z.

(** [self.grid] and [self.history] are threaded explicitly. *)
Definition remove_wall (g : list (list Z)) (hist : list step)
    (x1 y1 x2 y2 : nat) (direction : Z) (record_history : bool)
    : list (list Z) * list step :=
  let g1 := set_cell g x1 y1 (Z.land (get g x1 y1) (Z.lnot direction)) in
  let opposite_direction := opposite direction in
  let g2 := set_cell g1 x2 y2 (Z.land (get g1 x2 y2) (Z.lnot opposite_direction)) in
  (g2, if record_history
       then hist ++ [((x1, y1, get g2 x1 y1), (x2, y2, get g2 x2 y2))]
       else hist).

(** ** [_get_unvisited_neighbors] (candidates in the order N, S, E, W) *)

Definition get_unvisited_neighbors (width height x y : nat) (visited : gset coord)
    : list (nat * nat * Z) :=
  (if bool_decide (0 < y) && bool_decide ((x, y - 1) ∉ visited)
   then [(x, y - 1, NORTH)] else []) ++
  (if bool_decide (y < height - 1) && bool_decide ((x, y + 1) ∉ visited)
   then [(x, y + 1, SOUTH)] else []) ++
  (if bool_decide (x < width - 1) && bool_decide ((x + 1, y) ∉ visited)
   then [(x + 1, y, EAST)] else []) ++
  (if bool_decide (0 < x) && bool_decide ((x - 1, y) ∉ visited)
   then [(x - 1, y, WEST)] else []).

(** ** [_validate_border_point] and [set_entry_exit] *)

Inductive maze_error :=
| OutOfBounds (name : string) (point : Z * Z)
| NotOnBorder (name : string) (point : Z * Z)
| SameEntryExit.

(** [inl tt] is a normal return, [inr e] raises [ValueError] for [e]. *)
Definition validate_border_point (width height : nat) (point : Z * Z) (name : string)
    : unit + maze_error :=
  let '(x, y) := point in
  let w := Z.of_nat width in
  let h := Z.of_nat height in
  if negb ((0 <=? x)%Z && (x <? w)%Z && (0 <=? y)%Z && (y <? h)%Z)
  then inr (OutOfBounds name point)
  else
    let is_on_border := ((x =? 0)%Z || (x =? w - 1)%Z || (y =? 0)%Z || (y =? h - 1)%Z) in
    if negb is_on_border then inr (NotOnBorder name point) else inl tt.

Definition set_entry_exit (width height : nat) (entry exit : Z * Z) : unit + maze_error :=
  match validate_border_point width height entry "Entry" with
  | inr e => inr e
  | inl _ =>
    match validate_border_point width height exit "Exit" with
    | inr e => inr e
    | inl _ => if decide (entry = exit) then inr SameEntryExit else inl tt
    end
  end.

(** ** [_embed_42]

    Python iterates over the sets [pat_4] and [pat_2] in an unspecified
    order; [embed_42_with] takes the two iteration orders as arguments and
    [embed_42] uses the order in which the source writes the literals. *)

Definition pat_4 : list coord :=
  [(0, 0); (2, 0); (0, 1); (2, 1); (0, 2); (1, 2); (2, 2); (2, 3); (2, 4)].

Definition pat_2 : list coord :=
  [(0, 0); (1, 0); (2, 0); (2, 1); (0, 2); (1, 2); (2, 2); (0, 3); (0, 4); (1, 4); (2, 4)].

(** State touched by [_embed_42]: the caller's [visited], then
    [self.pattern_42_coords] and [self.pattern_42_failed]. *)
Definition embed_state : Type := (gset coord * gset coord * bool)%type.

Definition embed_add (ox oy : nat) (st : embed_state) (d : coord) : embed_state :=
  let '(visited, coords, failed) := st in
  let '(dx, dy) := d in
  let p := (ox + dx, oy + dy) in
  ({[p]} ∪ visited, {[p]} ∪ coords, failed).

Definition embed_42_with (it4 it2 : list coord) (width height : nat) (st : embed_state)
    : embed_state :=
  let pat_width := 7 in
  let pat_height := 5 in
  if bool_decide (width < pat_width + 2) || bool_decide (height < pat_height + 2)
  then let '(visited, coords, _) := st in (visited, coords, true)
  else
    let offset_x := (width - pat_width) / 2 in
    let offset_y := (height - pat_height) / 2 in
    let st4 := foldl (embed_add offset_x offset_y) st it4 in
    foldl (embed_add (offset_x + 4) offset_y) st4 it2.

Definition embed_42 := embed_42_with pat_4 pat_2.

(** ** The class, the carver and the imperfection pass *)

(** The fields of a [MazeGenerator]; [St] is the state of its [random.Random]. *)
Record MazeGenerator (St : Type) := mkGen {
  width : nat;
  height : nat;
  rng : St;
  grid : list (list Z);
  history : list step;
  pattern_42_coords : gset coord;
  pattern_42_failed : bool
}.

Arguments mkGen {St}.
Arguments width {St}.
Arguments height {St}.
Arguments rng {St}.
Arguments grid {St}.
Arguments history {St}.
Arguments pattern_42_coords {St}.
Arguments pattern_42_failed {St}.

(** The locals and fields the carving loop of [generate] updates.  The
    Python [stack] has its top at [stack[-1]]; here the top is the head. *)
Record Carver (St : Type) := mkCarver {
  cv_grid : list (list Z);
  cv_history : list step;
  cv_visited : gset coord;
  cv_stack : list coord;
  cv_rng : St
}.

Arguments mkCarver {St}.
Arguments cv_grid {St}.
Arguments cv_history {St}.
Arguments cv_visited {St}.
Arguments cv_stack {St}.
Arguments cv_rng {St}.

Section Generator.

Context (R : Random).

(** [random.choice(seq)] on a non-empty [seq = a :: l]:
    [seq[self._randbelow(len(seq))]]. *)
Definition choice {A} (a : A) (l : list A) (s : rstate R) : A * rstate R :=
  let '(i, s') := randbelow R (length (a :: l)) s in
  (default a ((a :: l) !! i), s').

(** [random.randint(a, b)] = [a + self._randbelow(b - a + 1)]. *)
Definition randint (a b : nat) (s : rstate R) : nat * rstate R :=
  let '(i, s') := randbelow R (b + 1 - a) s in (a + i, s').

(** [MazeGenerator(width, height, seed)]: [None] when [ValueError] is raised. *)
Definition new_generator (w h : nat) (seed : Z) : option (MazeGenerator (rstate R)) :=
  if bool_decide (w < 3) || bool_decide (h < 3) then None
  else Some (mkGen w h (seeded R seed) (all_walls w h) [] ∅ false).

(** One iteration of [while stack:]. *)
Definition carve_step (w h : nat) (c : Carver (rstate R)) : Carver (rstate R) :=
  match cv_stack c with
  | [] => c
  | (current_x, current_y) :: rest =>
    match get_unvisited_neighbors w h current_x current_y (cv_visited c) with
    | [] => mkCarver (cv_grid c) (cv_history c) (cv_visited c) rest (cv_rng c)
    | n :: ns =>
      let '((nx, ny, direction), s') := choice n ns (cv_rng c) in
      let '(g', hist') :=
        remove_wall (cv_grid c) (cv_history c) current_x current_y nx ny direction true in
      mkCarver g' hist' ({[(nx, ny)]} ∪ cv_visited c) ((nx, ny) :: cv_stack c) s'
    end
  end.

(** [while stack: ...], allowed at most [fuel] iterations; [None] when the
    stack is still non-empty after them. *)
Fixpoint carve_loop (w h : nat) (fuel : nat) (c : Carver (rstate R)) : option (Carver (rstate R)) :=
  match cv_stack c with
  | [] => Some c
  | _ :: _ =>
    match fuel with
    | 0 => None
    | S f => carve_loop w h f (carve_step w h c)
    end
  end.

(** The candidate walls of [make_imperfect] at cell [(x, y)]. *)
Definition valid_walls (width height : nat) (g : list (list Z)) (x y : nat)
    : list (nat * nat * Z) :=
  (if bool_decide (0 < y) && negb (Z.land (get g x y) NORTH =? 0)%Z
   then [(x, y - 1, NORTH)] else []) ++
  (if bool_decide (y < height - 1) && negb (Z.land (get g x y) SOUTH =? 0)%Z
   then [(x, y + 1, SOUTH)] else []) ++
  (if bool_decide (x < width - 1) && negb (Z.land (get g x y) EAST =? 0)%Z
   then [(x + 1, y, EAST)] else []) ++
  (if bool_decide (0 < x) && negb (Z.land (get g x y) WEST =? 0)%Z
   then [(x - 1, y, WEST)] else []).

Definition with_rng (m : MazeGenerator (rstate R)) (s : rstate R) : MazeGenerator (rstate R) :=
  mkGen (width m) (height m) s (grid m) (history m) (pattern_42_coords m) (pattern_42_failed m).

(** The loop of [make_imperfect]: [fuel] is [max_attempts - attempts].
    Returns the generator, [count] and the attempts left. *)
Fixpoint imperfect_loop (fuel : nat) (walls_to_break count : nat) (m : MazeGenerator (rstate R))
    : MazeGenerator (rstate R) * nat * nat :=
  match fuel with
  | 0 => (m, count, 0)
  | S f =>
    if bool_decide (count < walls_to_break) then
      let '(x, s1) := randint 0 (width m - 1) (rng m) in
      let '(y, s2) := randint 0 (height m - 1) s1 in
      if bool_decide ((x, y) ∈ pattern_42_coords m)
      then imperfect_loop f walls_to_break count (with_rng m s2)
      else
        match valid_walls (width m) (height m) (grid m) x y with
        | [] => imperfect_loop f walls_to_break count (with_rng m s2)
        | v :: vs =>
          let '((nx, ny, direction), s3) := choice v vs s2 in
          if bool_decide ((nx, ny) ∈ pattern_42_coords m)
          then imperfect_loop f walls_to_break count (with_rng m s3)
          else
            let '(g', _) := remove_wall (grid m) (history m) x y nx ny direction false in
            let hist' := history m ++ [((x, y, get g' x y), (nx, ny, get g' nx ny))] in
            imperfect_loop f walls_to_break (S count)
              (mkGen (width m) (height m) s3 g' hist'
                 (pattern_42_coords m) (pattern_42_failed m))
        end
    else (m, count, fuel)
  end.

(** [max(1, int((self.width * self.height) * 0.03))].  Python computes the
    product in binary floating point; the double nearest to [0.03] is below
    it by less than [1.2e-18], so for every product [n] below [2^50] the
    floating-point result truncates to the exact quotient [(3 * n) / 100],
    which is what is used here. *)
Definition walls_to_break (m : MazeGenerator (rstate R)) : nat :=
  Nat.max 1 (width m * height m * 3 / 100).

Definition max_attempts : nat := 500.

Definition make_imperfect (m : MazeGenerator (rstate R)) : MazeGenerator (rstate R) :=
  (imperfect_loop max_attempts (walls_to_break m) 0 m).1.1.

(** [generate(perfect)] with the iteration orders of the two glyph sets as
    arguments.  The carving loop is run with [2 * width * height] iterations
    available, which the theorems below show is always enough; [None] would
    mean it is not. *)
Definition generate_with (it4 it2 : list coord) (perfect : bool) (m : MazeGenerator (rstate R))
    : option (MazeGenerator (rstate R)) :=
  let w := width m in
  let h := height m in
  let g0 := all_walls w h in
  let '(visited, coords, failed) := embed_42_with it4 it2 w h ({[(0, 0)]}, ∅, false) in
  match carve_loop w h (2 * w * h) (mkCarver g0 [] visited [(0, 0)] (rng m)) with
  | None => None
  | Some c =>
    let m1 := mkGen w h (cv_rng c) (cv_grid c) (cv_history c) coords failed in
    Some (if perfect then m1 else make_imperfect m1)
  end.

Definition generate := generate_with pat_4 pat_2.

(** Sequences of public operations on one generator object. *)
Inductive op := OpGenerate (perfect : bool) | OpMakeImperfect.

Fixpoint run_ops (ops : list op) (m : MazeGenerator (rstate R)) : option (MazeGenerator (rstate R)) :=
  match ops with
  | [] => Some m
  | OpGenerate p :: rest =>
    match generate p m with Some m' => run_ops rest m' | None => None end
  | OpMakeImperfect :: rest => run_ops rest (make_imperfect m)
  end.

End Generator.

(** ** A concrete random source for examples: a linear congruential generator *)

Definition lcg_next (s : Z) : Z := (s * 1103515245 + 12345) mod 2147483648.

Lemma lcg_randbelow_lt (n : nat) (s : Z) :
  0 < n -> (Z.to_nat (s mod Z.of_nat n), lcg_next s).1 < n.
Proof.
  intros Hn. simpl. pose proof (Z.mod_pos_bound s (Z.of_nat n)). lia.
Qed.

Definition lcg : Random := {|
  rstate := Z;
  seeded := fun seed => seed;
  randbelow := fun n s => (Z.to_nat (lcg_next s mod Z.of_nat n), lcg_next s);
  randbelow_lt := fun n s => lcg_randbelow_lt n (lcg_next s)
|}.

(** ** Predicates used in the statements *)

(** [0 <= x < width and 0 <= y < height] *)
Definition in_bounds (width height : nat) (p : Z * Z) : Prop :=
  (0 <= p.1 < Z.of_nat width)%Z /\ (0 <= p.2 < Z.of_nat height)%Z.

(** [x in {0, width-1} or y in {0, height-1}] *)
Definition on_border (width height : nat) (p : Z * Z) : Prop :=
  (p.1 = 0 \/ p.1 = Z.of_nat width - 1 \/ p.2 = 0 \/ p.2 = Z.of_nat height - 1)%Z.

Definition border_point (width height : nat) (p : Z * Z) : Prop :=
  in_bounds width height p /\ on_border width height p.

(** ** Grid geometry *)

(** [(x2, y2)] is the neighbour of [(x1, y1)] in [direction]. *)
Definition adjacent_dir (p1 p2 : coord) (direction : Z) : Prop :=
  (direction = NORTH /\ p2.1 = p1.1 /\ p2.2 + 1 = p1.2) \/
  (direction = SOUTH /\ p2.1 = p1.1 /\ p2.2 = p1.2 + 1) \/
  (direction = EAST /\ p2.1 = p1.1 + 1 /\ p2.2 = p1.2) \/
  (direction = WEST /\ p2.1 + 1 = p1.1 /\ p2.2 = p1.2).

Definition is_dir (d : Z) : Prop := d = NORTH \/ d = SOUTH \/ d = EAST \/ d = WEST.

(** ** One successful iteration of the imperfection loop *)

(** The generator after a successful wall removal of [make_imperfect]. *)
Definition imperfect_update (R : Random) (m : MazeGenerator (rstate R)) (x y nx ny : nat) (d : Z)
    (s : rstate R) : MazeGenerator (rstate R) :=
  let g' := (remove_wall (grid m) (history m) x y nx ny d false).1 in
  mkGen (width m) (height m) s g'
    (history m ++ [((x, y, get g' x y), (nx, ny, get g' nx ny))])
    (pattern_42_coords m) (pattern_42_failed m).

(** ** Grid properties *)

(** A property of the grid kept by any [_remove_wall] between two adjacent
    cells of the grid. *)
Definition removal_closed (Q : nat -> nat -> list (list Z) -> Prop) : Prop :=
  forall w h g hist x1 y1 x2 y2 d r,
    wf_grid w h g -> x1 < w -> y1 < h -> x2 < w -> y2 < h ->
    adjacent_dir (x1, y1) (x2, y2) d ->
    Q w h g -> Q w h (remove_wall g hist x1 y1 x2 y2 d r).1.

Definition stack_in_range (R : Random) (w h : nat) (c : Carver (rstate R)) : Prop :=
  forall p, p ∈ cv_stack c -> p.1 < w /\ p.2 < h.

(** For horizontally adjacent cells the EAST bit of the left one is clear iff
    the WEST bit of the right one is; for vertically adjacent cells the SOUTH
    bit of the upper one is clear iff the NORTH bit of the lower one is. *)
Definition walls_symmetric (w h : nat) (g : list (list Z)) : Prop :=
  forall x y,
    (x + 1 < w -> y < h ->
       (Z.land (get g x y) EAST =? 0)%Z = (Z.land (get g (x + 1) y) WEST =? 0)%Z) /\
    (x < w -> y + 1 < h ->
       (Z.land (get g x y) SOUTH =? 0)%Z = (Z.land (get g x (y + 1)) NORTH =? 0)%Z).

Definition cells_in_range (w h : nat) (g : list (list Z)) : Prop :=
  forall x y, x < w -> y < h -> (0 <= get g x y <= 15)%Z.

(** Every bit set in [g'] is set in [g]. *)
Definition submask_grid (g' g : list (list Z)) : Prop :=
  forall x y i, Z.testbit (get g' x y) i = true -> Z.testbit (get g x y) i = true.

(** ** Walks, simple paths and trees *)

Fixpoint is_walk {A} (E : A -> A -> Prop) (l : list A) : Prop :=
  match l with
  | a :: ((b :: _) as t) => E a b /\ is_walk E t
  | _ => True
  end.

Definition simple_path {A} (E : A -> A -> Prop) (l : list A) (a b : A) : Prop :=
  is_walk E l /\ NoDup l /\ head l = Some a /\ last l = Some b.

Fixpoint index_of {A} `{EqDecision A} (x : A) (l : list A) : nat :=
  match l with
  | [] => 0
  | y :: t => if decide (x = y) then 0 else S (index_of x t)
  end.

(** The undirected graph of a list of directed edges. *)
Definition tree_edge {A} (es : list (A * A)) (u v : A) : Prop := (u, v) ∈ es \/ (v, u) ∈ es.

(** ** History steps *)

(** [step[0][:2]] and [step[1][:2]]: the cell the wall was broken from and
    the cell it was broken to. *)
Definition parent (s : step) : coord := s.1.1.
Definition child (s : step) : coord := s.2.1.

Definition edges (hist : list step) : list (coord * coord) :=
  map (fun s => (parent s, child s)) hist.

(** The cells in the order the carving loop reaches them. *)
Definition carved (hist : list step) : list coord := (0, 0) :: map child hist.

Definition in_range (w h : nat) (p : coord) : Prop := p.1 < w /\ p.2 < h.

(** The bit of [p] toward direction [D] is clear exactly when a history step
    joins [p] to its neighbour in direction [D]. *)
Definition open_walls_match (w h : nat) (g : list (list Z)) (hist : list step) : Prop :=
  forall p D, in_range w h p -> is_dir D ->
  (Z.land (get g p.1 p.2) D = 0%Z <-> exists q, adjacent_dir p q D /\ tree_edge (edges hist) p q).

(** Writing the two updates of each step, in order, onto a grid. *)
Definition replay_step (g : list (list Z)) (s : step) : list (list Z) :=
  let '((x1, y1, v1), (x2, y2, v2)) := s in set_cell (set_cell g x1 y1 v1) x2 y2 v2.

Definition replay (hist : list step) (g : list (list Z)) : list (list Z) :=
  foldl replay_step g hist.

(** ** Invariant and measure of the carving loop *)

Section Carving_invariant.
Context (R : Random) (w h : nat) (C : gset coord).

(** What holds of the carving loop's locals at every iteration, for the
    pattern cells [C] put in [visited] before it starts. *)
Record carver_inv (c : Carver (rstate R)) : Prop := {
  ci_wf : wf_grid w h (cv_grid c);
  ci_range : cells_in_range w h (cv_grid c);
  ci_nodup : NoDup (carved (cv_history c));
  ci_in_range : forall p, p ∈ carved (cv_history c) -> in_range w h p;
  ci_visited : forall p, p ∈ cv_visited c <-> p ∈ C \/ p ∈ carved (cv_history c);
  ci_pattern : forall p, p ∈ C -> p ∉ carved (cv_history c);
  ci_stack : forall p, p ∈ cv_stack c -> p ∈ carved (cv_history c);
  ci_parent : forall i s, cv_history c !! i = Some s ->
    parent s ∈ take (S i) (carved (cv_history c)) /\ exists d, adjacent_dir (parent s) (child s) d;
  ci_bits : open_walls_match w h (cv_grid c) (cv_history c);
  ci_replay : replay (cv_history c) (all_walls w h) = cv_grid c;
  ci_closed : forall p q D, p ∈ carved (cv_history c) -> p ∉ cv_stack c ->
    adjacent_dir p q D -> in_range w h q -> q ∈ cv_visited c
}.

End Carving_invariant.

(** Twice the cells not yet carved plus the stack height: each iteration
    lowers it by one. *)
Definition carve_measure (R : Random) (w h : nat) (c : Carver (rstate R)) : nat :=
  2 * (w * h - length (carved (cv_history c))) + length (cv_stack c).

(** ** The glyph cells *)

Definition shift (ox oy : nat) (d : coord) : coord := (ox + d.1, oy + d.2).

(** The cells [_embed_42] adds, for the iteration orders [it4] and [it2]. *)
Definition pattern_cells (it4 it2 : list coord) (width height : nat) : gset coord :=
  if bool_decide (width < 7 + 2) || bool_decide (height < 5 + 2) then ∅
  else list_to_set (map (shift ((width - 7) / 2) ((height - 5) / 2)) it4 ++
                    map (shift ((width - 7) / 2 + 4) ((height - 5) / 2)) it2).

(** ** The carving loop's starting state *)

(** The locals when [while stack:] is entered: a fresh grid and history,
    [visited] holding [(0, 0)] and the glyph cells [C], [stack = [(0, 0)]]. *)
Definition initial_carver {St : Type} (w h : nat) (C : gset coord) (s : St) : Carver St :=
  mkCarver (all_walls w h) [] (C ∪ {[(0, 0)]}) [(0, 0)] s.

(** ** Glyph placement *)

(** The glyph occupies the 7x5 box with corner [(x0, y0)] and is centred:
    the margins on the two sides of each axis differ by at most one. *)
Definition glyph_centered (w h : nat) (P : gset coord) : Prop :=
  exists x0 y0, (x0, y0) ∈ P /\ (x0 + 6, y0 + 4) ∈ P /\
    (forall q, q ∈ P -> x0 <= q.1 <= x0 + 6 /\ y0 <= q.2 <= y0 + 4) /\
    x0 <= w - (x0 + 7) <= x0 + 1 /\ y0 <= h - (y0 + 5) <= y0 + 1.

(** ** The open-wall graph *)

(** [p] and [q] are joined by an open wall: the bit of [p] toward [q] is
    clear. *)
Definition linked (w h : nat) (g : list (list Z)) (p q : coord) : Prop :=
  in_range w h p /\ exists D, adjacent_dir p q D /\ Z.land (get g p.1 p.2) D = 0%Z.

(** Reachable from [(0, 0)] through open walls. *)
Definition reachable (w h : nat) (g : list (list Z)) (q : coord) : Prop :=
  rtc (linked w h g) (0, 0) q.

(** ** Boundary and free cells *)

(** The outer boundary of the grid is closed: the NORTH wall of the top row,
    the SOUTH wall of the bottom row, the WEST wall of the left column and
    the EAST wall of the right column are all present. *)
Definition border_closed (w h : nat) (g : list (list Z)) : Prop :=
  forall x y, x < w -> y < h ->
    (y = 0 -> Z.land (get g x y) NORTH <> 0%Z) /\
    (y + 1 = h -> Z.land (get g x y) SOUTH <> 0%Z) /\
    (x = 0 -> Z.land (get g x y) WEST <> 0%Z) /\
    (x + 1 = w -> Z.land (get g x y) EAST <> 0%Z).

(** Two side-by-side cells of the grid, neither of them in [C]. *)
Definition free_adj (w h : nat) (C : gset coord) (p q : coord) : Prop :=
  in_range w h p /\ in_range w h q /\ (p ∉ C) /\ (q ∉ C) /\ exists D, adjacent_dir p q D.

(** The glyph's cells relative to the corner of its 7x5 box. *)
Definition glyph_offsets : list coord := pat_4 ++ map (shift 4 0) pat_2.

(** ** [src/config/loader.py]

    A Python [str] is the list of its code points.  [lit] turns an ASCII
    literal of the source into one. *)

Abbreviation pystr := (list Z).

Definition lit (s : string) : pystr := map (fun a => Z.of_nat (Ascii.nat_of_ascii a)) (String.list_ascii_of_string s).

Definition HASH : Z := 35.
Definition EQUALS : Z := 61.
Definition COMMA : Z := 44.

(** [str.isspace] on one code point: the characters Python treats as
    whitespace. *)
Definition py_isspace (c : Z) : bool :=
  ((9 <=? c) && (c <=? 13) || (28 <=? c) && (c <=? 32) || (c =? 133) || (c =? 160) ||
   (c =? 5760) || (8192 <=? c) && (c <=? 8202) || (c =? 8232) || (c =? 8233) ||
   (c =? 8239) || (c =? 8287) || (c =? 12288))%Z.

Fixpoint lstrip (s : pystr) : pystr :=
  match s with
  | c :: t => if py_isspace c then lstrip t else s
  | [] => []
  end.

(** [s.strip()] *)
Definition strip (s : pystr) : pystr := reverse (lstrip (reverse (lstrip s))).

(** [s.split(sep, 1)] when [sep in s]: the parts before and after the first
    [sep]; [None] when [sep] does not occur. *)
Fixpoint split_first (sep : Z) (s : pystr) : option (pystr * pystr) :=
  match s with
  | [] => None
  | c :: t =>
    if (c =? sep)%Z then Some ([], t)
    else match split_first sep t with
         | Some (a, b) => Some (c :: a, b)
         | None => None
         end
  end.

(** [s.split(sep)] *)
Fixpoint split_all (sep : Z) (s : pystr) : list pystr :=
  match s with
  | [] => [[]]
  | c :: t =>
    if (c =? sep)%Z then [] :: split_all sep t
    else match split_all sep t with
         | p :: ps => (c :: p) :: ps
         | [] => [[c]]
         end
  end.

(** [line.split('#', 1)[0]] *)
Definition before_hash (line : pystr) : pystr :=
  match split_first HASH line with
  | Some (a, _) => a
  | None => line
  end.

(** The [sys.exit(1)] exits of the loader, by the message printed. *)
Inductive config_error :=
| SyntaxError (line_num : nat)
| MissingKey (line_num : nat)
| MissingKeys (missing_keys : gset pystr)
| NotIntegers
| TooSmall
| InvalidBool
| EmptyOutputFile
| BadFormat (name : pystr)
| OutOfMazeBounds (name : pystr) (x y : Z)
| NotOnEdge (name : pystr) (x y : Z)
| SameCoordinate.

(** The loop of [_read_and_parse_raw_file] over [enumerate(lines, 1)]:
    [inl raw_config] on return, [inr e] on exit. *)
Fixpoint parse_lines (line_num : nat) (lines : list pystr) (raw_config : gmap pystr pystr)
    : gmap pystr pystr + config_error :=
  match lines with
  | [] => inl raw_config
  | line :: rest =>
    let clean_line := strip (before_hash line) in
    match clean_line with
    | [] => parse_lines (S line_num) rest raw_config
    | _ :: _ =>
      match split_first EQUALS clean_line with
      | None => inr (SyntaxError line_num)
      | Some (key, value) =>
        let key := strip key in
        let value := strip value in
        match key with
        | [] => inr (MissingKey line_num)
        | _ :: _ => parse_lines (S line_num) rest (<[key := value]> raw_config)
        end
      end
    end
  end.

(** [_read_and_parse_raw_file] on the list [f.readlines()] of the file. *)
Definition read_and_parse_raw_file (lines : list pystr) : gmap pystr pystr + config_error :=
  parse_lines 1 lines ∅.

Definition MANDATORY_KEYS : gset pystr :=
  list_to_set (map lit ["WIDTH"; "HEIGHT"; "ENTRY"; "EXIT"; "PERFECT"; "OUTPUT_FILE"]).

Definition true_values : list pystr := map lit ["true"; "1"; "yes"; "on"].
Definition false_values : list pystr := map lit ["false"; "0"; "no"; "off"].

Record config := mkConfig {
  cfg_width : Z;
  cfg_height : Z;
  cfg_perfect : bool;
  cfg_output_file : pystr;
  cfg_entry : Z * Z;
  cfg_exit : Z * Z
}.

(** An entry [key -> value] as [_read_and_parse_raw_file] stores it: the key
    is non-empty, both sides are stripped, the key holds no [#] and no [=],
    the value no [#]. *)
Definition raw_entry_ok (key value : pystr) : Prop :=
  key <> [] /\ strip key = key /\ strip value = value /\
  (HASH ∉ key) /\ (EQUALS ∉ key) /\ (HASH ∉ value).

(** The file line [key=value] followed by a newline. *)
Definition kv_line (kv : pystr * pystr) : pystr := kv.1 ++ EQUALS :: kv.2 ++ [10%Z].

(** [int(s)] and [s.lower()] are Python's; [py_int s] is [None] where [int]
    raises [ValueError]. *)
Section Loader.
Context (py_int : pystr -> option Z) (py_lower : pystr -> pystr).

Definition parse_bool (value : pystr) : bool + config_error :=
  let normalized := py_lower value in
  if bool_decide (normalized ∈ true_values) then inl true
  else if bool_decide (normalized ∈ false_values) then inl false
  else inr InvalidBool.

Definition parse_coord (value name : pystr) (width height : Z) : (Z * Z) + config_error :=
  if negb (bool_decide (COMMA ∈ value)) then inr (BadFormat name)
  else
    match split_all COMMA value with
    | [part0; part1] =>
      match py_int (strip part0), py_int (strip part1) with
      | Some x, Some y =>
        if negb ((0 <=? x)%Z && (x <? width)%Z && (0 <=? y)%Z && (y <? height)%Z)
        then inr (OutOfMazeBounds name x y)
        else
          let is_on_border :=
            ((x =? 0)%Z || (x =? width - 1)%Z || (y =? 0)%Z || (y =? height - 1)%Z) in
          if negb is_on_border then inr (NotOnEdge name x y) else inl (x, y)
      | _, _ => inr (BadFormat name)
      end
    | _ => inr (BadFormat name)
    end.

Definition validate_and_convert (raw_config : gmap pystr pystr) : config + config_error :=
  let missing_keys := MANDATORY_KEYS ∖ dom raw_config in
  if bool_decide (missing_keys ≠ ∅) then inr (MissingKeys missing_keys)
  else
    let field k := default [] (raw_config !! lit k) in
    match py_int (field "WIDTH"), py_int (field "HEIGHT") with
    | Some width, Some height =>
      if ((width <? 3)%Z || (height <? 3)%Z) then inr TooSmall
      else
        match parse_bool (field "PERFECT") with
        | inr e => inr e
        | inl perfect =>
          let output_file := field "OUTPUT_FILE" in
          match output_file with
          | [] => inr EmptyOutputFile
          | _ :: _ =>
            match parse_coord (field "ENTRY") (lit "ENTRY") width height with
            | inr e => inr e
            | inl entry =>
              match parse_coord (field "EXIT") (lit "EXIT") width height with
              | inr e => inr e
              | inl exit =>
                if decide (entry = exit) then inr SameCoordinate
                else inl (mkConfig width height perfect output_file entry exit)
              end
            end
          end
        end
    | _, _ => inr NotIntegers
    end.

(** [value] is [a + "," + b] with no other comma, and [int(a.strip())],
    [int(b.strip())] are [x] and [y]. *)
Definition coord_syntax (value : pystr) (x y : Z) : Prop :=
  exists a b, value = a ++ COMMA :: b /\ (COMMA ∉ a) /\ (COMMA ∉ b) /\
    py_int (strip a) = Some x /\ py_int (strip b) = Some y.

Definition load_config (lines : list pystr) : config + config_error :=
  match read_and_parse_raw_file lines with
  | inr e => inr e
  | inl raw_config => validate_and_convert raw_config
  end.

End Loader.

(** A string with no whitespace at either end. *)
Definition stripped (s : pystr) : Prop :=
  (forall c, head s = Some c -> py_isspace c = false) /\
  (forall c, last s = Some c -> py_isspace c = false).

(** ** [src/visuals/ascii_renderer.py] *)

(** [l[i]] for a Python index [i], negative ones counting from the end;
    [None] where Python raises [IndexError]. *)
Definition py_index {A} (l : list A) (i : Z) : option A :=
  if (i <? 0)%Z then
    if (0 <=? Z.of_nat (length l) + i)%Z then l !! Z.to_nat (Z.of_nat (length l) + i) else None
  else l !! Z.to_nat i.

(** [sep.join(parts)] *)
Definition py_join (sep : pystr) (parts : list pystr) : pystr :=
  match parts with
  | [] => []
  | p :: ps => p ++ concat (map (fun s => sep ++ s) ps)
  end.

Definition NEWLINE : Z := 10.

(** [len(grid[0]) if height > 0 else 0] *)
Definition grid_width (grid : list (list Z)) : nat :=
  match grid with
  | [] => 0
  | row0 :: _ => length row0
  end.

(** [render]: the inner loop over [x] of row [row], extending [line_roof]
    and [line_body]. *)
Fixpoint render_cells (row : list Z) (xs : list nat) (line_roof line_body : pystr)
    : option (pystr * pystr) :=
  match xs with
  | [] => Some (line_roof, line_body)
  | x :: xs' =>
    match row !! x with
    | None => None
    | Some cell =>
      let line_roof := line_roof ++ lit "+" in
      let line_roof := line_roof ++ (if (Z.land cell NORTH =? 0)%Z then lit "   " else lit "---") in
      let line_body := line_body ++ (if (Z.land cell WEST =? 0)%Z then lit " " else lit "|") in
      let line_body := line_body ++ lit "   " in
      render_cells row xs' line_roof line_body
    end
  end.

(** [render]: the loop over [y], extending [output_lines]. *)
Fixpoint render_rows (grid : list (list Z)) (width : nat) (ys : list nat) (output_lines : list pystr)
    : option (list pystr) :=
  match ys with
  | [] => Some output_lines
  | y :: ys' =>
    match grid !! y with
    | None => None
    | Some row =>
      match render_cells row (seq 0 width) [] [] with
      | None => None
      | Some (line_roof, line_body) =>
        let line_roof := line_roof ++ lit "+" in
        match py_index row (Z.of_nat width - 1) with
        | None => None
        | Some last_cell =>
          let line_body := line_body ++ (if (Z.land last_cell 2 =? 0)%Z then lit " " else lit "|") in
          render_rows grid width ys' (output_lines ++ [line_roof; line_body])
        end
      end
    end
  end.

(** [render]: the bottom closure loop over [x]. *)
Fixpoint render_bottom (grid : list (list Z)) (height : nat) (xs : list nat) (bottom_line : pystr)
    : option pystr :=
  match xs with
  | [] => Some bottom_line
  | x :: xs' =>
    match py_index grid (Z.of_nat height - 1) with
    | None => None
    | Some last_row =>
      match last_row !! x with
      | None => None
      | Some cell =>
        let bottom_line := bottom_line ++ lit "+" in
        let bottom_line := bottom_line ++
          (if (Z.land cell SOUTH =? 0)%Z then lit "   " else lit "---") in
        render_bottom grid height xs' bottom_line
      end
    end
  end.

(** [ASCIIVisualizer.render(grid)]; [None] where Python raises. *)
Definition render (grid : list (list Z)) : option pystr :=
  let height := length grid in
  let width := grid_width grid in
  match render_rows grid width (seq 0 height) [] with
  | None => None
  | Some output_lines =>
    match render_bottom grid height (seq 0 width) [] with
    | None => None
    | Some bottom_line => Some (py_join [NEWLINE] (output_lines ++ [bottom_line ++ lit "+"]))
    end
  end.

(** The characters of [render_thick]: [BLOCK] (U+2588), [P42] (U+2592), the
    entry dot (U+25CF) and the exit dot (U+25C9). *)
Definition BLOCK : Z := 9608.
Definition SPACE : Z := 32.
Definition P42 : Z := 9618.
Definition ENTRY_DOT : Z := 9679.
Definition EXIT_DOT : Z := 9673.
Definition BODY_WIDTH : nat := 5.
Definition ENTRY_MARKER : pystr := [SPACE; SPACE; ENTRY_DOT; SPACE; SPACE].
Definition EXIT_MARKER : pystr := [SPACE; SPACE; EXIT_DOT; SPACE; SPACE].

(** [render_thick]: the inner loop over [x] of row [y].  [is_42] is the
    Python local of that name, [None] while it is unbound; the loop leaves
    it at its value for the last [x]. *)
Fixpoint thick_cells (row : list Z) (pattern_coords : gset coord) (entry exit : Z * Z) (y : nat)
    (xs : list nat) (is_42 : option bool) (line_top line_bot : pystr)
    : option (option bool * pystr * pystr) :=
  match xs with
  | [] => Some (is_42, line_top, line_bot)
  | x :: xs' =>
    match row !! x with
    | None => None
    | Some cell =>
      let is_42 := bool_decide ((x, y) ∈ pattern_coords) in
      let center_char :=
        if decide ((Z.of_nat x, Z.of_nat y) = entry) then ENTRY_MARKER
        else if decide ((Z.of_nat x, Z.of_nat y) = exit) then EXIT_MARKER
        else replicate BODY_WIDTH SPACE in
      let wall_brush := if is_42 then P42 else BLOCK in
      let line_top := line_top ++ [wall_brush] in
      let line_top :=
        if is_42 then line_top ++ replicate BODY_WIDTH wall_brush
        else line_top ++ (if (Z.land cell NORTH =? 0)%Z then replicate BODY_WIDTH SPACE
                          else replicate BODY_WIDTH BLOCK) in
      let line_bot :=
        if is_42 then line_bot ++ [wall_brush]
        else line_bot ++ [if (Z.land cell WEST =? 0)%Z then SPACE else BLOCK] in
      let line_bot :=
        if is_42 then line_bot ++ replicate BODY_WIDTH wall_brush else line_bot ++ center_char in
      thick_cells row pattern_coords entry exit y xs' (Some is_42) line_top line_bot
    end
  end.

(** [render_thick]: the loop over [y]; the right edge reads the [is_42]
    left by the inner loop ([UnboundLocalError] when it never ran). *)
Fixpoint thick_rows (grid : list (list Z)) (pattern_coords : gset coord) (entry exit : Z * Z)
    (width : nat) (ys : list nat) (is_42 : option bool) (output_lines : list pystr)
    : option (list pystr) :=
  match ys with
  | [] => Some output_lines
  | y :: ys' =>
    match grid !! y with
    | None => None
    | Some row =>
      match thick_cells row pattern_coords entry exit y (seq 0 width) is_42 [] [] with
      | None => None
      | Some (is_42', line_top, line_bot) =>
        let line_top := line_top ++ [BLOCK] in
        match is_42' with
        | None => None
        | Some b =>
          let line_bot :=
            if b && bool_decide ((width - 1, y) ∈ pattern_coords) then Some (line_bot ++ [P42])
            else match py_index row (Z.of_nat width - 1) with
                 | None => None
                 | Some last_cell =>
                   Some (line_bot ++ [if (Z.land last_cell 2 =? 0)%Z then SPACE else BLOCK])
                 end in
          match line_bot with
          | None => None
          | Some line_bot =>
            thick_rows grid pattern_coords entry exit width ys' (Some b)
              (output_lines ++ [line_top; line_bot])
          end
        end
      end
    end
  end.

(** [render_thick]: the bottom closure loop over [x]. *)
Fixpoint thick_bottom (grid : list (list Z)) (pattern_coords : gset coord) (height : nat)
    (xs : list nat) (bottom_line : pystr) : option pystr :=
  match xs with
  | [] => Some bottom_line
  | x :: xs' =>
    let bottom_line := bottom_line ++ [BLOCK] in
    match py_index grid (Z.of_nat height - 1) with
    | None => None
    | Some last_row =>
      match last_row !! x with
      | None => None
      | Some cell =>
        let is_42 := bool_decide ((x, height - 1) ∈ pattern_coords) in
        let bottom_line :=
          if is_42 then bottom_line ++ replicate BODY_WIDTH P42
          else bottom_line ++ (if (Z.land cell SOUTH =? 0)%Z then replicate BODY_WIDTH SPACE
                               else replicate BODY_WIDTH BLOCK) in
        thick_bottom grid pattern_coords height xs' bottom_line
      end
    end
  end.

(** [ASCIIVisualizer.render_thick(grid, pattern_coords, entry, exit)], as
    the application calls it (all four arguments given). *)
Definition render_thick (grid : list (list Z)) (pattern_coords : gset coord) (entry exit : Z * Z)
    : option pystr :=
  let height := length grid in
  let width := grid_width grid in
  match thick_rows grid pattern_coords entry exit width (seq 0 height) None [] with
  | None => None
  | Some output_lines =>
    match thick_bottom grid pattern_coords height (seq 0 width) [] with
    | None => None
    | Some bottom_line => Some (py_join [NEWLINE] (output_lines ++ [bottom_line ++ [BLOCK]]))
    end
  end.

(** ** The lines of the renderers *)

(** Character [c] of line [r] of a rendering split at its newlines. *)
Definition char_at (ls : list pystr) (r c : nat) : option Z := ls !! r ≫= fun l => l !! c.

(** The code point of an ASCII character. *)
Definition chr (c : Ascii.ascii) : Z := Z.of_nat (Ascii.nat_of_ascii c).

(** The pieces [render] writes for one cell. *)
Definition roof_seg (cell : Z) : pystr :=
  lit "+" ++ (if (Z.land cell NORTH =? 0)%Z then lit "   " else lit "---").
Definition body_seg (cell : Z) : pystr :=
  (if (Z.land cell WEST =? 0)%Z then lit " " else lit "|") ++ lit "   ".
Definition floor_seg (cell : Z) : pystr :=
  lit "+" ++ (if (Z.land cell SOUTH =? 0)%Z then lit "   " else lit "---").

Definition roof_line (g : list (list Z)) (w y : nat) : pystr :=
  concat (map (fun x => roof_seg (get g x y)) (seq 0 w)) ++ lit "+".
Definition body_line (g : list (list Z)) (w y : nat) : pystr :=
  concat (map (fun x => body_seg (get g x y)) (seq 0 w)) ++
  (if (Z.land (get g (w - 1) y) 2 =? 0)%Z then lit " " else lit "|").
Definition floor_line (g : list (list Z)) (w h : nat) : pystr :=
  concat (map (fun x => floor_seg (get g x (h - 1))) (seq 0 w)) ++ lit "+".

(** A grid is drawable when it is not [grid[0]]-less and no row is shorter
    than the first one, nor empty. *)
Definition short_row (g : list (list Z)) : Prop :=
  exists row, row ∈ g /\ length row < Nat.max 1 (grid_width g).

(** Whether a grid has such a row is decidable. *)
#[global] Instance short_row_dec (g : list (list Z)) : Decision (short_row g).
Proof.
  unfold short_row.
  destruct (decide (Exists (fun row => length row < Nat.max 1 (grid_width g)) g)) as [H|H];
    rewrite Exists_exists in H; [left; exact H | right; exact H].
Defined.

(** The pieces [render_thick] writes for cell [(x, y)]. *)
Definition thick_center (entry exit : Z * Z) (x y : nat) : pystr :=
  if decide ((Z.of_nat x, Z.of_nat y) = entry) then ENTRY_MARKER
  else if decide ((Z.of_nat x, Z.of_nat y) = exit) then EXIT_MARKER
  else replicate BODY_WIDTH SPACE.
Definition thick_top_seg (P : gset coord) (x y : nat) (cell : Z) : pystr :=
  if bool_decide ((x, y) ∈ P) then replicate 6 P42
  else BLOCK :: (if (Z.land cell NORTH =? 0)%Z then replicate 5 SPACE else replicate 5 BLOCK).
Definition thick_bot_seg (P : gset coord) (entry exit : Z * Z) (x y : nat) (cell : Z) : pystr :=
  if bool_decide ((x, y) ∈ P) then replicate 6 P42
  else (if (Z.land cell WEST =? 0)%Z then SPACE else BLOCK) :: thick_center entry exit x y.
Definition thick_floor_seg (P : gset coord) (x h : nat) (cell : Z) : pystr :=
  BLOCK :: (if bool_decide ((x, h - 1) ∈ P) then replicate 5 P42
            else if (Z.land cell SOUTH =? 0)%Z then replicate 5 SPACE else replicate 5 BLOCK).

Definition thick_top_line (g : list (list Z)) (P : gset coord) (w y : nat) : pystr :=
  concat (map (fun x => thick_top_seg P x y (get g x y)) (seq 0 w)) ++ [BLOCK].
Definition thick_bot_line (g : list (list Z)) (P : gset coord) (entry exit : Z * Z) (w y : nat) : pystr :=
  concat (map (fun x => thick_bot_seg P entry exit x y (get g x y)) (seq 0 w)) ++
  [if bool_decide ((w - 1, y) ∈ P) then P42
   else if (Z.land (get g (w - 1) y) 2 =? 0)%Z then SPACE else BLOCK].
Definition thick_floor_line (g : list (list Z)) (P : gset coord) (w h : nat) : pystr :=
  concat (map (fun x => thick_floor_seg P x h (get g x (h - 1))) (seq 0 w)) ++ [BLOCK].

(** ** [src/visuals/tui.py]: the generation animation *)

(** The fields of [MazeApp] the animation uses: [self.display_grid],
    [self.step_index], and whether [self.timer] is set. *)
Record tui_state := mkTui {
  display_grid : list (list Z);
  step_index : nat;
  timer_set : bool
}.

(** [self.display_grid[y][x] = new_value]; [None] where Python raises
    [IndexError]. *)
Definition set_item (g : list (list Z)) (x y : nat) (v : Z) : option (list (list Z)) :=
  match g !! y with
  | None => None
  | Some row => if decide (x < length row) then Some (<[y := <[x := v]> row]> g) else None
  end.

(** [for (x, y, new_value) in updates: ...] *)
Fixpoint apply_updates (g : list (list Z)) (updates : list (nat * nat * Z)) : option (list (list Z)) :=
  match updates with
  | [] => Some g
  | (x, y, v) :: us =>
    match set_item g x y v with
    | None => None
    | Some g' => apply_updates g' us
    end
  end.

(** A history entry is the list of its two updates. *)
Definition step_updates (s : step) : list (nat * nat * Z) := [s.1; s.2].

(** [on_timer_tick]: the new state and the string handed to the display
    ([None] when the animation stops); [None] where Python raises. *)
Definition on_timer_tick (history : list step) (pattern_coords : gset coord) (entry exit : Z * Z)
    (st : tui_state) : option (tui_state * option pystr) :=
  if decide (length history <= step_index st) then
    if timer_set st then Some (mkTui (display_grid st) (step_index st) false, None) else None
  else
    match history !! step_index st with
    | None => None
    | Some updates =>
      match apply_updates (display_grid st) (step_updates updates) with
      | None => None
      | Some g =>
        match render_thick g pattern_coords entry exit with
        | None => None
        | Some maze_str => Some (mkTui g (S (step_index st)) (timer_set st), Some maze_str)
        end
      end
    end.

(** [action_animate_gen]: regenerate, validate entry and exit, reset the
    display to all walls and start the timer. *)
Definition action_animate_gen (R : Random) (is_perfect : bool) (entry exit : Z * Z)
    (m : MazeGenerator (rstate R)) (st : tui_state) : option (MazeGenerator (rstate R) * tui_state) :=
  match generate R is_perfect m with
  | None => None
  | Some m' =>
    match set_entry_exit (width m') (height m') entry exit with
    | inr _ => None
    | inl _ => Some (m', mkTui (all_walls (width m') (height m')) 0 true)
    end
  end.

(** The timer firing [n] times: the state after the ticks and what each
    tick displayed. *)
Fixpoint timer_ticks (history : list step) (pattern_coords : gset coord) (entry exit : Z * Z)
    (n : nat) (st : tui_state) : option (tui_state * list (option pystr)) :=
  match n with
  | 0 => Some (st, [])
  | S n' =>
    match on_timer_tick history pattern_coords entry exit st with
    | None => None
    | Some (st', shown) =>
      match timer_ticks history pattern_coords entry exit n' st' with
      | None => None
      | Some (st'', shown') => Some (st'', shown :: shown')
      end
    end
  end.

Definition step_in_range (w h : nat) (s : step) : Prop :=
  in_range w h (parent s) /\ in_range w h (child s).

(** ** Concrete generators for the witnesses *)

Definition ex_gen_5x4 : MazeGenerator Z := mkGen 5 4 7%Z (all_walls 5 4) [] ∅ false.

Definition ex_ops : list op := [OpGenerate true; OpMakeImperfect; OpGenerate false].

Definition ex_after_ops : MazeGenerator Z := default ex_gen_5x4 (run_ops lcg ex_ops ex_gen_5x4).

Definition ex_gen_9x7 : MazeGenerator Z := mkGen 9 7 7%Z (all_walls 9 7) [] ∅ false.

Definition ex_perfect_9x7 : MazeGenerator Z := default ex_gen_9x7 (generate lcg true ex_gen_9x7).

Definition ex_imperfect_9x7 : MazeGenerator Z := default ex_gen_9x7 (generate lcg false ex_gen_9x7).

(** ** Sample inputs for the loader, the renderers and the animation *)

(** A decimal reader for the sample configuration files: [int(s)] on
    strings of ASCII digits. *)
Definition dec_digit (c : Z) : option Z :=
  if ((48 <=? c) && (c <=? 57))%Z then Some (c - 48)%Z else None.
Fixpoint dec_int_from (acc : Z) (s : pystr) : option Z :=
  match s with
  | [] => Some acc
  | c :: s' => match dec_digit c with None => None | Some d => dec_int_from (acc * 10 + d)%Z s' end
  end.
Definition dec_int (s : pystr) : option Z :=
  match s with [] => None | _ => dec_int_from 0 s end.

(** [str.lower] on ASCII. *)
Definition ascii_lower (s : pystr) : pystr :=
  map (fun c => if ((65 <=? c) && (c <=? 90))%Z then (c + 32)%Z else c) s.

Definition ex_config_lines : list pystr :=
  map lit ["# maze"; "WIDTH=9"; "HEIGHT = 7"; "ENTRY=0,0"; "EXIT=8,6"; "OUTPUT_FILE=maze.txt";
           "PERFECT=True  # default"; ""].
Definition ex_config : config := mkConfig 9 7 true (lit "maze.txt") (0, 0)%Z (8, 6)%Z.
Definition ex_bad_lines : list pystr := map lit ["WIDTH=9"; "HEIGHT 7"].
Definition ex_grid : list (list Z) := [[9; 3]; [12; 6]]%Z.
Definition ex_tui : tui_state := mkTui [] 0 false.


(** * Proofs *)

(** ** Boundary validation *)

Lemma validate_border_point_eq (w h : nat) (p : Z * Z) (name : string) :
  validate_border_point w h p name =
  if decide (in_bounds w h p) then
    if decide (on_border w h p) then inl tt else inr (NotOnBorder name p)
  else inr (OutOfBounds name p).
Proof.
  destruct p as [x y]. unfold validate_border_point, in_bounds, on_border; simpl.
  destruct (Z.leb_spec 0 x), (Z.ltb_spec x (Z.of_nat w)),
    (Z.leb_spec 0 y), (Z.ltb_spec y (Z.of_nat h)); simpl;
    repeat case_decide; try lia;
    destruct (Z.eqb_spec x 0), (Z.eqb_spec x (Z.of_nat w - 1)),
      (Z.eqb_spec y 0), (Z.eqb_spec y (Z.of_nat h - 1)); simpl; try reflexivity; lia.
Qed.

(** C8 as stated: a point outside the grid makes [set_entry_exit] raise the
    out-of-bounds error.  With the interior entry [(2, 2)] and the outside
    exit [(-1, 0)] on a 5x5 grid it raises the not-on-border error of the
    entry instead. *)
Lemma set_entry_exit_outside_not_out_of_bounds :
  ~ in_bounds 5 5 (-1, 0)%Z /\
  ~ (exists name p, set_entry_exit 5 5 (2, 2)%Z (-1, 0)%Z = inr (OutOfBounds name p)).
Proof.
  split.
  - unfold in_bounds; simpl; lia.
  - intros (name & p & H). vm_compute in H. discriminate H.
Qed.

(** C8 (amended): [set_entry_exit] checks the entry (bounds, then border),
    then the exit (bounds, then border), then their equality, and raises the
    error of the first check that fails; it returns normally exactly for two
    distinct border points.  On a 5x5 grid, [(0,0)]/[(4,4)] passes and the
    entry [(2,2)] fails with not-on-border. *)
Theorem set_entry_exit_first_failure (w h : nat) (entry exit : Z * Z) :
  (~ in_bounds w h entry ->
     set_entry_exit w h entry exit = inr (OutOfBounds "Entry" entry)) /\
  (in_bounds w h entry -> ~ on_border w h entry ->
     set_entry_exit w h entry exit = inr (NotOnBorder "Entry" entry)) /\
  (border_point w h entry -> ~ in_bounds w h exit ->
     set_entry_exit w h entry exit = inr (OutOfBounds "Exit" exit)) /\
  (border_point w h entry -> in_bounds w h exit -> ~ on_border w h exit ->
     set_entry_exit w h entry exit = inr (NotOnBorder "Exit" exit)) /\
  (border_point w h entry -> border_point w h exit -> entry = exit ->
     set_entry_exit w h entry exit = inr SameEntryExit) /\
  (border_point w h entry -> border_point w h exit -> entry <> exit ->
     set_entry_exit w h entry exit = inl tt) /\
  set_entry_exit 5 5 (0, 0)%Z (4, 4)%Z = inl tt /\
  (forall ex, set_entry_exit 5 5 (2, 2)%Z ex = inr (NotOnBorder "Entry" (2, 2)%Z)).
Proof.
  unfold set_entry_exit, border_point.
  rewrite !validate_border_point_eq.
  repeat split; intros; repeat case_decide; try tauto; try reflexivity.
Qed.

(** ** Grid access *)

Lemma wf_grid_row (w h : nat) (g : list (list Z)) (y : nat) :
  wf_grid w h g -> y < h -> exists row, g !! y = Some row /\ length row = w.
Proof.
  intros [Hl Hr] Hy. destruct (g !! y) as [row|] eqn:E.
  - eauto.
  - apply lookup_ge_None in E. lia.
Qed.

Lemma wf_set_cell (w h : nat) (g : list (list Z)) (x y : nat) (v : Z) :
  wf_grid w h g -> wf_grid w h (set_cell g x y v).
Proof.
  intros [Hl Hr]. unfold set_cell. destruct (g !! y) as [row|] eqn:E; [| split; auto].
  split; [rewrite length_insert; auto |].
  intros y' row' Hy'. destruct (decide (y' = y)) as [->|Hne].
  - rewrite list_lookup_insert_eq in Hy' by (apply lookup_lt_Some in E; lia).
    injection Hy' as <-. rewrite length_insert. eauto.
  - rewrite list_lookup_insert_ne in Hy' by congruence. eauto.
Qed.

Lemma get_set_cell (w h : nat) (g : list (list Z)) (x y x' y' : nat) (v : Z) :
  wf_grid w h g -> x < w -> y < h ->
  get (set_cell g x y v) x' y' = if decide ((x', y') = (x, y)) then v else get g x' y'.
Proof.
  intros Hwf Hx Hy. destruct (wf_grid_row w h g y Hwf Hy) as (row & Hrow & Hlen).
  unfold get, set_cell. rewrite Hrow.
  destruct (decide (y' = y)) as [->|Hne].
  - rewrite list_lookup_insert_eq by (apply lookup_lt_Some in Hrow; lia). rewrite Hrow.
    destruct (decide (x' = x)) as [->|Hnx].
    + rewrite list_lookup_insert_eq by lia. rewrite decide_True; auto.
    + rewrite list_lookup_insert_ne by auto. rewrite decide_False; congruence.
  - rewrite list_lookup_insert_ne by auto. rewrite decide_False; congruence.
Qed.

Lemma wf_all_walls (w h : nat) : wf_grid w h (all_walls w h).
Proof.
  unfold all_walls. split; [apply length_replicate |].
  intros y row Hy. apply lookup_replicate in Hy as [-> _]. apply length_replicate.
Qed.

Lemma get_all_walls (w h x y : nat) : x < w -> y < h -> get (all_walls w h) x y = ALL_WALLS.
Proof.
  intros Hx Hy. unfold get, all_walls.
  rewrite lookup_replicate_2 by lia. rewrite lookup_replicate_2 by lia. reflexivity.
Qed.

(** The effect of [_remove_wall] on two distinct cells of the grid. *)
Lemma remove_wall_grid (w h : nat) (g : list (list Z)) (hist : list step)
    (x1 y1 x2 y2 : nat) (d : Z) (r : bool) (x y : nat) :
  wf_grid w h g -> x1 < w -> y1 < h -> x2 < w -> y2 < h -> (x1, y1) <> (x2, y2) ->
  get (remove_wall g hist x1 y1 x2 y2 d r).1 x y =
  if decide ((x, y) = (x1, y1)) then Z.land (get g x1 y1) (Z.lnot d)
  else if decide ((x, y) = (x2, y2)) then Z.land (get g x2 y2) (Z.lnot (opposite d))
  else get g x y.
Proof.
  intros Hwf ? ? ? ? Hne. unfold remove_wall; simpl.
  assert (Hwf1 := wf_set_cell w h g x1 y1 (Z.land (get g x1 y1) (Z.lnot d)) Hwf).
  rewrite (get_set_cell w h _ x2 y2) by auto.
  rewrite (get_set_cell w h g x1 y1 x2 y2) by auto.
  rewrite (decide_False _ _ (not_eq_sym Hne)).
  rewrite (get_set_cell w h g x1 y1) by auto.
  repeat case_decide; congruence.
Qed.

Lemma remove_wall_wf (w h : nat) (g : list (list Z)) (hist : list step)
    (x1 y1 x2 y2 : nat) (d : Z) (r : bool) :
  wf_grid w h g -> wf_grid w h (remove_wall g hist x1 y1 x2 y2 d r).1.
Proof. intros Hwf. unfold remove_wall; simpl. by do 2 apply wf_set_cell. Qed.

(** ** Bit arithmetic on the four directions *)

Lemma lnot_dir_land (d e : Z) :
  is_dir d -> is_dir e -> Z.land (Z.lnot e) d = if decide (d = e) then 0%Z else d.
Proof.
  unfold is_dir, NORTH, SOUTH, EAST, WEST.
  intros Hd He; destruct Hd as [->|[->|[->| ->]]]; destruct He as [->|[->|[->| ->]]];
    reflexivity.
Qed.

(** Clearing bit [e] leaves the other direction bits as they were. *)
Lemma land_clear_dir (v d e : Z) :
  is_dir d -> is_dir e ->
  Z.land (Z.land v (Z.lnot e)) d = if decide (d = e) then 0%Z else Z.land v d.
Proof.
  intros Hd He. rewrite <- Z.land_assoc, lnot_dir_land by auto.
  case_decide; auto using Z.land_0_r.
Qed.

Lemma opposite_dir (d : Z) : is_dir d -> is_dir (opposite d).
Proof.
  unfold is_dir, opposite, NORTH, SOUTH, EAST, WEST.
  intros [->|[->|[->| ->]]]; simpl; tauto.
Qed.

Lemma adjacent_is_dir (p1 p2 : coord) (d : Z) : adjacent_dir p1 p2 d -> is_dir d.
Proof. unfold adjacent_dir, is_dir. intuition. Qed.

Lemma adjacent_ne (p1 p2 : coord) (d : Z) : adjacent_dir p1 p2 d -> p1 <> p2.
Proof.
  destruct p1, p2; unfold adjacent_dir; simpl; intros H E; injection E as -> ->; lia.
Qed.

(** Enumerating a 4-bit value. *)
Ltac nibble_cases v :=
  let H := fresh in
  assert (H : v = 0%Z \/ v = 1%Z \/ v = 2%Z \/ v = 3%Z \/ v = 4%Z \/ v = 5%Z \/
              v = 6%Z \/ v = 7%Z \/ v = 8%Z \/ v = 9%Z \/ v = 10%Z \/ v = 11%Z \/
              v = 12%Z \/ v = 13%Z \/ v = 14%Z \/ v = 15%Z) by lia;
  repeat destruct H as [->|H]; try subst v.

Lemma land_lnot_range (v d : Z) :
  is_dir d -> (0 <= v <= 15)%Z -> (0 <= Z.land v (Z.lnot d) <= 15)%Z.
Proof.
  unfold is_dir, NORTH, SOUTH, EAST, WEST.
  intros Hd Hv. nibble_cases v; destruct Hd as [->|[->|[->| ->]]]; vm_compute; split; discriminate.
Qed.

Lemma land_lnot_testbit (v d : Z) (i : Z) :
  Z.testbit (Z.land v (Z.lnot d)) i = true -> Z.testbit v i = true.
Proof.
  destruct (Z.neg_nonneg_cases i) as [Hi|Hi].
  - rewrite !Z.testbit_neg_r by auto. discriminate.
  - rewrite Z.land_spec. apply andb_prop.
Qed.

(** ** The candidate lists *)

Lemma elem_of_if_singleton {A} (c : bool) (z a : A) :
  a ∈ (if c then [z] else []) -> c = true /\ a = z.
Proof. destruct c; [rewrite list_elem_of_singleton; auto | intros H; inversion H]. Qed.

Lemma get_unvisited_neighbors_spec (w h x y : nat) (V : gset coord) (nx ny : nat) (d : Z) :
  (nx, ny, d) ∈ get_unvisited_neighbors w h x y V ->
  adjacent_dir (x, y) (nx, ny) d /\ ((nx, ny) ∉ V) /\ (y < h -> x < w -> nx < w /\ ny < h).
Proof.
  unfold get_unvisited_neighbors, adjacent_dir. rewrite !elem_of_app.
  intros [H|[H|[H|H]]]; apply elem_of_if_singleton in H as [Hc Heq];
    apply andb_prop in Hc as [H1 H2]; apply bool_decide_eq_true in H1, H2;
    injection Heq as -> -> ->; simpl; repeat split; auto; lia.
Qed.

Lemma valid_walls_spec (w h : nat) (g : list (list Z)) (x y nx ny : nat) (d : Z) :
  (nx, ny, d) ∈ valid_walls w h g x y ->
  adjacent_dir (x, y) (nx, ny) d /\ Z.land (get g x y) d <> 0%Z /\
  (y < h -> x < w -> nx < w /\ ny < h).
Proof.
  unfold valid_walls, adjacent_dir. rewrite !elem_of_app.
  intros [H|[H|[H|H]]]; apply elem_of_if_singleton in H as [Hc Heq];
    apply andb_prop in Hc as [H1 H2]; apply bool_decide_eq_true in H1;
    apply negb_true_iff, Z.eqb_neq in H2;
    injection Heq as -> -> ->; simpl; repeat split; auto; lia.
Qed.

Lemma choice_elem (R : Random) {A} (a : A) (l : list A) (s : rstate R) :
  (choice R a l s).1 ∈ a :: l.
Proof.
  unfold choice. destruct (randbelow R (length (a :: l)) s) as [i s']; simpl.
  destruct ((a :: l) !! i) eqn:E; simpl.
  - eapply list_elem_of_lookup_2; eauto.
  - left.
Qed.

Lemma randint_lt (R : Random) (n : nat) (s : rstate R) :
  0 < n -> (randint R 0 (n - 1) s).1 < n.
Proof.
  intros Hn. unfold randint.
  pose proof (randbelow_lt R (n - 1 + 1 - 0) s ltac:(lia)) as Hb.
  destruct (randbelow R (n - 1 + 1 - 0) s) as [i s']; simpl in *. lia.
Qed.

(** ** One iteration of the carving loop *)

Lemma carve_step_cases (R : Random) (w h : nat) (c : Carver (rstate R)) (cx cy : nat) (rest : list coord) :
  cv_stack c = (cx, cy) :: rest ->
  (get_unvisited_neighbors w h cx cy (cv_visited c) = [] /\
   carve_step R w h c = mkCarver (cv_grid c) (cv_history c) (cv_visited c) rest (cv_rng c)) \/
  (exists nx ny d s',
     (nx, ny, d) ∈ get_unvisited_neighbors w h cx cy (cv_visited c) /\
     carve_step R w h c =
       mkCarver (remove_wall (cv_grid c) (cv_history c) cx cy nx ny d true).1
         (remove_wall (cv_grid c) (cv_history c) cx cy nx ny d true).2
         ({[(nx, ny)]} ∪ cv_visited c) ((nx, ny) :: (cx, cy) :: rest) s').
Proof.
  intros Hs. unfold carve_step. rewrite Hs.
  destruct (get_unvisited_neighbors w h cx cy (cv_visited c)) as [|n ns] eqn:E; [left; auto |].
  right. pose proof (choice_elem R n ns (cv_rng c)) as Hin.
  destruct (choice R n ns (cv_rng c)) as [[[nx ny] d] s']; simpl in Hin.
  destruct (remove_wall (cv_grid c) (cv_history c) cx cy nx ny d true) as [g' hist'] eqn:Er.
  exists nx, ny, d, s'. split; [exact Hin | rewrite Er; reflexivity].
Qed.

Lemma carve_loop_invariant (R : Random) (w h : nat) (P : Carver (rstate R) -> Prop) :
  (forall c, cv_stack c <> [] -> P c -> P (carve_step R w h c)) ->
  forall n c c', carve_loop R w h n c = Some c' -> P c -> P c'.
Proof.
  intros Hstep n. induction n as [|n IH]; intros c c' Hl Hc; simpl in Hl;
    destruct (cv_stack c) as [|top rest] eqn:Hs; simpl in Hl; try discriminate Hl.
  - injection Hl as <-; auto.
  - injection Hl as <-; auto.
  - eapply IH; [exact Hl |]. apply Hstep; [congruence | auto].
Qed.

Lemma carve_loop_empty (R : Random) (w h n : nat) (c c' : Carver (rstate R)) :
  carve_loop R w h n c = Some c' -> cv_stack c' = [].
Proof.
  revert c. induction n as [|n IH]; intros c Hl; simpl in Hl;
    destruct (cv_stack c) eqn:Hs; simpl in Hl; try discriminate Hl;
    [injection Hl as <-; auto | injection Hl as <-; auto | eauto].
Qed.

(** ** One iteration of the imperfection loop *)

Lemma imperfect_loop_invariant (R : Random) (P : MazeGenerator (rstate R) -> Prop) :
  (forall m s, P m -> P (with_rng R m s)) ->
  (forall m x y nx ny d s, P m -> x < width m -> y < height m ->
     (x, y) ∉ pattern_42_coords m ->
     (nx, ny, d) ∈ valid_walls (width m) (height m) (grid m) x y ->
     (nx, ny) ∉ pattern_42_coords m ->
     P (imperfect_update R m x y nx ny d s)) ->
  forall fuel k count m, 0 < width m -> 0 < height m -> P m ->
  P (imperfect_loop R fuel k count m).1.1.
Proof.
  intros Hrng Hupd fuel. induction fuel as [|f IH]; intros k count m Hw Hh Hm; simpl; auto.
  case_bool_decide; simpl; auto.
  pose proof (randint_lt R (width m) (rng m) Hw) as Hx.
  destruct (randint R 0 (width m - 1) (rng m)) as [x s1]; simpl in Hx.
  pose proof (randint_lt R (height m) s1 Hh) as Hy.
  destruct (randint R 0 (height m - 1) s1) as [y s2]; simpl in Hy.
  case_bool_decide as Hp; [apply IH; simpl; auto |].
  destruct (valid_walls (width m) (height m) (grid m) x y) as [|v vs] eqn:Ev;
    [apply IH; simpl; auto |].
  pose proof (choice_elem R v vs s2) as Hin. rewrite <- Ev in Hin.
  destruct (choice R v vs s2) as [[[nx ny] d] s3]; simpl in Hin.
  case_bool_decide as Hq; [apply IH; simpl; auto |].
  apply IH; [exact Hw | exact Hh |].
  exact (Hupd m x y nx ny d s3 Hm Hx Hy Hp Hin Hq).
Qed.

Lemma remove_wall_get (w h : nat) (g : list (list Z)) (hist : list step)
    (x1 y1 x2 y2 : nat) (d : Z) (r : bool) (x y : nat) :
  wf_grid w h g -> x1 < w -> y1 < h -> x2 < w -> y2 < h -> adjacent_dir (x1, y1) (x2, y2) d ->
  get (remove_wall g hist x1 y1 x2 y2 d r).1 x y =
  if decide (x = x1 /\ y = y1) then Z.land (get g x1 y1) (Z.lnot d)
  else if decide (x = x2 /\ y = y2) then Z.land (get g x2 y2) (Z.lnot (opposite d))
  else get g x y.
Proof.
  intros Hwf ? ? ? ? Hadj. rewrite (remove_wall_grid w h) by eauto using adjacent_ne.
  repeat case_decide; simplify_eq; naive_solver.
Qed.

(** ** Grid properties preserved by every operation *)

Lemma carve_loop_grid (R : Random) (Q : nat -> nat -> list (list Z) -> Prop) (w h n : nat)
    (c c' : Carver (rstate R)) :
  removal_closed Q -> carve_loop R w h n c = Some c' ->
  wf_grid w h (cv_grid c) -> stack_in_range R w h c -> Q w h (cv_grid c) ->
  wf_grid w h (cv_grid c') /\ Q w h (cv_grid c').
Proof.
  intros HQ Hl Hwf Hst Hq.
  cut (wf_grid w h (cv_grid c') /\ stack_in_range R w h c' /\ Q w h (cv_grid c'));
    [tauto |].
  eapply (carve_loop_invariant R w h (fun c =>
    wf_grid w h (cv_grid c) /\ stack_in_range R w h c /\ Q w h (cv_grid c)));
    [| exact Hl | auto].
  clear c Hl Hwf Hst Hq. intros c Hne (Hwf & Hst & Hq).
  destruct (cv_stack c) as [|[cx cy] rest] eqn:Hs; [congruence |].
  assert (Htop : cx < w /\ cy < h) by (apply (Hst (cx, cy)); rewrite Hs; left).
  destruct (carve_step_cases R w h c cx cy rest Hs)
    as [[_ ->] | (nx & ny & d & s' & Hin & ->)]; unfold stack_in_range;
    cbn [cv_grid cv_history cv_visited cv_stack cv_rng].
  - split; [auto | split; [| auto]]. intros p Hp. apply Hst. rewrite Hs. by right.
  - apply get_unvisited_neighbors_spec in Hin as (Hadj & _ & Hr).
    destruct Hr as [Hnx Hny]; [tauto | tauto |].
    split; [by apply remove_wall_wf | split].
    + intros p Hp. apply elem_of_cons in Hp as [-> | Hp]; [simpl; auto |].
      apply Hst. rewrite Hs. exact Hp.
    + apply HQ; auto; tauto.
Qed.

Lemma make_imperfect_grid (R : Random) (Q : nat -> nat -> list (list Z) -> Prop)
    (m : MazeGenerator (rstate R)) :
  removal_closed Q -> 0 < width m -> 0 < height m ->
  wf_grid (width m) (height m) (grid m) -> Q (width m) (height m) (grid m) ->
  width (make_imperfect R m) = width m /\ height (make_imperfect R m) = height m /\
  wf_grid (width m) (height m) (grid (make_imperfect R m)) /\
  Q (width m) (height m) (grid (make_imperfect R m)).
Proof.
  intros HQ Hw Hh Hwf Hq. unfold make_imperfect.
  apply (imperfect_loop_invariant R (fun m' =>
    width m' = width m /\ height m' = height m /\
    wf_grid (width m) (height m) (grid m') /\
    Q (width m) (height m) (grid m'))); auto.
  - intros m' x y nx ny d s (Ew & Eh & Hwf' & Hq') Hx Hy _ Hin _.
    apply valid_walls_spec in Hin as (Hadj & _ & Hr).
    rewrite Ew, Eh in *. destruct (Hr Hy Hx) as [Hnx Hny].
    unfold imperfect_update; cbn [width height grid history].
    split; [auto | split; [auto | split]].
    + by apply remove_wall_wf.
    + apply HQ; auto.
Qed.

Lemma generate_grid (R : Random) (Q : nat -> nat -> list (list Z) -> Prop)
    (it4 it2 : list coord) (p : bool) (m m' : MazeGenerator (rstate R)) :
  removal_closed Q -> 0 < width m -> 0 < height m ->
  Q (width m) (height m) (all_walls (width m) (height m)) ->
  generate_with R it4 it2 p m = Some m' ->
  width m' = width m /\ height m' = height m /\
  wf_grid (width m) (height m) (grid m') /\ Q (width m) (height m) (grid m').
Proof.
  intros HQ Hw Hh Hq Hg. unfold generate_with in Hg.
  destruct (embed_42_with it4 it2 (width m) (height m) ({[(0, 0)]}, ∅, false))
    as [[visited coords] failed].
  destruct (carve_loop R (width m) (height m) (2 * width m * height m) _)
    as [c|] eqn:Hl; [| discriminate].
  injection Hg as <-.
  destruct (carve_loop_grid R Q _ _ _ _ _ HQ Hl) as [Hwf Hq']; simpl; auto.
  { apply wf_all_walls. }
  { intros q Hq0. apply list_elem_of_singleton in Hq0 as ->. simpl. lia. }
  destruct p.
  - simpl. auto.
  - apply (make_imperfect_grid R Q (mkGen _ _ _ _ _ _ _)); simpl; auto.
Qed.

Lemma run_ops_grid (R : Random) (Q : nat -> nat -> list (list Z) -> Prop)
    (ops : list op) (m m' : MazeGenerator (rstate R)) :
  removal_closed Q -> (forall w h, Q w h (all_walls w h)) ->
  0 < width m -> 0 < height m ->
  wf_grid (width m) (height m) (grid m) -> Q (width m) (height m) (grid m) ->
  run_ops R ops m = Some m' ->
  width m' = width m /\ height m' = height m /\
  wf_grid (width m) (height m) (grid m') /\ Q (width m) (height m) (grid m').
Proof.
  intros HQ Hall. revert m. induction ops as [|o ops IH]; intros m Hw Hh Hwf Hq Hr; simpl in Hr.
  - injection Hr as <-. auto.
  - destruct o as [p|].
    + destruct (generate R p m) as [m1|] eqn:Hg; [| discriminate].
      destruct (generate_grid R Q _ _ p m m1 HQ Hw Hh (Hall _ _) Hg) as (Ew & Eh & Hwf1 & Hq1).
      destruct (IH m1) as (Ew' & Eh' & ?); rewrite ?Ew, ?Eh; auto.
      rewrite Ew, Eh in *. auto.
    + destruct (make_imperfect_grid R Q m HQ Hw Hh Hwf Hq) as (Ew & Eh & Hwf1 & Hq1).
      destruct (IH (make_imperfect R m)) as (Ew' & Eh' & ?); rewrite ?Ew, ?Eh; auto.
      rewrite Ew, Eh in *. auto.
Qed.

(** ** Wall symmetry *)

Ltac dir_consts := unfold is_dir, NORTH, SOUTH, EAST, WEST in *.

Ltac destr_dec := repeat match goal with |- context [decide ?P] => destruct (decide P) end.

Lemma opposite_values :
  opposite NORTH = SOUTH /\ opposite SOUTH = NORTH /\ opposite EAST = WEST /\ opposite WEST = EAST.
Proof. repeat split. Qed.

(** Rewrites the cells touched by [_remove_wall] between adjacent cells
    and splits on which of them the goal mentions. *)
Ltac removal_cases Hadj :=
  let O1 := fresh in let O2 := fresh in let O3 := fresh in let O4 := fresh in
  destruct opposite_values as (O1 & O2 & O3 & O4);
  unfold adjacent_dir in Hadj; simpl in Hadj;
  destruct Hadj as [(-> & ? & ?)|[(-> & ? & ?)|[(-> & ? & ?)|(-> & ? & ?)]]];
  rewrite ?O1, ?O2, ?O3, ?O4; clear O1 O2 O3 O4;
  destr_dec; try (exfalso; lia);
  rewrite ?land_clear_dir by (dir_consts; lia);
  destr_dec; try (exfalso; dir_consts; lia); try reflexivity;
  repeat match goal with H : _ /\ _ |- _ => destruct H end; subst.

Lemma walls_symmetric_removal : removal_closed walls_symmetric.
Proof.
  intros w h g hist x1 y1 x2 y2 d r Hwf Hx1 Hy1 Hx2 Hy2 Hadj Hsym x y.
  destruct (Hsym x y) as [HE HS]. clear Hsym.
  split; intros Hx Hy;
    rewrite !(remove_wall_get w h g hist x1 y1 x2 y2 d r) by (auto; lia);
    removal_cases Hadj; first [apply HE; lia | apply HS; lia].
Qed.

Lemma walls_symmetric_all_walls (w h : nat) : walls_symmetric w h (all_walls w h).
Proof.
  intros x y. split; intros; rewrite !get_all_walls by lia; reflexivity.
Qed.

(** C2: for a generator built by the constructor and then put through any
    sequence of [generate] / [make_imperfect] calls, the wall bit of a cell
    toward an adjacent cell is clear iff the opposite bit of that neighbour
    toward the cell is clear (walls are removed in matched pairs only). *)
Theorem walls_symmetric_after_ops (R : Random) (w h : nat) (seed : Z) (ops : list op)
    (m0 m : MazeGenerator (rstate R)) :
  new_generator R w h seed = Some m0 -> run_ops R ops m0 = Some m ->
  walls_symmetric w h (grid m0) /\ walls_symmetric w h (grid m).
Proof.
  unfold new_generator. intros Hn Hr.
  destruct (bool_decide (w < 3) || bool_decide (h < 3)) eqn:Hb; [discriminate |].
  apply orb_false_iff in Hb as [Hw Hh]. apply bool_decide_eq_false in Hw, Hh.
  injection Hn as <-.
  split; [apply walls_symmetric_all_walls |].
  destruct (run_ops_grid R walls_symmetric ops (mkGen w h (seeded R seed) (all_walls w h) [] ∅ false) m walls_symmetric_removal
              walls_symmetric_all_walls) as (Ew & Eh & _ & Hs); simpl; auto; try lia.
  - apply wf_all_walls.
  - apply walls_symmetric_all_walls.
Qed.

(** ** Bitmask range and monotonicity *)

Lemma cells_in_range_removal : removal_closed cells_in_range.
Proof.
  intros w h g hist x1 y1 x2 y2 d r Hwf Hx1 Hy1 Hx2 Hy2 Hadj Hr x y Hx Hy.
  assert (Hd : is_dir d) by (eapply adjacent_is_dir; eauto).
  rewrite (remove_wall_get w h g hist x1 y1 x2 y2 d r) by auto.
  destr_dec.
  - apply land_lnot_range; auto.
  - apply land_lnot_range; auto using opposite_dir.
  - auto.
Qed.

Lemma cells_in_range_all_walls (w h : nat) : cells_in_range w h (all_walls w h).
Proof. intros x y Hx Hy. rewrite get_all_walls by auto. unfold ALL_WALLS. lia. Qed.

Lemma remove_wall_submask (w h : nat) (g : list (list Z)) (hist : list step)
    (x1 y1 x2 y2 : nat) (d : Z) (r : bool) :
  wf_grid w h g -> x1 < w -> y1 < h -> x2 < w -> y2 < h -> adjacent_dir (x1, y1) (x2, y2) d ->
  submask_grid (remove_wall g hist x1 y1 x2 y2 d r).1 g.
Proof.
  intros Hwf Hx1 Hy1 Hx2 Hy2 Hadj x y i.
  rewrite (remove_wall_get w h g hist x1 y1 x2 y2 d r) by auto.
  destr_dec; [| | auto]; intros Hb; apply land_lnot_testbit in Hb;
    destruct_and?; subst; exact Hb.
Qed.

Lemma carve_step_submask (R : Random) (w h : nat) (c : Carver (rstate R)) :
  wf_grid w h (cv_grid c) -> stack_in_range R w h c ->
  submask_grid (cv_grid (carve_step R w h c)) (cv_grid c).
Proof.
  intros Hwf Hst.
  destruct (cv_stack c) as [|[cx cy] rest] eqn:Hs.
  - unfold carve_step. rewrite Hs. intros x y i; auto.
  - assert (Htop : cx < w /\ cy < h) by (apply (Hst (cx, cy)); rewrite Hs; left).
    destruct (carve_step_cases R w h c cx cy rest Hs)
      as [[_ ->] | (nx & ny & d & s' & Hin & ->)];
      cbn [cv_grid]; [intros x y i; auto |].
    apply get_unvisited_neighbors_spec in Hin as (Hadj & _ & Hr).
    destruct Hr as [Hnx Hny]; [tauto | tauto |].
    apply (remove_wall_submask w h); auto; tauto.
Qed.

Lemma make_imperfect_submask (R : Random) (m : MazeGenerator (rstate R)) :
  0 < width m -> 0 < height m -> wf_grid (width m) (height m) (grid m) ->
  submask_grid (grid (make_imperfect R m)) (grid m).
Proof.
  intros Hw Hh Hwf. unfold make_imperfect.
  apply (imperfect_loop_invariant R (fun m' =>
    width m' = width m /\ height m' = height m /\
    wf_grid (width m) (height m) (grid m') /\ submask_grid (grid m') (grid m)));
    [intros m' s Hm'; exact Hm' | | auto | auto |
     split; [auto | split; [auto | split; [auto | intros x' y' i; auto]]]].
  - intros m' x y nx ny d s (Ew & Eh & Hwf' & Hsub) Hx Hy _ Hin _.
    apply valid_walls_spec in Hin as (Hadj & _ & Hr).
    rewrite Ew, Eh in *. destruct (Hr Hy Hx) as [Hnx Hny].
    unfold imperfect_update; cbn [width height grid history].
    split; [auto | split; [auto | split]].
    + by apply remove_wall_wf.
    + intros x' y' i Hb. apply Hsub.
      exact (remove_wall_submask _ _ _ _ _ _ _ _ _ _ Hwf' Hx Hy Hnx Hny Hadj x' y' i Hb).
Qed.

(** One iteration of the imperfection loop: either [count] has reached the
    target and the loop returns [m] as it is, or the iteration moves to a
    generator [m'] whose grid only lost bits, and the loop goes on from there
    with one attempt less. *)
Lemma imperfect_loop_one (R : Random) (k count : nat) (m : MazeGenerator (rstate R)) :
  0 < width m -> 0 < height m -> wf_grid (width m) (height m) (grid m) ->
  (forall f, imperfect_loop R (S f) k count m = (m, count, S f)) \/
  (exists m' count', width m' = width m /\ height m' = height m /\
     wf_grid (width m) (height m) (grid m') /\ submask_grid (grid m') (grid m) /\
     forall f, imperfect_loop R (S f) k count m = imperfect_loop R f k count' m').
Proof.
  intros Hw Hh Hwf.
  destruct (bool_decide (count < k)) eqn:Hc.
  2: { left. intros f. simpl. rewrite Hc. reflexivity. }
  right.
  pose proof (randint_lt R (width m) (rng m) Hw) as Hx.
  destruct (randint R 0 (width m - 1) (rng m)) as [x s1] eqn:E1; simpl in Hx.
  pose proof (randint_lt R (height m) s1 Hh) as Hy.
  destruct (randint R 0 (height m - 1) s1) as [y s2] eqn:E2; simpl in Hy.
  assert (Hsame : forall s, width (with_rng R m s) = width m /\ height (with_rng R m s) = height m /\
            wf_grid (width m) (height m) (grid (with_rng R m s)) /\
            submask_grid (grid (with_rng R m s)) (grid m))
    by (intros s; split; [reflexivity | split; [reflexivity | split; [exact Hwf | intros ? ? ? Hb; exact Hb]]]).
  destruct (bool_decide ((x, y) ∈ pattern_42_coords m)) eqn:Hp.
  { exists (with_rng R m s2), count. split_and!; try apply Hsame.
    intros f. simpl. rewrite Hc, E1, E2, Hp. reflexivity. }
  destruct (valid_walls (width m) (height m) (grid m) x y) as [|v vs] eqn:Ev.
  { exists (with_rng R m s2), count. split_and!; try apply Hsame.
    intros f. simpl. rewrite Hc, E1, E2, Hp, Ev. reflexivity. }
  pose proof (choice_elem R v vs s2) as Hin. rewrite <- Ev in Hin.
  destruct (choice R v vs s2) as [[[nx ny] d] s3] eqn:E3; simpl in Hin.
  destruct (bool_decide ((nx, ny) ∈ pattern_42_coords m)) eqn:Hq.
  { exists (with_rng R m s3), count. split_and!; try apply Hsame.
    intros f. simpl. rewrite Hc, E1, E2, Hp, Ev, E3, Hq. reflexivity. }
  apply valid_walls_spec in Hin as (Hadj & _ & Hr).
  destruct (Hr Hy Hx) as [Hnx Hny].
  exists (imperfect_update R m x y nx ny d s3), (S count).
  unfold imperfect_update; cbn [width height grid]. split_and!; [reflexivity | reflexivity | | |].
  - by apply remove_wall_wf.
  - exact (remove_wall_submask _ _ _ _ _ _ _ _ _ _ Hwf Hx Hy Hnx Hny Hadj).
  - intros f. simpl. rewrite Hc, E1, E2, Hp, Ev, E3, Hq.
    destruct (remove_wall (grid m) (history m) x y nx ny d false); reflexivity.
Qed.

(** [imperfect_loop R n k count m] is the generator after the first [n]
    iterations of the [while] loop of [make_imperfect] (fewer when the loop
    stops first): iteration [n + 1] only clears bits. *)
Lemma imperfect_loop_iteration_submask (R : Random) (n k count : nat) (m : MazeGenerator (rstate R)) :
  0 < width m -> 0 < height m -> wf_grid (width m) (height m) (grid m) ->
  submask_grid (grid (imperfect_loop R (S n) k count m).1.1) (grid (imperfect_loop R n k count m).1.1).
Proof.
  revert count m. induction n as [|n IH]; intros count m Hw Hh Hwf;
    (destruct (imperfect_loop_one R k count m Hw Hh Hwf)
       as [E | (m' & c' & Ew & Eh & Hwf' & Hsub & E)]; rewrite !E).
  - simpl. intros ? ? ? Hb; exact Hb.
  - simpl. exact Hsub.
  - simpl. intros ? ? ? Hb; exact Hb.
  - apply IH; rewrite ?Ew, ?Eh; auto.
Qed.

(** C10: the constructor sets every cell to 15; after any sequence of
    [generate] / [make_imperfect] calls every cell is in [0..15]; each
    iteration of the carving loop and each iteration of the imperfection
    loop only clear bits (a bit set after the iteration was set before it,
    so no wall bit is ever put back within a run), and so does the whole
    imperfection pass. *)
Theorem bitmask_range_and_monotone (R : Random) (w h : nat) (seed : Z) (ops : list op)
    (m0 m : MazeGenerator (rstate R)) :
  new_generator R w h seed = Some m0 -> run_ops R ops m0 = Some m ->
  (forall x y, x < w -> y < h -> get (grid m0) x y = ALL_WALLS) /\
  cells_in_range w h (grid m) /\
  (forall c : Carver (rstate R), wf_grid w h (cv_grid c) -> stack_in_range R w h c ->
     submask_grid (cv_grid (carve_step R w h c)) (cv_grid c)) /\
  (forall (m' : MazeGenerator (rstate R)) (n k count : nat), width m' = w -> height m' = h ->
     wf_grid w h (grid m') ->
     submask_grid (grid (imperfect_loop R (S n) k count m').1.1)
                  (grid (imperfect_loop R n k count m').1.1)) /\
  (forall m' : MazeGenerator (rstate R), width m' = w -> height m' = h ->
     wf_grid w h (grid m') -> submask_grid (grid (make_imperfect R m')) (grid m')).
Proof.
  unfold new_generator. intros Hn Hr.
  destruct (bool_decide (w < 3) || bool_decide (h < 3)) eqn:Hb; [discriminate |].
  apply orb_false_iff in Hb as [Hw Hh]. apply bool_decide_eq_false in Hw, Hh.
  injection Hn as <-. split; [| split; [| split; [| split]]].
  - intros x y Hx Hy. simpl. apply get_all_walls; auto.
  - destruct (run_ops_grid R cells_in_range ops
                (mkGen w h (seeded R seed) (all_walls w h) [] ∅ false) m
                cells_in_range_removal cells_in_range_all_walls) as (_ & _ & _ & Hc);
      simpl; auto; try lia.
    + apply wf_all_walls.
    + apply cells_in_range_all_walls.
  - intros c. apply carve_step_submask.
  - intros m' n k count <- <- Hwf. apply imperfect_loop_iteration_submask; auto; lia.
  - intros m' <- <- Hwf. apply make_imperfect_submask; auto; lia.
Qed.

(** ** Walks, simple paths and trees *)

Lemma is_walk_impl {A} (E E' : A -> A -> Prop) (l : list A) :
  (forall a b, E a b -> E' a b) -> is_walk E l -> is_walk E' l.
Proof.
  intros HE. induction l as [|a t IH]; [auto |].
  destruct t as [|b t]; [auto |]. intros [Hab Ht]. split; [auto | apply IH; exact Ht].
Qed.

Lemma is_walk_snoc {A} (E : A -> A -> Prop) (l : list A) (b : A) :
  is_walk E (l ++ [b]) <-> is_walk E l /\ (forall a, last l = Some a -> E a b).
Proof.
  induction l as [|a t IH]; [simpl; split; [intros _; split; [auto | discriminate] | auto] |].
  destruct t as [|c t].
  - simpl. split; [intros [H _]; split; [auto | intros ? [= <-]; auto] | intros [_ H]; split; auto].
  - change ((a :: c :: t) ++ [b]) with (a :: ((c :: t) ++ [b])).
    change (is_walk E (a :: (c :: t) ++ [b])) with (E a c /\ is_walk E ((c :: t) ++ [b])).
    change (is_walk E (a :: c :: t)) with (E a c /\ is_walk E (c :: t)).
    rewrite IH, last_cons_cons. tauto.
Qed.

Lemma is_walk_rev {A} (E : A -> A -> Prop) (l : list A) :
  is_walk E l -> is_walk (flip E) (reverse l).
Proof.
  induction l as [|a t IH]; [simpl; auto |].
  intros Hw. rewrite reverse_cons, is_walk_snoc. split.
  - apply IH. destruct t; simpl in *; tauto.
  - intros x Hx. rewrite last_reverse in Hx. destruct t as [|b t]; simpl in *; [discriminate |].
    injection Hx as <-. unfold flip. tauto.
Qed.

Lemma is_walk_cons {A} (E : A -> A -> Prop) (a : A) (l : list A) :
  is_walk E (a :: l) -> is_walk E l.
Proof. destruct l; simpl; tauto. Qed.

Lemma last_cons_in {A} (a b : A) (t : list A) : exists z, last (a :: b :: t) = Some z /\ z ∈ b :: t.
Proof.
  revert b. induction t as [|c t IH]; intros b.
  - exists b. split; [reflexivity | left].
  - destruct (IH c) as (z & Hz & Hin). exists z. rewrite last_cons_cons. split; [auto | right; auto].
Qed.

(** Removing the loops of a walk. *)
Lemma walk_to_simple {A} `{EqDecision A} (E : A -> A -> Prop) (l : list A) (a b : A) :
  is_walk E l -> head l = Some a -> last l = Some b ->
  exists l', simple_path E l' a b.
Proof.
  revert a. induction l as [|x t IH]; intros a Hw Ha Hb; [discriminate |].
  injection Ha as Ha. subst x. destruct t as [|y t].
  - injection Hb as <-. exists [a]. repeat split; auto. constructor; [set_solver | constructor].
  - destruct (IH y) as (l' & Hw' & Hnd & Hh & Hl); [exact (proj2 Hw) | auto | exact Hb |].
    destruct (decide (a ∈ l')) as [Hin|Hnin].
    + apply list_elem_of_split in Hin as (l1 & l2 & ->).
      exists (a :: l2). repeat split.
      * clear -Hw'. induction l1 as [|c l1 IH]; simpl in *; [auto |].
        apply IH. destruct (l1 ++ a :: l2) eqn:E'; [destruct l1; discriminate | tauto].
      * apply NoDup_app in Hnd as (_ & _ & Hnd). exact Hnd.
      * rewrite last_app_cons in Hl. exact Hl.
    + exists (a :: l'). repeat split.
      * destruct l' as [|c l']; [discriminate |]. injection Hh as ->. simpl. split; [exact (proj1 Hw) | exact Hw'].
      * constructor; auto.
      * destruct l' as [|c l']; [discriminate |]. rewrite last_cons_cons. exact Hl.
Qed.

Lemma rtc_walk {A} (E : A -> A -> Prop) (a b : A) :
  rtc E a b -> exists l, is_walk E l /\ head l = Some a /\ last l = Some b.
Proof.
  induction 1 as [a|a x b Hax _ (l & Hw & Hh & Hl)].
  - exists [a]. simpl; auto.
  - exists (a :: l). destruct l as [|y l]; [discriminate |]. injection Hh as ->.
    rewrite last_cons_cons. split; [split; [exact Hax | exact Hw] | split; [reflexivity | exact Hl]].
Qed.

Section Unique_paths.
Context {A : Type} `{EqDecision A} (E : A -> A -> Prop) (rank : A -> nat).
Hypothesis E_sym : forall u v, E u v -> E v u.
Hypothesis E_rank : forall u v, E u v -> rank u <> rank v.
Hypothesis lower_unique :
  forall v u1 u2, E v u1 -> E v u2 -> rank u1 < rank v -> rank u2 < rank v -> u1 = u2.

Lemma walk_up (t : list A) (x0 x1 : A) :
  is_walk E (x0 :: x1 :: t) -> NoDup (x0 :: x1 :: t) -> rank x0 < rank x1 ->
  is_walk (fun u v => rank u < rank v) (x0 :: x1 :: t).
Proof.
  revert x0 x1. induction t as [|x2 t IH]; intros x0 x1 Hw Hnd Hlt; simpl; [auto |].
  split; [auto |]. destruct Hw as (H01 & H12 & Hw).
  assert (Hlt' : rank x1 < rank x2).
  { pose proof (E_rank x1 x2 H12).
    destruct (decide (rank x2 < rank x1)) as [Hc|Hc]; [| lia].
    assert (x0 = x2) as ->.
    { eapply lower_unique; [apply E_sym; exact H01 | exact H12 | auto | auto]. }
    apply NoDup_cons in Hnd as [Hnin _]. set_solver. }
  apply (IH x1 x2); [simpl; auto | apply NoDup_cons in Hnd; tauto | exact Hlt'].
Qed.

Lemma lt_walk_last (l : list A) (x z : A) :
  is_walk (fun u v => rank u < rank v) (x :: l) -> l <> [] -> last (x :: l) = Some z ->
  rank x < rank z.
Proof.
  revert x. induction l as [|y l IH]; intros x Hw Hne Hl; [congruence |].
  destruct Hw as [Hxy Hw]. destruct l as [|y' l].
  - injection Hl as ->. exact Hxy.
  - rewrite last_cons_cons in Hl. specialize (IH y Hw ltac:(discriminate) Hl). lia.
Qed.

Lemma nodup_head_last (l : list A) (a : A) :
  NoDup l -> head l = Some a -> last l = Some a -> l = [a].
Proof.
  intros Hnd Hh Hl. destruct l as [|x [|y t]]; [discriminate | injection Hh as ->; auto |].
  injection Hh as ->. destruct (last_cons_in a y t) as (z & Hz & Hin).
  rewrite Hz in Hl. injection Hl as ->. apply NoDup_cons in Hnd as [Hnin _]. contradiction.
Qed.

Lemma simple_path_reverse (l : list A) (a b : A) :
  simple_path E l a b -> simple_path E (reverse l) b a.
Proof.
  intros (Hw & Hnd & Hh & Hl). repeat split.
  - apply (is_walk_impl (flip E)); [intros u v; apply E_sym | by apply is_walk_rev].
  - by rewrite reverse_Permutation.
  - by rewrite head_reverse.
  - by rewrite last_reverse.
Qed.

(** A simple path whose last vertex is not above its first starts by going down. *)
Lemma simple_path_starts_down (l : list A) (a b : A) :
  simple_path E l a b -> a <> b -> rank b <= rank a ->
  exists c t, l = a :: c :: t /\ rank c < rank a.
Proof.
  intros (Hw & Hnd & Hh & Hl) Hab Hba.
  destruct l as [|x [|c t]]; [discriminate | injection Hh as ->; injection Hl as ->; congruence |].
  injection Hh as ->. exists c, t. split; [reflexivity |].
  pose proof (E_rank _ _ (proj1 Hw)).
  destruct (decide (rank c < rank a)) as [Hc|Hc]; [exact Hc | exfalso].
  assert (Hup := walk_up t a c Hw Hnd ltac:(lia)).
  assert (Hab' := lt_walk_last _ a b Hup ltac:(discriminate) Hl). lia.
Qed.

Lemma simple_path_unique_n (n : nat) :
  forall l1 l2 a b, length l1 + length l2 <= n ->
  simple_path E l1 a b -> simple_path E l2 a b -> l1 = l2.
Proof.
  induction n as [|n IH]; intros l1 l2 a b Hn Hp1 Hp2.
  - destruct Hp1 as (_ & _ & Hh1 & _). destruct l1; [discriminate | simpl in Hn; lia].
  - destruct (decide (a = b)) as [<-|Hab].
    + destruct Hp1 as (_ & Hnd1 & Hh1 & Hl1), Hp2 as (_ & Hnd2 & Hh2 & Hl2).
      rewrite (nodup_head_last l1 a), (nodup_head_last l2 a); auto.
    + (* both paths leave their common first vertex downwards *)
      assert (Hdd : forall l1 l2 a b, length l1 + length l2 <= S n -> a <> b ->
                rank b <= rank a -> simple_path E l1 a b -> simple_path E l2 a b -> l1 = l2).
      { clear -IH E_sym E_rank lower_unique.
        intros l1 l2 a b Hn Hab Hba Hp1 Hp2.
        destruct (simple_path_starts_down l1 a b Hp1 Hab Hba) as (b1 & t1 & -> & H1).
        destruct (simple_path_starts_down l2 a b Hp2 Hab Hba) as (b2 & t2 & -> & H2).
        destruct Hp1 as (Hw1 & Hnd1 & _ & Hl1), Hp2 as (Hw2 & Hnd2 & _ & Hl2).
        assert (b1 = b2) as <-.
        { eapply lower_unique; [exact (proj1 Hw1) | exact (proj1 Hw2) | auto | auto]. }
        f_equal. apply (IH _ _ b1 b); [simpl in *; lia | | ].
        - split; [exact (proj2 Hw1) | split; [apply NoDup_cons in Hnd1; tauto | split]].
          + reflexivity.
          + rewrite last_cons_cons in Hl1. exact Hl1.
        - split; [exact (proj2 Hw2) | split; [apply NoDup_cons in Hnd2; tauto | split]].
          + reflexivity.
          + rewrite last_cons_cons in Hl2. exact Hl2. }
      destruct (decide (rank b <= rank a)) as [Hba|Hba].
      * exact (Hdd l1 l2 a b Hn Hab Hba Hp1 Hp2).
      * rewrite <- (reverse_involutive l1), <- (reverse_involutive l2). f_equal.
        apply (Hdd _ _ b a); [rewrite !length_reverse; exact Hn | congruence | lia | |];
          by apply simple_path_reverse.
Qed.

Lemma simple_path_unique (l1 l2 : list A) (a b : A) :
  simple_path E l1 a b -> simple_path E l2 a b -> l1 = l2.
Proof. apply (simple_path_unique_n (length l1 + length l2)); lia. Qed.

Lemma no_simple_cycle (v0 v1 v2 : A) (t : list A) (z : A) :
  simple_path E (v0 :: v1 :: v2 :: t) v0 z -> ~ E z v0.
Proof.
  intros Hp Hz. pose proof Hp as (Hw & Hnd & _ & Hl).
  assert (Hne : v0 <> z).
  { destruct (last_cons_in v0 v1 (v2 :: t)) as (z' & Hz' & Hin). rewrite Hz' in Hl.
    injection Hl as ->. intros ->. apply NoDup_cons in Hnd as [Hnin _]. contradiction. }
  assert (Hp2 : simple_path E [v0; z] v0 z).
  { split; [split; [apply E_sym; exact Hz | exact I] | split; [| split; reflexivity]].
    constructor; [set_solver | constructor; [set_solver | constructor]]. }
  pose proof (simple_path_unique _ _ _ _ Hp Hp2) as Heq. discriminate Heq.
Qed.

End Unique_paths.

Lemma index_of_lookup {A} `{EqDecision A} (l : list A) (i : nat) (x : A) :
  NoDup l -> l !! i = Some x -> index_of x l = i.
Proof.
  revert i. induction l as [|y t IH]; intros i Hnd Hi; [discriminate |].
  apply NoDup_cons in Hnd as [Hnin Hnd]. destruct i as [|i]; simpl in *.
  - injection Hi as ->. by rewrite decide_True.
  - rewrite decide_False; [by rewrite (IH i) |].
    intros ->. apply Hnin. eapply list_elem_of_lookup_2; eauto.
Qed.

Lemma index_of_take {A} `{EqDecision A} (l : list A) (k : nat) (x : A) :
  NoDup l -> x ∈ take k l -> index_of x l < k.
Proof.
  intros Hnd Hx. apply list_elem_of_lookup in Hx as (j & Hj).
  pose proof (lookup_lt_Some _ _ _ Hj) as Hlt. rewrite length_take in Hlt.
  rewrite lookup_take_lt in Hj by lia. rewrite (index_of_lookup l j x Hnd Hj). lia.
Qed.

(** A tree given by the order in which its vertices were added: the [i]-th
    edge [(p, q)] adds the vertex [q = order !! S i] below a vertex [p]
    added before it. *)
Section Parent_tree.
Context {A : Type} `{EqDecision A} (order : list A) (es : list (A * A)).
Hypothesis order_nodup : NoDup order.
Hypothesis order_length : length order = S (length es).
Hypothesis es_parent :
  forall i p q, es !! i = Some (p, q) -> order !! S i = Some q /\ p ∈ take (S i) order.

Lemma es_index (p q : A) : (p, q) ∈ es ->
  exists i, es !! i = Some (p, q) /\ index_of q order = S i /\ index_of p order < S i.
Proof.
  intros Hin. apply list_elem_of_lookup in Hin as (i & Hi).
  destruct (es_parent i p q Hi) as [Hq Hp]. exists i. split; [exact Hi | split].
  - by apply index_of_lookup.
  - by apply index_of_take.
Qed.

Lemma tree_edge_sym (u v : A) : (tree_edge es) u v -> (tree_edge es) v u.
Proof. unfold tree_edge. tauto. Qed.

Lemma tree_edge_rank (u v : A) : (tree_edge es) u v -> index_of u order <> index_of v order.
Proof.
  intros [H|H]; destruct (es_index _ _ H) as (i & _ & H1 & H2); lia.
Qed.

Lemma tree_lower_unique (v u1 u2 : A) :
  (tree_edge es) v u1 -> (tree_edge es) v u2 ->
  index_of u1 order < index_of v order -> index_of u2 order < index_of v order -> u1 = u2.
Proof.
  intros H1 H2 L1 L2.
  assert (G : forall u, (tree_edge es) v u -> index_of u order < index_of v order ->
            exists i, es !! i = Some (u, v) /\ index_of v order = S i).
  { intros u [H|H] L; destruct (es_index _ _ H) as (i & Hi & Hq & Hp); [lia |].
    exists i; auto. }
  destruct (G u1 H1 L1) as (i & Hi & Ei), (G u2 H2 L2) as (j & Hj & Ej).
  assert (i = j) as <- by lia. congruence.
Qed.

Lemma tree_edge_in (u v : A) : (tree_edge es) u v -> u ∈ order /\ v ∈ order.
Proof.
  assert (G : forall p q, (p, q) ∈ es -> p ∈ order /\ q ∈ order).
  { intros p q Hin. apply list_elem_of_lookup in Hin as (i & Hi).
    destruct (es_parent i p q Hi) as [Hq Hp]. split.
    - eapply elem_of_prefix; [exact Hp | apply prefix_take].
    - eapply list_elem_of_lookup_2; eauto. }
  intros [H|H]; apply G in H; tauto.
Qed.

Lemma tree_reachable (r v : A) : head order = Some r -> rtc (tree_edge es) r v <-> v ∈ order.
Proof.
  intros Hr. split.
  - intros Hrtc.
    assert (Hr0 : r ∈ order) by (destruct order; [discriminate | injection Hr as ->; left]).
    clear Hr. induction Hrtc as [x|x y z Hxy _ IH]; [exact Hr0 |].
    apply IH. apply (tree_edge_in x y Hxy).
  - intros Hv. apply list_elem_of_lookup in Hv as (k & Hk).
    revert v Hk. induction k as [k IH] using lt_wf_ind. intros v Hk.
    destruct k as [|i].
    + destruct order; [discriminate |]. injection Hr as ->. injection Hk as ->. constructor.
    + assert (Hi : is_Some (es !! i)).
      { apply lookup_lt_is_Some. apply lookup_lt_Some in Hk. lia. }
      destruct Hi as [[p q] Hi]. destruct (es_parent i p q Hi) as [Hq Hp].
      rewrite Hk in Hq. injection Hq as <-.
      apply list_elem_of_lookup in Hp as (j & Hj).
      pose proof (lookup_lt_Some _ _ _ Hj) as Hlt. rewrite length_take in Hlt.
      rewrite lookup_take_lt in Hj by lia.
      eapply rtc_r; [apply (IH j); [lia | exact Hj] | left; eapply list_elem_of_lookup_2; exact Hi].
Qed.

Lemma tree_es_nodup : NoDup es.
Proof.
  apply NoDup_alt. intros i j [p q] Hi Hj.
  destruct (es_parent i p q Hi) as [Hqi _], (es_parent j p q Hj) as [Hqj _].
  assert (S i = S j) by (eapply NoDup_lookup; eauto). lia.
Qed.

Lemma tree_es_oriented (p q : A) : (p, q) ∈ es -> (q, p) ∉ es.
Proof.
  intros H1 H2. destruct (es_index _ _ H1) as (i & _ & A1 & B1), (es_index _ _ H2) as (j & _ & A2 & B2).
  lia.
Qed.

End Parent_tree.

(** ** The carving loop builds a tree *)

Lemma adjacent_fun (p q1 q2 : coord) (D : Z) :
  adjacent_dir p q1 D -> adjacent_dir p q2 D -> q1 = q2.
Proof.
  destruct p, q1, q2. unfold adjacent_dir, NORTH, SOUTH, EAST, WEST; simpl.
  intros H1 H2. f_equal; lia.
Qed.

Lemma adjacent_dir_fun (p q : coord) (D1 D2 : Z) :
  adjacent_dir p q D1 -> adjacent_dir p q D2 -> D1 = D2.
Proof.
  destruct p, q. unfold adjacent_dir, NORTH, SOUTH, EAST, WEST; simpl.
  intros H1 H2. lia.
Qed.

Lemma adjacent_opposite (p q : coord) (d : Z) :
  adjacent_dir p q d -> adjacent_dir q p (opposite d).
Proof.
  destruct p, q. unfold adjacent_dir, opposite, NORTH, SOUTH, EAST, WEST; simpl.
  intros [(-> & ? & ?)|[(-> & ? & ?)|[(-> & ? & ?)|(-> & ? & ?)]]]; simpl; lia.
Qed.

Lemma remove_wall_hist (g : list (list Z)) (hist : list step) (x1 y1 x2 y2 : nat) (d : Z) :
  (remove_wall g hist x1 y1 x2 y2 d true).2 =
  hist ++ [((x1, y1, get (remove_wall g hist x1 y1 x2 y2 d true).1 x1 y1),
            (x2, y2, get (remove_wall g hist x1 y1 x2 y2 d true).1 x2 y2))].
Proof. reflexivity. Qed.

Lemma edges_snoc (hist : list step) (a1 a2 b1 b2 : nat) (v1 v2 : Z) :
  edges (hist ++ [((a1, a2, v1), (b1, b2, v2))]) = edges hist ++ [((a1, a2), (b1, b2))].
Proof. unfold edges. rewrite map_app. reflexivity. Qed.

Lemma carved_snoc (hist : list step) (a1 a2 b1 b2 : nat) (v1 v2 : Z) :
  carved (hist ++ [((a1, a2, v1), (b1, b2, v2))]) = carved hist ++ [(b1, b2)].
Proof. unfold carved. rewrite map_app. reflexivity. Qed.

Lemma tree_edge_snoc (es : list (coord * coord)) (a b p q : coord) :
  tree_edge (es ++ [(a, b)]) p q <->
  tree_edge es p q \/ (p = a /\ q = b) \/ (p = b /\ q = a).
Proof.
  unfold tree_edge. rewrite !elem_of_app, !list_elem_of_singleton.
  split; [intros [[?|?]|[?|?]]; simplify_eq; tauto |].
  intros [[?|?]|[[-> ->]|[-> ->]]]; tauto.
Qed.

Lemma open_walls_match_push (w h : nat) (g : list (list Z)) (hist : list step)
    (cx cy nx ny : nat) (d : Z) (r : bool) (v1 v2 : Z) :
  wf_grid w h g -> cx < w -> cy < h -> nx < w -> ny < h ->
  adjacent_dir (cx, cy) (nx, ny) d ->
  open_walls_match w h g hist ->
  open_walls_match w h (remove_wall g hist cx cy nx ny d r).1
    (hist ++ [((cx, cy, v1), (nx, ny, v2))]).
Proof.
  intros Hwf Hcx Hcy Hnx Hny Hadj Hm [x y] D [Hx Hy] HD. cbn [fst snd] in Hx, Hy |- *.
  assert (Hd : is_dir d) by (eapply adjacent_is_dir; eauto).
  assert (Hne : (cx, cy) <> (nx, ny)) by (eapply adjacent_ne; eauto).
  assert (Hopp := adjacent_opposite _ _ _ Hadj).
  rewrite (remove_wall_get w h g hist cx cy nx ny d r x y) by auto.
  rewrite edges_snoc. setoid_rewrite tree_edge_snoc.
  destruct (decide (x = cx /\ y = cy)) as [[-> ->]|Hc].
  - rewrite land_clear_dir by auto.
    case_decide as HDd.
    + subst D. split; [intros _ | done]. exists (nx, ny). split; [auto | right; left; auto].
    + split.
      * intros H. destruct (proj1 (Hm (cx, cy) D ltac:(split; auto) HD) H) as (q & Hq & He).
        exists q. auto.
      * intros (q & Hq & [He|[[_ ->]|[Heq _]]]).
        -- apply (Hm (cx, cy) D ltac:(split; auto) HD). eauto.
        -- exfalso. apply HDd. eapply adjacent_dir_fun; eauto.
        -- exfalso. apply Hne. exact Heq.
  - destruct (decide (x = nx /\ y = ny)) as [[-> ->]|Hn].
    + rewrite land_clear_dir by auto using opposite_dir.
      case_decide as HDd.
      * subst D. split; [intros _ | done]. exists (cx, cy). split; [auto | right; right; auto].
      * split.
        -- intros H. destruct (proj1 (Hm (nx, ny) D ltac:(split; auto) HD) H) as (q & Hq & He).
           exists q. auto.
        -- intros (q & Hq & [He|[[Heq _]|[_ ->]]]).
           ++ apply (Hm (nx, ny) D ltac:(split; auto) HD). eauto.
           ++ exfalso. apply Hne. rewrite Heq. reflexivity.
           ++ exfalso. apply HDd. eapply adjacent_dir_fun; eauto.
    + split.
      * intros H. destruct (proj1 (Hm (x, y) D ltac:(split; auto) HD) H) as (q & Hq & He).
        exists q. auto.
      * intros (q & Hq & [He|[[Heq _]|[Heq _]]]).
        -- apply (Hm (x, y) D ltac:(split; auto) HD). eauto.
        -- exfalso. apply Hc. injection Heq. auto.
        -- exfalso. apply Hn. injection Heq. auto.
Qed.

Lemma replay_push (w h : nat) (g : list (list Z)) (hist : list step)
    (x1 y1 x2 y2 : nat) (d : Z) (r : bool) :
  wf_grid w h g -> x1 < w -> y1 < h -> x2 < w -> y2 < h -> (x1, y1) <> (x2, y2) ->
  replay hist (all_walls w h) = g ->
  replay (hist ++ [((x1, y1, get (remove_wall g hist x1 y1 x2 y2 d r).1 x1 y1),
                    (x2, y2, get (remove_wall g hist x1 y1 x2 y2 d r).1 x2 y2))])
    (all_walls w h) = (remove_wall g hist x1 y1 x2 y2 d r).1.
Proof.
  intros Hwf Hx1 Hy1 Hx2 Hy2 Hne Hr. unfold replay in *. rewrite foldl_app, Hr.
  cbn [foldl replay_step]. unfold remove_wall. cbn [fst].
  set (a := Z.land (get g x1 y1) (Z.lnot d)).
  set (g1 := set_cell g x1 y1 a).
  assert (Hwf1 : wf_grid w h g1) by (apply wf_set_cell; auto).
  set (b := Z.land (get g1 x2 y2) (Z.lnot (opposite d))).
  rewrite (get_set_cell w h g1 x2 y2 x2 y2) by auto. rewrite decide_True by reflexivity.
  rewrite (get_set_cell w h g1 x2 y2 x1 y1) by auto. rewrite decide_False by congruence.
  unfold g1. rewrite (get_set_cell w h g x1 y1 x1 y1) by auto. rewrite decide_True by reflexivity.
  reflexivity.
Qed.

Lemma get_unvisited_neighbors_complete (w h x y : nat) (V : gset coord) (qx qy : nat) (D : Z) :
  adjacent_dir (x, y) (qx, qy) D -> in_range w h (qx, qy) -> (qx, qy) ∉ V ->
  (qx, qy, D) ∈ get_unvisited_neighbors w h x y V.
Proof.
  unfold adjacent_dir, in_range, get_unvisited_neighbors; cbn [fst snd].
  intros [(-> & -> & <-)|[(-> & -> & ->)|[(-> & -> & ->)|(-> & <- & ->)]]] [Hx Hy] Hv;
    rewrite !elem_of_app.
  - left. rewrite !bool_decide_eq_true_2 by (auto; lia || (replace (qy + 1 - 1) with qy by lia; auto)).
    replace (qy + 1 - 1) with qy by lia. left.
  - right; left. rewrite !bool_decide_eq_true_2 by (auto; lia). left.
  - right; right; left. rewrite !bool_decide_eq_true_2 by (auto; lia). left.
  - right; right; right. rewrite !bool_decide_eq_true_2 by (auto; lia || (replace (qx + 1 - 1) with qx by lia; auto)).
    replace (qx + 1 - 1) with qx by lia. left.
Qed.

Section Carving.
Context (R : Random) (w h : nat) (C : gset coord).

Lemma carver_inv_step (c : Carver (rstate R)) :
  carver_inv R w h C c -> carver_inv R w h C (carve_step R w h c).
Proof.
  intros Hc. destruct (cv_stack c) as [|[cx cy] rest] eqn:Hs.
  { unfold carve_step. rewrite Hs. exact Hc. }
  assert (Htop : (cx, cy) ∈ carved (cv_history c)) by (apply (ci_stack _ _ _ _ c Hc); rewrite Hs; left).
  destruct (ci_in_range _ _ _ _ c Hc _ Htop) as [Hcx Hcy]; cbn [fst snd] in Hcx, Hcy.
  destruct (carve_step_cases R w h c cx cy rest Hs) as [[Hgun ->] | (nx & ny & d & s' & Hin & ->)].
  - destruct Hc; constructor; cbn [cv_grid cv_history cv_visited cv_stack cv_rng]; auto.
    + intros p Hp. apply ci_stack0. rewrite Hs. by right.
    + intros p q D Hp Hns Hadj Hq. destruct (decide (p = (cx, cy))) as [->|Hpc].
      * destruct (decide (q ∈ cv_visited c)) as [Hv|Hv]; [exact Hv | exfalso].
        destruct q as [qx qy].
        pose proof (get_unvisited_neighbors_complete w h cx cy (cv_visited c) qx qy D Hadj Hq Hv) as Hin.
        rewrite Hgun in Hin.
        inversion Hin.
      * apply (ci_closed0 p q D Hp); auto. rewrite Hs. intros Hp'.
        apply elem_of_cons in Hp' as [?|?]; [contradiction | contradiction].
  - apply get_unvisited_neighbors_spec in Hin as (Hadj & Hnv & Hr).
    destruct (Hr Hcy Hcx) as [Hnx Hny]. clear Hr.
    assert (Hne : (cx, cy) <> (nx, ny)) by (eapply adjacent_ne; eauto).
    assert (Hnc : (nx, ny) ∉ carved (cv_history c)) by (rewrite (ci_visited _ _ _ _ c Hc) in Hnv; tauto).
    assert (HnC : (nx, ny) ∉ C) by (rewrite (ci_visited _ _ _ _ c Hc) in Hnv; tauto).
    destruct Hc as [Hwf Hrg Hnd Hir Hvis Hpat Hst Hpar Hbits Hrep Hcl].
    constructor; cbn [cv_grid cv_history cv_visited cv_stack cv_rng];
      rewrite ?remove_wall_hist, ?carved_snoc.
    + by apply remove_wall_wf.
    + apply cells_in_range_removal; auto.
    + apply NoDup_app. split; [exact Hnd | split; [| apply NoDup_singleton]].
      intros p Hp Hp'. apply list_elem_of_singleton in Hp'. subst p. contradiction.
    + intros p Hp. apply elem_of_app in Hp as [Hp|Hp]; [auto |].
      apply list_elem_of_singleton in Hp as ->. split; auto.
    + intros p. rewrite elem_of_union, elem_of_singleton, elem_of_app, list_elem_of_singleton, Hvis.
      tauto.
    + intros p Hp. rewrite elem_of_app, list_elem_of_singleton. intros [H| ->]; [| contradiction].
      exact (Hpat p Hp H).
    + intros p Hp. rewrite elem_of_app, list_elem_of_singleton.
      apply elem_of_cons in Hp as [->|Hp]; [by right | left; apply Hst; rewrite Hs; exact Hp].
    + intros i s Hi. apply lookup_app_Some in Hi as [Hi|[Hlen Hi]].
      * destruct (Hpar i s Hi) as [Hp Hd]. split; [| exact Hd].
        rewrite take_app_le; [exact Hp |].
        apply lookup_lt_Some in Hi. unfold carved. simpl. rewrite length_map. lia.
      * apply list_lookup_singleton_Some in Hi as [Hi <-].
        unfold parent, child; cbn [fst snd]. split; [| eauto].
        rewrite take_app_le; [| unfold carved; simpl; rewrite length_map; lia].
        rewrite take_ge; [exact Htop | unfold carved; simpl; rewrite length_map; lia].
    + apply open_walls_match_push; auto.
    + apply (replay_push w h); auto.
    + intros p q D Hp Hns Hadj' Hq. rewrite elem_of_union. right.
      apply elem_of_app in Hp as [Hp|Hp]; [| apply list_elem_of_singleton in Hp as ->;
        exfalso; apply Hns; left].
      apply (Hcl p q D Hp); auto. rewrite Hs. intros Hp'. apply Hns. by right.
Qed.

Lemma carver_inv_init (s : rstate R) (V : gset coord) :
  0 < w -> 0 < h -> (0, 0) ∉ C -> (forall p, p ∈ V <-> p = (0, 0) \/ p ∈ C) ->
  carver_inv R w h C (mkCarver (all_walls w h) [] V [(0, 0)] s).
Proof.
  intros Hw Hh H0 HV. constructor; cbn [cv_grid cv_history cv_visited cv_stack cv_rng].
  - apply wf_all_walls.
  - apply cells_in_range_all_walls.
  - unfold carved. simpl. apply NoDup_singleton.
  - intros p Hp. unfold carved in Hp. simpl in Hp. apply list_elem_of_singleton in Hp as ->.
    split; simpl; lia.
  - intros p. rewrite HV. unfold carved. simpl. rewrite list_elem_of_singleton. tauto.
  - intros p Hp. unfold carved. simpl. rewrite list_elem_of_singleton. intros ->. contradiction.
  - intros p Hp. exact Hp.
  - intros i st Hi. rewrite lookup_nil in Hi. discriminate.
  - intros [x y] D [Hx Hy] HD. cbn [fst snd] in *. rewrite get_all_walls by auto.
    split.
    + intros H. exfalso. revert H. dir_consts.
      destruct HD as [->|[->|[->| ->]]]; unfold ALL_WALLS; vm_compute; discriminate.
    + intros (q & _ & [Hq|Hq]); unfold edges in Hq; simpl in Hq; inversion Hq.
  - reflexivity.
  - intros p q D Hp Hns. unfold carved in Hp. simpl in Hp.
    apply list_elem_of_singleton in Hp as ->. exfalso. apply Hns. left.
Qed.

Lemma in_range_length (l : list coord) :
  NoDup l -> (forall p, p ∈ l -> in_range w h p) -> length l <= w * h.
Proof.
  intros Hnd Hin.
  assert (Hsub : l ⊆+ list_prod (seq 0 w) (seq 0 h)).
  { apply NoDup_submseteq; [exact Hnd |]. intros [x y] Hp. apply Hin in Hp as [Hx Hy].
    apply list_elem_of_In, in_prod; apply in_seq; simpl in *; lia. }
  apply submseteq_length in Hsub. rewrite length_prod, !length_seq in Hsub. exact Hsub.
Qed.

Lemma carve_measure_step (c : Carver (rstate R)) :
  carver_inv R w h C c -> cv_stack c <> [] -> S (carve_measure R w h (carve_step R w h c)) = carve_measure R w h c.
Proof.
  intros Hc Hne. destruct (cv_stack c) as [|[cx cy] rest] eqn:Hs; [congruence |].
  pose proof (carver_inv_step c Hc) as Hc'.
  destruct (carve_step_cases R w h c cx cy rest Hs) as [[_ Heq] | (nx & ny & d & s' & Hin & Heq)];
    rewrite Heq in Hc' |- *; unfold carve_measure; cbn [cv_history cv_stack]; rewrite Hs.
  - simpl. lia.
  - rewrite remove_wall_hist, carved_snoc in *.
    pose proof (in_range_length _ (ci_nodup _ _ _ _ _ Hc') (ci_in_range _ _ _ _ _ Hc')) as Hl.
    cbn [cv_history] in Hl. rewrite ?remove_wall_hist, ?carved_snoc, length_app in Hl.
    rewrite length_app. simpl in *. lia.
Qed.

(** The loop stops after [carve_measure R w h c - carve_measure R w h c'] iterations, and
    any number of iterations allowed below that is not enough. *)
Lemma carve_loop_exact (n : nat) (c c' : Carver (rstate R)) :
  carver_inv R w h C c -> carve_loop R w h n c = Some c' ->
  carver_inv R w h C c' /\ carve_measure R w h c' <= carve_measure R w h c /\
  forall m, carve_loop R w h m c = Some c' <-> carve_measure R w h c - carve_measure R w h c' <= m.
Proof.
  revert c. induction n as [|n IH]; intros c Hc Hl; simpl in Hl;
    destruct (cv_stack c) as [|top rest] eqn:Hs; try discriminate Hl.
  - injection Hl as <-. split; [exact Hc | split; [lia |]].
    intros m. destruct m; simpl; rewrite Hs; split; auto; lia.
  - injection Hl as <-. split; [exact Hc | split; [lia |]].
    intros m. destruct m; simpl; rewrite Hs; split; auto; lia.
  - assert (Hne : cv_stack c <> []) by congruence.
    pose proof (carve_measure_step c Hc Hne) as Hm.
    destruct (IH _ (carver_inv_step c Hc) Hl) as (Hc' & Hle & Hiff).
    split; [exact Hc' | split; [lia |]].
    intros [|m]; simpl; rewrite Hs.
    + split; [discriminate | lia].
    + rewrite Hiff. lia.
Qed.

Lemma carve_loop_enough (n : nat) (c : Carver (rstate R)) :
  carver_inv R w h C c -> carve_measure R w h c <= n -> exists c', carve_loop R w h n c = Some c'.
Proof.
  revert c. induction n as [|n IH]; intros c Hc Hn; simpl;
    destruct (cv_stack c) as [|top rest] eqn:Hs; eauto.
  - unfold carve_measure in Hn. rewrite Hs in Hn. simpl in Hn. lia.
  - apply IH; [by apply carver_inv_step |].
    pose proof (carve_measure_step c Hc ltac:(congruence)). lia.
Qed.

End Carving.

(** ** The glyph *)

Lemma foldl_embed_add (ox oy : nat) (V C : gset coord) (f : bool) (l : list coord) :
  foldl (embed_add ox oy) (V, C, f) l =
  (list_to_set (map (shift ox oy) l) ∪ V, list_to_set (map (shift ox oy) l) ∪ C, f).
Proof.
  revert V C. induction l as [|[dx dy] l IH]; intros V C; simpl.
  - by rewrite !union_empty_l_L.
  - rewrite IH. change (shift ox oy (dx, dy)) with (ox + dx, oy + dy).
    repeat match goal with |- (_, _) = (_, _) => f_equal end; set_solver.
Qed.

Lemma embed_42_with_eq (it4 it2 : list coord) (w h : nat) (V C : gset coord) (f : bool) :
  embed_42_with it4 it2 w h (V, C, f) =
  (pattern_cells it4 it2 w h ∪ V, pattern_cells it4 it2 w h ∪ C,
   f || bool_decide (w < 7 + 2) || bool_decide (h < 5 + 2)).
Proof.
  unfold embed_42_with, pattern_cells.
  destruct (bool_decide (w < 7 + 2)), (bool_decide (h < 5 + 2)); simpl;
    rewrite ?union_empty_l_L, ?orb_true_r, ?orb_false_r; try reflexivity.
  rewrite !foldl_embed_add, list_to_set_app_L.
  repeat match goal with |- (_, _) = (_, _) => f_equal end; set_solver.
Qed.

Lemma pattern_cells_range (w h : nat) (p : coord) :
  p ∈ pattern_cells pat_4 pat_2 w h -> 1 <= p.1 /\ p.1 + 1 < w /\ 1 <= p.2 /\ p.2 + 1 < h.
Proof.
  unfold pattern_cells.
  destruct (bool_decide (w < 7 + 2)) eqn:Ew, (bool_decide (h < 5 + 2)) eqn:Eh; cbn [orb];
    try (intros Hp; apply elem_of_empty in Hp; contradiction).
  apply bool_decide_eq_false in Ew, Eh.
  rewrite elem_of_list_to_set, elem_of_app, !list_elem_of_fmap.
  assert (H4 : Forall (fun d : coord => d.1 <= 2 /\ d.2 <= 4) pat_4)
    by (repeat constructor; simpl; lia).
  assert (H2 : Forall (fun d : coord => d.1 <= 2 /\ d.2 <= 4) pat_2)
    by (repeat constructor; simpl; lia).
  rewrite Forall_forall in H4, H2.
  intros [(d & -> & Hd)|(d & -> & Hd)]; [apply H4 in Hd | apply H2 in Hd];
    unfold shift; cbn [fst snd]; split_and!; try lia;
    pose proof (Nat.div_mod (w - 7) 2 ltac:(lia)); pose proof (Nat.mod_upper_bound (w - 7) 2 ltac:(lia));
    pose proof (Nat.div_mod (h - 5) 2 ltac:(lia)); pose proof (Nat.mod_upper_bound (h - 5) 2 ltac:(lia));
    lia.
Qed.

(** ** [generate] *)

Lemma generate_with_eq (R : Random) (it4 it2 : list coord) (p : bool) (m : MazeGenerator (rstate R)) :
  generate_with R it4 it2 p m =
  match carve_loop R (width m) (height m) (2 * width m * height m)
          (initial_carver (width m) (height m) (pattern_cells it4 it2 (width m) (height m)) (rng m)) with
  | None => None
  | Some c =>
    let m1 := mkGen (width m) (height m) (cv_rng c) (cv_grid c) (cv_history c)
                (pattern_cells it4 it2 (width m) (height m))
                (bool_decide (width m < 7 + 2) || bool_decide (height m < 5 + 2)) in
    Some (if p then m1 else make_imperfect R m1)
  end.
Proof.
  unfold generate_with. rewrite embed_42_with_eq, union_empty_r_L. reflexivity.
Qed.

Lemma initial_carver_inv (R : Random) (w h : nat) (s : rstate R) :
  0 < w -> 0 < h ->
  carver_inv R w h (pattern_cells pat_4 pat_2 w h) (initial_carver w h (pattern_cells pat_4 pat_2 w h) s).
Proof.
  intros Hw Hh. apply carver_inv_init; auto.
  - intros H. apply pattern_cells_range in H. simpl in H. lia.
  - intros p. rewrite elem_of_union, elem_of_singleton. tauto.
Qed.

Lemma generate_run (R : Random) (p : bool) (m : MazeGenerator (rstate R)) :
  0 < width m -> 0 < height m ->
  let C := pattern_cells pat_4 pat_2 (width m) (height m) in
  exists c,
    carve_loop R (width m) (height m) (2 * width m * height m)
      (initial_carver (width m) (height m) C (rng m)) = Some c /\
    carver_inv R (width m) (height m) C c /\ cv_stack c = [] /\
    generate R p m =
      Some (let m1 := mkGen (width m) (height m) (cv_rng c) (cv_grid c) (cv_history c) C
                        (bool_decide (width m < 7 + 2) || bool_decide (height m < 5 + 2)) in
            if p then m1 else make_imperfect R m1).
Proof.
  intros Hw Hh C.
  pose proof (initial_carver_inv R (width m) (height m) (rng m) Hw Hh) as H0.
  destruct (carve_loop_enough R (width m) (height m) C (2 * width m * height m) _ H0) as [c Hc].
  { unfold carve_measure, initial_carver. simpl. lia. }
  destruct (carve_loop_exact R (width m) (height m) C _ _ _ H0 Hc) as (Hinv & _ & _).
  exists c. split; [exact Hc | split; [exact Hinv | split]].
  - eapply carve_loop_empty; eauto.
  - unfold generate. rewrite generate_with_eq. unfold C in Hc. rewrite Hc. reflexivity.
Qed.

Lemma carve_loop_mono (R : Random) (w h n k : nat) (c c' : Carver (rstate R)) :
  carve_loop R w h n c = Some c' -> carve_loop R w h (n + k) c = Some c'.
Proof.
  revert c. induction n as [|n IH]; intros c Hl.
  - simpl in Hl. destruct (cv_stack c) eqn:Hs; [| discriminate Hl].
    destruct k; simpl; rewrite Hs; exact Hl.
  - simpl in Hl |- *. destruct (cv_stack c); auto.
Qed.

(** C9 as stated: on a 3x3 grid (too small for the glyph) the carving loop
    is still running after [width * height = 9] iterations. *)
Lemma carving_exceeds_width_times_height :
  pattern_cells pat_4 pat_2 3 3 = ∅ /\
  carve_loop lcg 3 3 (3 * 3) (initial_carver 3 3 (pattern_cells pat_4 pat_2 3 3) 7%Z) = None.
Proof. split; [reflexivity | vm_compute; reflexivity]. Qed.

(** C9 (amended): started as [generate] starts it, the carving loop pushes
    each cell at most once ([k] pushes, [k <= width * height - 1]), ends with
    an empty stack after exactly [2 * k + 1] iterations, so within
    [2 * width * height - 1], and when it ends every in-range neighbour of a
    carved cell has been visited (carved, or a glyph cell). *)
Theorem carving_loop_terminates (R : Random) (w h : nat) (s : rstate R) :
  0 < w -> 0 < h ->
  let C := pattern_cells pat_4 pat_2 w h in
  let c0 := initial_carver w h C s in
  exists c, carve_loop R w h (2 * w * h - 1) c0 = Some c /\ cv_stack c = [] /\
    NoDup (carved (cv_history c)) /\ length (cv_history c) <= w * h - 1 /\
    carve_loop R w h (2 * length (cv_history c) + 1) c0 = Some c /\
    (forall n, n < 2 * length (cv_history c) + 1 -> carve_loop R w h n c0 = None) /\
    (forall p q D, p ∈ carved (cv_history c) -> adjacent_dir p q D -> in_range w h q ->
       q ∈ C \/ q ∈ carved (cv_history c)).
Proof.
  intros Hw Hh C c0.
  pose proof (initial_carver_inv R w h s Hw Hh) as H0. fold C c0 in H0.
  assert (Hm0 : carve_measure R w h c0 = 2 * (w * h - 1) + 1)
    by (unfold carve_measure, c0, initial_carver; simpl; lia).
  destruct (carve_loop_enough R w h C (2 * w * h - 1) c0 H0) as [c Hc]; [lia |].
  destruct (carve_loop_exact R w h C _ _ _ H0 Hc) as (Hinv & Hle & Hiff).
  pose proof (carve_loop_empty R w h _ _ _ Hc) as Hs.
  pose proof (in_range_length w h _ (ci_nodup _ _ _ _ _ Hinv) (ci_in_range _ _ _ _ _ Hinv)) as Hlen.
  unfold carved in Hlen. simpl in Hlen. rewrite length_map in Hlen.
  assert (Hmc : carve_measure R w h c = 2 * (w * h - S (length (cv_history c))))
    by (unfold carve_measure, carved; rewrite Hs; simpl; rewrite length_map; lia).
  exists c. split; [exact Hc | split; [exact Hs | split; [exact (ci_nodup _ _ _ _ _ Hinv) | split; [lia |]]]].
  split; [| split].
  - apply Hiff. lia.
  - intros n Hn. destruct (carve_loop R w h n c0) as [c''|] eqn:E; [exfalso | reflexivity].
    pose proof (carve_loop_mono R w h n (2 * w * h - 1 - n) _ _ E) as E'.
    replace (n + (2 * w * h - 1 - n)) with (2 * w * h - 1) in E' by lia.
    rewrite Hc in E'. injection E' as <-. apply Hiff in E. lia.
  - intros p q D Hp Hadj Hq. apply (ci_visited _ _ _ _ _ Hinv).
    apply (ci_closed _ _ _ _ _ Hinv p q D Hp); [rewrite Hs; apply not_elem_of_nil | auto | auto].
Qed.

(** ** The imperfection pass keeps the fields it does not write *)

Lemma make_imperfect_fields (R : Random) (m : MazeGenerator (rstate R)) :
  0 < width m -> 0 < height m ->
  width (make_imperfect R m) = width m /\ height (make_imperfect R m) = height m /\
  pattern_42_coords (make_imperfect R m) = pattern_42_coords m /\
  pattern_42_failed (make_imperfect R m) = pattern_42_failed m.
Proof.
  intros Hw Hh. unfold make_imperfect.
  apply (imperfect_loop_invariant R (fun m' =>
    width m' = width m /\ height m' = height m /\
    pattern_42_coords m' = pattern_42_coords m /\ pattern_42_failed m' = pattern_42_failed m));
    auto.
Qed.

Lemma make_imperfect_replay (R : Random) (m : MazeGenerator (rstate R)) :
  0 < width m -> 0 < height m -> wf_grid (width m) (height m) (grid m) ->
  replay (history m) (all_walls (width m) (height m)) = grid m ->
  replay (history (make_imperfect R m)) (all_walls (width m) (height m)) = grid (make_imperfect R m).
Proof.
  intros Hw Hh Hwf Hr. unfold make_imperfect.
  apply (imperfect_loop_invariant R (fun m' =>
    width m' = width m /\ height m' = height m /\
    wf_grid (width m) (height m) (grid m') /\
    replay (history m') (all_walls (width m) (height m)) = grid m')); auto.
  intros m' x y nx ny d s (Ew & Eh & Hwf' & Hr') Hx Hy _ Hin _.
  apply valid_walls_spec in Hin as (Hadj & _ & Hrg).
  rewrite Ew, Eh in *. destruct (Hrg Hy Hx) as [Hnx Hny].
  unfold imperfect_update; cbn [width height grid history].
  split; [auto | split; [auto | split]].
  - by apply remove_wall_wf.
  - apply (replay_push (width m) (height m)); auto. eapply adjacent_ne; eauto.
Qed.

(** C4: after [generate] (perfect or not), writing the two recorded updates
    of every history step, in order, onto a fresh all-walls grid of the same
    size gives the final grid. *)
Theorem history_replays_to_grid (R : Random) (p : bool) (m m' : MazeGenerator (rstate R)) :
  0 < width m -> 0 < height m -> generate R p m = Some m' ->
  width m' = width m /\ height m' = height m /\
  replay (history m') (all_walls (width m') (height m')) = grid m'.
Proof.
  intros Hw Hh Hg. destruct (generate_run R p m Hw Hh) as (c & _ & Hinv & _ & Hg').
  rewrite Hg in Hg'. injection Hg' as ->. destruct p.
  - simpl. split; [auto | split; [auto | exact (ci_replay _ _ _ _ _ Hinv)]].
  - cbv beta iota. match goal with |- context [make_imperfect R ?x] => set (m1 := x) end.
    destruct (make_imperfect_fields R m1 Hw Hh) as (Ew & Eh & _).
    rewrite Ew, Eh. split; [auto | split; [auto |]].
    exact (make_imperfect_replay R m1 Hw Hh (ci_wf _ _ _ _ _ Hinv) (ci_replay _ _ _ _ _ Hinv)).
Qed.

(** ** Glyph cells *)

Lemma all_bits_set (v : Z) :
  (0 <= v <= 15)%Z -> (forall D, is_dir D -> Z.land v D <> 0%Z) -> v = ALL_WALLS.
Proof.
  intros Hr H.
  pose proof (H NORTH (or_introl eq_refl)) as HN.
  pose proof (H SOUTH (or_intror (or_introl eq_refl))) as HS.
  pose proof (H EAST (or_intror (or_intror (or_introl eq_refl)))) as HE.
  pose proof (H WEST (or_intror (or_intror (or_intror eq_refl)))) as HW.
  clear H. nibble_cases v; first
    [ reflexivity | exfalso; first [ apply HN; reflexivity | apply HS; reflexivity
                                   | apply HE; reflexivity | apply HW; reflexivity ] ].
Qed.

Lemma hist_carved (hist : list step) (i : nat) (s : step) :
  hist !! i = Some s -> parent s ∈ take (S i) (carved hist) -> parent s ∈ carved hist /\ child s ∈ carved hist.
Proof.
  intros Hs Hp. split.
  - eapply elem_of_prefix; [exact Hp | apply prefix_take].
  - right. apply list_elem_of_fmap. exists s. split; [reflexivity |].
    eapply list_elem_of_lookup_2; eauto.
Qed.

Section Carved_facts.
Context (R : Random) (w h : nat) (C : gset coord) (c : Carver (rstate R)).
Hypothesis Hinv : carver_inv R w h C c.

Lemma inv_hist_carved (s : step) :
  s ∈ cv_history c -> parent s ∈ carved (cv_history c) /\ child s ∈ carved (cv_history c).
Proof.
  intros Hs. apply list_elem_of_lookup in Hs as (i & Hi).
  eapply hist_carved; [exact Hi | exact (proj1 (ci_parent _ _ _ _ _ Hinv i s Hi))].
Qed.

Lemma inv_edge_carved (p q : coord) :
  tree_edge (edges (cv_history c)) p q -> p ∈ carved (cv_history c) /\ q ∈ carved (cv_history c).
Proof.
  assert (G : forall a b, (a, b) ∈ edges (cv_history c) ->
            a ∈ carved (cv_history c) /\ b ∈ carved (cv_history c)).
  { intros a b Hab. apply list_elem_of_fmap in Hab as (s & Hs & Hin). injection Hs as -> ->.
    exact (inv_hist_carved s Hin). }
  intros [H|H]; apply G in H; tauto.
Qed.

Lemma inv_pattern_walls (q : coord) :
  q ∈ C -> in_range w h q -> get (cv_grid c) q.1 q.2 = ALL_WALLS.
Proof.
  intros HqC Hq. apply all_bits_set.
  - destruct Hq. apply (ci_range _ _ _ _ _ Hinv); auto.
  - intros D HD Hz. apply (ci_bits _ _ _ _ _ Hinv q D Hq HD) in Hz as (q' & _ & Hte).
    apply inv_edge_carved in Hte as [Hc _].
    exact (ci_pattern _ _ _ _ _ Hinv q HqC Hc).
Qed.

Lemma inv_hist_pattern (s : step) :
  s ∈ cv_history c -> (parent s ∉ C) /\ child s ∉ C.
Proof.
  intros Hs. destruct (inv_hist_carved s Hs) as [Hp Hc].
  split; intros HC; eapply (ci_pattern _ _ _ _ _ Hinv); eauto.
Qed.

End Carved_facts.

Lemma make_imperfect_pattern (R : Random) (m : MazeGenerator (rstate R)) :
  0 < width m -> 0 < height m -> wf_grid (width m) (height m) (grid m) ->
  (forall q, q ∈ pattern_42_coords m -> in_range (width m) (height m) q) ->
  (forall q, q ∈ pattern_42_coords m -> get (grid m) q.1 q.2 = ALL_WALLS) ->
  (forall s, s ∈ history m -> (parent s ∉ pattern_42_coords m) /\ child s ∉ pattern_42_coords m) ->
  let m' := make_imperfect R m in
  (forall q, q ∈ pattern_42_coords m' -> get (grid m') q.1 q.2 = ALL_WALLS) /\
  (forall s, s ∈ history m' -> (parent s ∉ pattern_42_coords m') /\ child s ∉ pattern_42_coords m').
Proof.
  intros Hw Hh Hwf Hrange Hwalls Hhist m'.
  assert (Hinv : width m' = width m /\ height m' = height m /\
    pattern_42_coords m' = pattern_42_coords m /\
    wf_grid (width m) (height m) (grid m') /\
    (forall q, q ∈ pattern_42_coords m -> get (grid m') q.1 q.2 = ALL_WALLS) /\
    (forall s, s ∈ history m' -> (parent s ∉ pattern_42_coords m) /\ child s ∉ pattern_42_coords m)).
  { unfold m', make_imperfect.
    apply (imperfect_loop_invariant R (fun m' =>
      width m' = width m /\ height m' = height m /\
      pattern_42_coords m' = pattern_42_coords m /\
      wf_grid (width m) (height m) (grid m') /\
      (forall q, q ∈ pattern_42_coords m -> get (grid m') q.1 q.2 = ALL_WALLS) /\
      (forall s, s ∈ history m' -> (parent s ∉ pattern_42_coords m) /\ child s ∉ pattern_42_coords m)));
      [auto | | auto | auto |
       split; [reflexivity | split; [reflexivity | split; [reflexivity |
         split; [exact Hwf | split; [exact Hwalls | exact Hhist]]]]]].
    intros m1 x y nx ny d s (Ew & Eh & Ep & Hwf1 & Hw1 & Hh1) Hx Hy Hxy Hin Hnxy.
    apply valid_walls_spec in Hin as (Hadj & _ & Hrg).
    rewrite Ew, Eh, Ep in *. destruct (Hrg Hy Hx) as [Hnx Hny].
    unfold imperfect_update; cbn [width height grid history pattern_42_coords].
    split; [auto | split; [auto | split; [auto | split; [| split]]]].
    - by apply remove_wall_wf.
    - intros [qx qy] Hq. rewrite (remove_wall_get (width m) (height m)) by auto.
      case_decide as E1; [destruct E1; subst; contradiction |].
      case_decide as E2; [destruct E2; subst; contradiction |].
      exact (Hw1 _ Hq).
    - intros s0 Hs0. apply elem_of_app in Hs0 as [Hs0 | Hs0]; [exact (Hh1 _ Hs0) |].
      apply list_elem_of_singleton in Hs0 as ->. unfold parent, child; cbn [fst snd]. split; assumption. }
  destruct Hinv as (_ & _ & Ep & _ & Hw' & Hh'). rewrite Ep. auto.
Qed.

(** C5: after [generate] (perfect or not) the glyph cells [_embed_42] placed
    in the coordinate set still hold [ALL_WALLS], and no history step has a
    glyph cell on either side. *)
Theorem pattern_cells_never_mutated (R : Random) (p : bool) (m m' : MazeGenerator (rstate R)) :
  0 < width m -> 0 < height m -> generate R p m = Some m' ->
  pattern_42_coords m' = pattern_cells pat_4 pat_2 (width m) (height m) /\
  (forall q, q ∈ pattern_42_coords m' -> get (grid m') q.1 q.2 = ALL_WALLS) /\
  (forall s, s ∈ history m' -> (parent s ∉ pattern_42_coords m') /\ child s ∉ pattern_42_coords m').
Proof.
  intros Hw Hh Hg. destruct (generate_run R p m Hw Hh) as (c & _ & Hinv & _ & Hg').
  rewrite Hg in Hg'. injection Hg' as ->.
  assert (Hrange : forall q, q ∈ pattern_cells pat_4 pat_2 (width m) (height m) ->
                     in_range (width m) (height m) q).
  { intros q Hq. apply pattern_cells_range in Hq. unfold in_range. lia. }
  destruct p.
  - cbn [pattern_42_coords grid history]. split; [reflexivity | split].
    + intros q Hq. exact (inv_pattern_walls _ _ _ _ _ Hinv q Hq (Hrange q Hq)).
    + exact (inv_hist_pattern _ _ _ _ _ Hinv).
  - cbv beta iota. match goal with |- context [make_imperfect R ?x] => set (m1 := x) end.
    destruct (make_imperfect_fields R m1 Hw Hh) as (_ & _ & Ep & _).
    destruct (make_imperfect_pattern R m1 Hw Hh (ci_wf _ _ _ _ _ Hinv) Hrange
      (fun q Hq => inv_pattern_walls _ _ _ _ _ Hinv q Hq (Hrange q Hq))
      (inv_hist_pattern _ _ _ _ _ Hinv)) as [H1 H2].
    split; [exact Ep | split; [exact H1 | exact H2]].
Qed.

(** ** Glyph placement *)

Lemma pattern_cells_small (w h : nat) :
  w < 7 + 2 \/ h < 5 + 2 -> pattern_cells pat_4 pat_2 w h = ∅.
Proof.
  unfold pattern_cells. intros H.
  destruct (bool_decide (w < 7 + 2)) eqn:Ew; [reflexivity |].
  apply bool_decide_eq_false in Ew. rewrite bool_decide_eq_true_2 by lia. reflexivity.
Qed.

Lemma pattern_cells_large (w h : nat) :
  7 + 2 <= w -> 5 + 2 <= h ->
  pattern_cells pat_4 pat_2 w h ≠ ∅ /\ glyph_centered w h (pattern_cells pat_4 pat_2 w h).
Proof.
  intros Hw Hh. unfold pattern_cells.
  rewrite (bool_decide_eq_false_2 (w < 7 + 2)), (bool_decide_eq_false_2 (h < 5 + 2)) by lia.
  cbn [orb].
  pose proof (Nat.div_mod (w - 7) 2 ltac:(lia)) as Dw; pose proof (Nat.mod_upper_bound (w - 7) 2 ltac:(lia)) as Mw.
  pose proof (Nat.div_mod (h - 5) 2 ltac:(lia)) as Dh; pose proof (Nat.mod_upper_bound (h - 5) 2 ltac:(lia)) as Mh.
  remember ((w - 7) / 2) as x0 eqn:Hx0. remember ((h - 5) / 2) as y0 eqn:Hy0.
  assert (Hc : (x0, y0) ∈ (list_to_set (map (shift x0 y0) pat_4 ++ map (shift (x0 + 4) y0) pat_2)
                           : gset coord)).
  { rewrite elem_of_list_to_set, elem_of_app. left. apply list_elem_of_fmap.
    exists (0, 0). split; [unfold shift; cbn [fst snd]; f_equal; lia | apply list_elem_of_In; simpl; tauto]. }
  split; [intros E; rewrite E in Hc; set_solver |].
  exists x0, y0. split; [exact Hc | split; [| split]].
  - rewrite elem_of_list_to_set, elem_of_app. right. apply list_elem_of_fmap.
    exists (2, 4). split; [unfold shift; cbn [fst snd]; f_equal; lia | apply list_elem_of_In; simpl; tauto].
  - assert (H4 : Forall (fun d : coord => d.1 <= 2 /\ d.2 <= 4) pat_4)
      by (repeat constructor; simpl; lia).
    assert (H2 : Forall (fun d : coord => d.1 <= 2 /\ d.2 <= 4) pat_2)
      by (repeat constructor; simpl; lia).
    rewrite Forall_forall in H4, H2.
    intros q. rewrite elem_of_list_to_set, elem_of_app, !list_elem_of_fmap.
    intros [(d & -> & Hd)|(d & -> & Hd)]; [apply H4 in Hd | apply H2 in Hd];
      unfold shift; cbn [fst snd]; lia.
  - lia.
Qed.

Lemma generate_pattern_fields (R : Random) (p : bool) (m m' : MazeGenerator (rstate R)) :
  0 < width m -> 0 < height m -> generate R p m = Some m' ->
  pattern_42_coords m' = pattern_cells pat_4 pat_2 (width m) (height m) /\
  pattern_42_failed m' = bool_decide (width m < 7 + 2) || bool_decide (height m < 5 + 2).
Proof.
  intros Hw Hh Hg. destruct (generate_run R p m Hw Hh) as (c & _ & _ & _ & Hg').
  rewrite Hg in Hg'. injection Hg' as ->. destruct p; [split; reflexivity |].
  cbv beta iota. match goal with |- context [make_imperfect R ?x] => set (m1 := x) end.
  destruct (make_imperfect_fields R m1 Hw Hh) as (_ & _ & -> & ->). split; reflexivity.
Qed.

(** C6: [generate] returns in every case.  When the glyph and its margin do
    not fit, the failure flag is set and the coordinate set is empty;
    otherwise the flag is clear and the set is non-empty and centred.  The set
    and the flag are the same for every random source, seed, flag [perfect]
    and generator of the same dimensions. *)
Theorem pattern_fit_contract (R : Random) (p : bool) (m : MazeGenerator (rstate R)) :
  0 < width m -> 0 < height m ->
  exists m', generate R p m = Some m' /\
  ((width m < 7 + 2 \/ height m < 5 + 2) ->
     pattern_42_failed m' = true /\ pattern_42_coords m' = ∅) /\
  (7 + 2 <= width m -> 5 + 2 <= height m ->
     pattern_42_failed m' = false /\ pattern_42_coords m' ≠ ∅ /\
     glyph_centered (width m) (height m) (pattern_42_coords m')) /\
  (forall (R2 : Random) (p2 : bool) (m2 m2' : MazeGenerator (rstate R2)),
     width m2 = width m -> height m2 = height m -> generate R2 p2 m2 = Some m2' ->
     pattern_42_coords m2' = pattern_42_coords m' /\ pattern_42_failed m2' = pattern_42_failed m').
Proof.
  intros Hw Hh.
  destruct (generate_run R p m Hw Hh) as (c & _ & _ & _ & Hg).
  eexists. split; [exact Hg |].
  destruct (generate_pattern_fields R p m _ Hw Hh Hg) as [Ec Ef]. rewrite Ec, Ef.
  split; [| split].
  - intros Hs. split; [| exact (pattern_cells_small _ _ Hs)].
    destruct Hs as [Hs|Hs]; rewrite (bool_decide_eq_true_2 _ Hs); [reflexivity | apply orb_true_r].
  - intros H1 H2. rewrite !bool_decide_eq_false_2 by lia. split; [reflexivity |].
    exact (pattern_cells_large _ _ H1 H2).
  - intros R2 p2 m2 m2' E1 E2 Hg2.
    destruct (generate_pattern_fields R2 p2 m2 m2') as [-> ->]; [lia | lia | exact Hg2 |].
    rewrite E1, E2. split; reflexivity.
Qed.

(** ** Number of walls the imperfection pass removes *)

Lemma imperfect_loop_count (R : Random) (fuel k count : nat) (m : MazeGenerator (rstate R)) :
  count <= k ->
  let r := imperfect_loop R fuel k count m in
  count <= r.1.2 <= k /\ (r.1.2 = k \/ r.2 = 0) /\
  length (history r.1.1) = length (history m) + (r.1.2 - count) /\
  take (length (history m)) (history r.1.1) = history m.
Proof.
  revert count m. induction fuel as [|f IH]; intros count m Hc r; subst r; cbn [imperfect_loop fst snd].
  { split; [lia | split; [right; reflexivity | split; [lia | apply take_ge; lia]]]. }
  case_bool_decide as Hlt.
  2: { cbn [fst snd]. split; [lia | split; [left; lia | split; [lia | apply take_ge; lia]]]. }
  destruct (randint R 0 (width m - 1) (rng m)) as [x s1].
  destruct (randint R 0 (height m - 1) s1) as [y s2].
  case_bool_decide; [exact (IH count (with_rng R m _) Hc) |].
  destruct (valid_walls (width m) (height m) (grid m) x y) as [|v vs]; [exact (IH count (with_rng R m _) Hc) |].
  destruct (choice R v vs s2) as [[[nx ny] d] s3].
  case_bool_decide; [exact (IH count (with_rng R m _) Hc) |].
  destruct (remove_wall (grid m) (history m) x y nx ny d false) as [g' r0]. cbv beta iota zeta.
  destruct (IH (S count) (mkGen (width m) (height m) s3 g'
      (history m ++ [((x, y, get g' x y), (nx, ny, get g' nx ny))])
      (pattern_42_coords m) (pattern_42_failed m)) ltac:(lia))
    as (Hb & Hk & Hl & Ht).
  cbn [history] in Hl, Ht. rewrite length_app in Hl, Ht. simpl in Hl, Ht.
  split; [lia | split; [exact Hk | split; [lia |]]].
  pose proof (take_app_length (history m) [((x, y, get g' x y), (nx, ny, get g' nx ny))]) as E.
  rewrite <- Ht, take_take, Nat.min_l in E by lia. exact E.
Qed.

(** C7: the pass stops with [count] removals, [count] at most
    [max(1, (3 * width * height) / 100)] and equal to it unless the 500
    attempts are used up; each removal appends one history step to the
    history it was given.  [generate perfect=False] is [generate
    perfect=True] followed by this pass. *)
Theorem imperfection_count (R : Random) (m : MazeGenerator (rstate R)) :
  (let '(m', count, attempts_left) := imperfect_loop R max_attempts (walls_to_break R m) 0 m in
   make_imperfect R m = m' /\
   walls_to_break R m = Nat.max 1 (width m * height m * 3 / 100) /\
   count <= walls_to_break R m /\ (count = walls_to_break R m \/ attempts_left = 0) /\
   length (history m') = length (history m) + count /\
   take (length (history m)) (history m') = history m) /\
  generate R false m = option_map (make_imperfect R) (generate R true m).
Proof.
  split.
  - pose proof (imperfect_loop_count R max_attempts (walls_to_break R m) 0 m ltac:(lia)) as H.
    unfold make_imperfect.
    destruct (imperfect_loop R max_attempts (walls_to_break R m) 0 m) as [[m' count] attempts_left].
    cbn [fst snd] in H |- *. destruct H as (Hb & Hk & Hl & Ht).
    split; [reflexivity | split; [reflexivity | split; [lia | split; [exact Hk | split; [lia | exact Ht]]]]].
  - unfold generate, generate_with.
    destruct (embed_42_with pat_4 pat_2 (width m) (height m) ({[(0, 0)]}, ∅, false)) as [[V C] f].
    destruct (carve_loop _ _ _ _ _); reflexivity.
Qed.

(** ** Determinism *)

Lemma pattern_cells_perm (it4 it2 : list coord) (w h : nat) :
  it4 ≡ₚ pat_4 -> it2 ≡ₚ pat_2 -> pattern_cells it4 it2 w h = pattern_cells pat_4 pat_2 w h.
Proof.
  intros H4 H2. unfold pattern_cells.
  destruct (bool_decide (w < 7 + 2) || bool_decide (h < 5 + 2)); [reflexivity |].
  apply set_eq. intros q. rewrite !elem_of_list_to_set, !elem_of_app, !list_elem_of_fmap.
  setoid_rewrite H4. setoid_rewrite H2. reflexivity.
Qed.

Lemma generate_with_perm (R : Random) (it4 it2 : list coord) (p : bool) (m : MazeGenerator (rstate R)) :
  it4 ≡ₚ pat_4 -> it2 ≡ₚ pat_2 -> generate_with R it4 it2 p m = generate R p m.
Proof.
  intros H4 H2. unfold generate. rewrite !generate_with_eq, pattern_cells_perm by assumption.
  reflexivity.
Qed.

(** C3: two generators built from the same seed and dimensions, run with
    the same flag [perfect], end with the same grid and history (indeed the
    same state), whatever order the glyph sets are iterated in. *)
Theorem generate_deterministic (R : Random) (w h : nat) (seed : Z) (p : bool)
    (it4 it2 it4' it2' : list coord) (m1 m2 : MazeGenerator (rstate R)) :
  it4 ≡ₚ pat_4 -> it2 ≡ₚ pat_2 -> it4' ≡ₚ pat_4 -> it2' ≡ₚ pat_2 ->
  new_generator R w h seed = Some m1 -> new_generator R w h seed = Some m2 ->
  exists m1' m2', generate_with R it4 it2 p m1 = Some m1' /\
    generate_with R it4' it2' p m2 = Some m2' /\
    grid m1' = grid m2' /\ history m1' = history m2' /\ m1' = m2'.
Proof.
  intros H4 H2 H4' H2' E1 E2. rewrite E1 in E2. injection E2 as <-.
  unfold new_generator in E1.
  destruct (bool_decide (w < 3)) eqn:Bw; [discriminate |].
  destruct (bool_decide (h < 3)) eqn:Bh; [discriminate |].
  apply bool_decide_eq_false in Bw, Bh. injection E1 as <-.
  rewrite !generate_with_perm by assumption.
  destruct (generate_run R p (mkGen w h (seeded R seed) (all_walls w h) [] ∅ false))
    as (c & _ & _ & _ & Hg); [simpl; lia | simpl; lia |].
  rewrite Hg. eexists _, _. split; [reflexivity | split; [reflexivity | split_and!; reflexivity]].
Qed.

(** ** The open-wall graph of a perfect maze *)

Lemma rtc_iff {A} (R1 R2 : A -> A -> Prop) :
  (forall x y, R1 x y <-> R2 x y) -> forall x y, rtc R1 x y <-> rtc R2 x y.
Proof.
  intros H x y. split; induction 1; [reflexivity | eapply rtc_l; [apply H; eauto | eauto]
                                   | reflexivity | eapply rtc_l; [apply H; eauto | eauto]].
Qed.

Lemma rtc_sym_rev {A} (E : A -> A -> Prop) :
  (forall x y, E x y -> E y x) -> forall x y, rtc E x y -> rtc E y x.
Proof.
  intros Hs x y. induction 1 as [|x z y Hxz _ IH]; [reflexivity |].
  eapply rtc_r; [exact IH | apply Hs; exact Hxz].
Qed.

Section Carved_tree.
Context (R : Random) (w h : nat) (C : gset coord) (c : Carver (rstate R)).
Hypothesis Hinv : carver_inv R w h C c.

Lemma inv_edge_adjacent (a b : coord) :
  (a, b) ∈ edges (cv_history c) -> exists d, adjacent_dir a b d.
Proof.
  intros Hab. apply list_elem_of_fmap in Hab as (s & Hs & Hin). injection Hs as -> ->.
  apply list_elem_of_lookup in Hin as (i & Hi).
  exact (proj2 (ci_parent _ _ _ _ _ Hinv i s Hi)).
Qed.

Lemma inv_linked_iff (p q : coord) :
  linked w h (cv_grid c) p q <-> tree_edge (edges (cv_history c)) p q.
Proof.
  split.
  - intros (Hp & D & Hadj & Hz).
    apply (ci_bits _ _ _ _ _ Hinv p D Hp (adjacent_is_dir _ _ _ Hadj)) in Hz as (q' & Hadj' & Hte).
    rewrite (adjacent_fun p q q' D Hadj Hadj'). exact Hte.
  - intros Hte.
    assert (Hp : in_range w h p)
      by exact (ci_in_range _ _ _ _ _ Hinv p (proj1 (inv_edge_carved _ _ _ _ _ Hinv p q Hte))).
    assert (HD : exists D, adjacent_dir p q D).
    { destruct Hte as [H|H]; apply inv_edge_adjacent in H as (d & Hd);
        [exists d; exact Hd | exists (opposite d); exact (adjacent_opposite _ _ _ Hd)]. }
    destruct HD as (D & Hadj). split; [exact Hp |]. exists D. split; [exact Hadj |].
    apply (ci_bits _ _ _ _ _ Hinv p D Hp (adjacent_is_dir _ _ _ Hadj)). exists q. auto.
Qed.

Lemma inv_es_parent (i : nat) (a b : coord) :
  edges (cv_history c) !! i = Some (a, b) ->
  carved (cv_history c) !! S i = Some b /\ a ∈ take (S i) (carved (cv_history c)).
Proof.
  intros Hi.
  assert (E : edges (cv_history c) !! i = (fun s => (parent s, child s)) <$> (cv_history c !! i))
    by apply list_lookup_fmap.
  rewrite E in Hi. destruct (cv_history c !! i) as [s|] eqn:Es; [| discriminate].
  injection Hi as <- <-. split.
  - change (carved (cv_history c) !! S i) with (map child (cv_history c) !! i).
    assert (E' : map child (cv_history c) !! i = child <$> (cv_history c !! i)) by apply list_lookup_fmap.
    rewrite E', Es. reflexivity.
  - exact (proj1 (ci_parent _ _ _ _ _ Hinv i s Es)).
Qed.

Lemma inv_order_length : length (carved (cv_history c)) = S (length (edges (cv_history c))).
Proof. unfold carved, edges. simpl. rewrite !length_map. reflexivity. Qed.

(** The hypotheses of [Parent_tree] for [carved] and [edges]. *)
Local Ltac tree_hyps :=
  first [ exact (ci_nodup _ _ _ _ _ Hinv) | exact inv_order_length | exact inv_es_parent
        | reflexivity ].

Lemma inv_reachable (q : coord) : reachable w h (cv_grid c) q <-> q ∈ carved (cv_history c).
Proof.
  unfold reachable. rewrite (rtc_iff _ _ inv_linked_iff).
  apply (tree_reachable (carved (cv_history c)) (edges (cv_history c))); tree_hyps.
Qed.

Lemma inv_linked_sym (p q : coord) : linked w h (cv_grid c) p q -> linked w h (cv_grid c) q p.
Proof. rewrite !inv_linked_iff. apply tree_edge_sym. Qed.

Lemma inv_linked_rank (p q : coord) :
  linked w h (cv_grid c) p q -> index_of p (carved (cv_history c)) <> index_of q (carved (cv_history c)).
Proof.
  rewrite inv_linked_iff. apply (tree_edge_rank (carved (cv_history c)) (edges (cv_history c)));
    tree_hyps.
Qed.

Lemma inv_linked_lower_unique (v u1 u2 : coord) :
  linked w h (cv_grid c) v u1 -> linked w h (cv_grid c) v u2 ->
  index_of u1 (carved (cv_history c)) < index_of v (carved (cv_history c)) ->
  index_of u2 (carved (cv_history c)) < index_of v (carved (cv_history c)) -> u1 = u2.
Proof.
  rewrite !inv_linked_iff. apply (tree_lower_unique (carved (cv_history c)) (edges (cv_history c)));
    tree_hyps.
Qed.

End Carved_tree.

(** C1: after [generate(perfect=True)], the cells reachable from [(0, 0)]
    through open walls are in the grid and are not glyph cells; between two
    of them there is a simple path of open walls, and only one; no simple
    cycle of three or more cells is closed by an open wall; the open walls
    are exactly the walls of the history steps, which number one less than
    the reachable cells. *)
Theorem perfect_maze_spanning_tree (R : Random) (m m' : MazeGenerator (rstate R)) :
  3 <= width m -> 3 <= height m -> generate R true m = Some m' ->
  let w := width m in let h := height m in let g := grid m' in
  (forall q, reachable w h g q -> in_range w h q /\ q ∉ pattern_42_coords m') /\
  (forall a b, reachable w h g a -> reachable w h g b ->
     exists l, simple_path (linked w h g) l a b) /\
  (forall l1 l2 a b, simple_path (linked w h g) l1 a b ->
     simple_path (linked w h g) l2 a b -> l1 = l2) /\
  (forall v0 v1 v2 t z, simple_path (linked w h g) (v0 :: v1 :: v2 :: t) v0 z ->
     ~ linked w h g z v0) /\
  (forall p q, linked w h g p q -> linked w h g q p) /\
  exists cells removed,
    NoDup cells /\ (forall q, q ∈ cells <-> reachable w h g q) /\
    NoDup removed /\ (forall p q, linked w h g p q <-> (p, q) ∈ removed \/ (q, p) ∈ removed) /\
    (forall p q, (p, q) ∈ removed -> (q, p) ∉ removed) /\
    length removed = length cells - 1 /\ length (history m') = length removed.
Proof.
  intros Hw Hh Hg w h g.
  destruct (generate_run R true m ltac:(lia) ltac:(lia)) as (c & _ & Hinv & _ & Hg').
  rewrite Hg in Hg'. injection Hg' as ->. subst w h g. cbn [grid history pattern_42_coords].
  set (C := pattern_cells pat_4 pat_2 (width m) (height m)) in *.
  pose proof (inv_reachable _ _ _ _ _ Hinv) as HR.
  pose proof (inv_linked_sym _ _ _ _ _ Hinv) as Hsym.
  split; [| split; [| split; [| split; [| split]]]].
  - intros q Hq. apply HR in Hq. split.
    + exact (ci_in_range _ _ _ _ _ Hinv q Hq).
    + intros HC. exact (ci_pattern _ _ _ _ _ Hinv q HC Hq).
  - intros a b Ha Hb.
    assert (Hab : rtc (linked (width m) (height m) (cv_grid c)) a b).
    { eapply rtc_trans; [apply rtc_sym_rev; [exact Hsym | exact Ha] | exact Hb]. }
    destruct (rtc_walk _ _ _ Hab) as (l & Hw' & Hh' & Hl).
    exact (walk_to_simple _ l a b Hw' Hh' Hl).
  - intros l1 l2 a b H1 H2.
    eapply (simple_path_unique (linked (width m) (height m) (cv_grid c))
              (fun u => index_of u (carved (cv_history c)))); eauto.
    + exact (inv_linked_rank _ _ _ _ _ Hinv).
    + exact (inv_linked_lower_unique _ _ _ _ _ Hinv).
  - intros v0 v1 v2 t z Hp.
    eapply (no_simple_cycle (linked (width m) (height m) (cv_grid c))
              (fun u => index_of u (carved (cv_history c)))); eauto.
    + exact (inv_linked_rank _ _ _ _ _ Hinv).
    + exact (inv_linked_lower_unique _ _ _ _ _ Hinv).
  - exact Hsym.
  - exists (carved (cv_history c)), (edges (cv_history c)).
    pose proof (inv_order_length R c) as Hlen.
    split; [exact (ci_nodup _ _ _ _ _ Hinv) | split; [intros q; rewrite HR; reflexivity | split]].
    + apply (tree_es_nodup (carved (cv_history c)));
        first [exact (ci_nodup _ _ _ _ _ Hinv) | exact Hlen | exact (inv_es_parent _ _ _ _ _ Hinv)].
    + split; [intros p q; exact (inv_linked_iff _ _ _ _ _ Hinv p q) | split].
      * intros p q. apply (tree_es_oriented (carved (cv_history c)));
          first [exact (ci_nodup _ _ _ _ _ Hinv) | exact Hlen | exact (inv_es_parent _ _ _ _ _ Hinv)].
      * split; [lia | unfold edges; rewrite length_map; reflexivity].
Qed.

(** ** Boundary walls and reachability of [generate] *)

Lemma border_closed_removal : removal_closed border_closed.
Proof.
  intros w h g hist x1 y1 x2 y2 d r Hwf Hx1 Hy1 Hx2 Hy2 Hadj Hb x y Hx Hy.
  destruct (Hb x y Hx Hy) as (HN & HS & HW & HE). clear Hb.
  rewrite !(remove_wall_get w h g hist x1 y1 x2 y2 d r x y) by auto.
  removal_cases Hadj;
    repeat split; intros; first [ lia | auto | discriminate ].
Qed.

Lemma pattern_cells_mem (w h x y : nat) :
  7 + 2 <= w -> 5 + 2 <= h ->
  (x, y) ∈ pattern_cells pat_4 pat_2 w h <->
  (w - 7) / 2 <= x /\ (h - 5) / 2 <= y /\ (x - (w - 7) / 2, y - (h - 5) / 2) ∈ glyph_offsets.
Proof.
  intros Hw Hh. unfold pattern_cells, glyph_offsets.
  rewrite (bool_decide_eq_false_2 (w < 7 + 2)), (bool_decide_eq_false_2 (h < 5 + 2)) by lia.
  cbn [orb]. rewrite elem_of_list_to_set, !elem_of_app, !list_elem_of_fmap.
  set (ox := (w - 7) / 2). set (oy := (h - 5) / 2). split.
  - intros [([dx dy] & E & Hd) | ([dx dy] & E & Hd)]; unfold shift in E; cbn [fst snd] in E;
      injection E as -> ->; (split; [lia | split; [lia |]]).
    + left. replace (ox + dx - ox) with dx by lia. replace (oy + dy - oy) with dy by lia. exact Hd.
    + right. exists (dx, dy). split; [unfold shift; cbn [fst snd]; f_equal; lia | exact Hd].
  - intros (Hx & Hy & [Hd | ([dx dy] & E & Hd)]).
    + left. exists (x - ox, y - oy). split; [unfold shift; cbn [fst snd]; f_equal; lia | exact Hd].
    + right. unfold shift in E; cbn [fst snd] in E. injection E as E1 E2.
      exists (dx, dy). split; [unfold shift; cbn [fst snd]; f_equal; lia | exact Hd].
Qed.

Lemma glyph_offsets_box (d : coord) : d ∈ glyph_offsets -> d.1 <= 6 /\ d.2 <= 4.
Proof.
  intros Hd. apply list_elem_of_In in Hd. unfold glyph_offsets in Hd. simpl in Hd.
  repeat destruct Hd as [<- | Hd]; simpl; try lia; contradiction.
Qed.

Section Free_paths.
Context (w h : nat) (C : gset coord).

Lemma free_adj_sym (p q : coord) : free_adj w h C p q -> free_adj w h C q p.
Proof.
  intros (Hp & Hq & Hp' & Hq' & D & Hd).
  split; [exact Hq | split; [exact Hp | split; [exact Hq' | split; [exact Hp' |]]]].
  exists (opposite D). exact (adjacent_opposite _ _ _ Hd).
Qed.

Lemma row_segment (x y k : nat) :
  (forall i, x <= i <= x + k -> i < w /\ y < h /\ (i, y) ∉ C) ->
  rtc (free_adj w h C) (x, y) (x + k, y).
Proof.
  induction k as [|k IH]; intros Hf.
  - rewrite Nat.add_0_r. reflexivity.
  - eapply rtc_r; [apply IH; intros i Hi; apply Hf; lia |].
    destruct (Hf (x + k) ltac:(lia)) as (H1 & H2 & H3).
    destruct (Hf (x + S k) ltac:(lia)) as (H4 & H5 & H6).
    split; [split; simpl; auto | split; [split; simpl; auto | split; [exact H3 | split; [exact H6 |]]]].
    exists EAST. unfold adjacent_dir. simpl. right; right; left. split; [reflexivity | lia].
Qed.

Lemma col_segment (x y k : nat) :
  (forall j, y <= j <= y + k -> x < w /\ j < h /\ (x, j) ∉ C) ->
  rtc (free_adj w h C) (x, y) (x, y + k).
Proof.
  induction k as [|k IH]; intros Hf.
  - rewrite Nat.add_0_r. reflexivity.
  - eapply rtc_r; [apply IH; intros j Hj; apply Hf; lia |].
    destruct (Hf (y + k) ltac:(lia)) as (H1 & H2 & H3).
    destruct (Hf (y + S k) ltac:(lia)) as (H4 & H5 & H6).
    split; [split; simpl; auto | split; [split; simpl; auto | split; [exact H3 | split; [exact H6 |]]]].
    exists SOUTH. unfold adjacent_dir. simpl. right; left. split; [reflexivity | lia].
Qed.

Hypothesis C_inner : forall p, p ∈ C -> 1 <= p.1 /\ p.1 + 1 < w /\ 1 <= p.2 /\ p.2 + 1 < h.

Lemma route_col (x y : nat) :
  x < w -> y < h -> (forall j, j <= y -> (x, j) ∉ C) ->
  rtc (free_adj w h C) (0, 0) (x, y).
Proof.
  intros Hx Hy Hc. eapply rtc_trans.
  - apply (row_segment 0 0 x). intros i Hi. split; [lia | split; [lia |]].
    intros HC. apply C_inner in HC. simpl in HC. lia.
  - change (0 + x, 0) with (x, 0 + 0). rewrite Nat.add_0_l.
    apply (col_segment x 0 y). intros j Hj. split; [lia | split; [lia | apply Hc; lia]].
Qed.

Lemma route_row_left (x y : nat) :
  x < w -> y < h -> (forall i, i <= x -> (i, y) ∉ C) ->
  rtc (free_adj w h C) (0, 0) (x, y).
Proof.
  intros Hx Hy Hc. eapply rtc_trans.
  - apply (col_segment 0 0 y). intros j Hj. split; [lia | split; [lia |]].
    intros HC. apply C_inner in HC. simpl in HC. lia.
  - simpl. apply (row_segment 0 y x). intros i Hi. split; [lia | split; [lia | apply Hc; lia]].
Qed.

Lemma route_row_right (x y : nat) :
  x < w -> y < h -> (forall i, x <= i < w -> (i, y) ∉ C) ->
  rtc (free_adj w h C) (0, 0) (x, y).
Proof.
  intros Hx Hy Hc. eapply rtc_trans; [| eapply rtc_trans].
  - apply (row_segment 0 0 (w - 1)). intros i Hi. split; [lia | split; [lia |]].
    intros HC. apply C_inner in HC. simpl in HC. lia.
  - simpl. apply (col_segment (w - 1) 0 y). intros j Hj. split; [lia | split; [lia |]].
    intros HC. apply C_inner in HC. simpl in HC. lia.
  - simpl. apply rtc_sym_rev; [exact free_adj_sym |].
    replace (w - 1) with (x + (w - 1 - x)) by lia.
    apply (row_segment x y (w - 1 - x)). intros i Hi. split; [lia | split; [lia | apply Hc; lia]].
Qed.

End Free_paths.

Lemma pattern_cells_connected (w h : nat) (q : coord) :
  in_range w h q -> q ∉ pattern_cells pat_4 pat_2 w h ->
  rtc (free_adj w h (pattern_cells pat_4 pat_2 w h)) (0, 0) q.
Proof.
  destruct q as [x y]. intros [Hx Hy] Hq. cbn [fst snd] in Hx, Hy.
  set (P := pattern_cells pat_4 pat_2 w h) in *.
  assert (Hin : forall p, p ∈ P -> 1 <= p.1 /\ p.1 + 1 < w /\ 1 <= p.2 /\ p.2 + 1 < h)
    by apply pattern_cells_range.
  destruct (decide (w < 7 + 2 \/ h < 5 + 2)) as [Hs | Hl].
  - apply route_row_left; auto. intros i _. unfold P. rewrite pattern_cells_small by exact Hs.
    apply not_elem_of_empty.
  - assert (Hw : 7 + 2 <= w) by lia. assert (Hh : 5 + 2 <= h) by lia.
    set (ox := (w - 7) / 2) in *. set (oy := (h - 5) / 2) in *.
    assert (Hmem : forall a b, (a, b) ∈ P <-> ox <= a /\ oy <= b /\ (a - ox, b - oy) ∈ glyph_offsets)
      by (intros a b; apply pattern_cells_mem; auto).
    assert (Hout : forall a b, a < ox \/ ox + 6 < a \/ b < oy \/ oy + 4 < b -> (a, b) ∉ P).
    { intros a b Hab HP. apply Hmem in HP as (H1 & H2 & H3). apply glyph_offsets_box in H3.
      simpl in H3. lia. }
    destruct (decide (y < oy \/ oy + 4 < y)) as [Hy' | Hy'].
    { apply route_row_left; [exact Hin | lia | lia |]. intros i _. apply Hout. lia. }
    destruct (decide (x < ox \/ ox + 6 < x)) as [Hx' | Hx'].
    { apply route_col; [exact Hin | lia | lia |]. intros j _. apply Hout. lia. }
    (* inside the glyph's box *)
    assert (Hbox : ox + 7 < w /\ oy + 5 < h).
    { pose proof (Nat.div_mod (w - 7) 2 ltac:(lia)). pose proof (Nat.mod_upper_bound (w - 7) 2 ltac:(lia)).
      pose proof (Nat.div_mod (h - 5) 2 ltac:(lia)). pose proof (Nat.mod_upper_bound (h - 5) 2 ltac:(lia)).
      unfold ox, oy. lia. }
    assert (H31 : rtc (free_adj w h P) (0, 0) (ox + 3, oy + 1)).
    { apply route_col; [exact Hin | lia | lia |]. intros j' Hj' HP.
      apply Hmem in HP as (_ & H2 & H3). replace (ox + 3 - ox) with 3 in H3 by lia.
      assert (E : j' - oy = 0 \/ j' - oy = 1) by lia.
      destruct E as [E|E]; rewrite E in H3; revert H3; compute_done. }
    assert (Hcol : forall i j, x = ox + i -> y = oy + j ->
              Forall (fun k => (i, k) ∉ glyph_offsets) (seq 0 (S j)) ->
              rtc (free_adj w h P) (0, 0) (x, y)).
    { intros i j -> -> Hf. apply route_col; [exact Hin | lia | lia |]. intros j' Hj' HP.
      apply Hmem in HP as (_ & H2 & H3). rewrite Forall_seq in Hf.
      apply (Hf (j' - oy)); [lia |]. replace i with (ox + i - ox) by lia. exact H3. }
    assert (Hleft : forall i j, x = ox + i -> y = oy + j ->
              Forall (fun k => (k, j) ∉ glyph_offsets) (seq 0 (S i)) ->
              rtc (free_adj w h P) (0, 0) (x, y)).
    { intros i j -> -> Hf. apply route_row_left; [exact Hin | lia | lia |]. intros i' Hi' HP.
      apply Hmem in HP as (H1 & _ & H3). rewrite Forall_seq in Hf.
      apply (Hf (i' - ox)); [lia |]. replace j with (oy + j - oy) by lia. exact H3. }
    assert (Hright : forall i j, x = ox + i -> y = oy + j ->
              Forall (fun k => (k, j) ∉ glyph_offsets) (seq i (7 - i)) ->
              rtc (free_adj w h P) (0, 0) (x, y)).
    { intros i j -> -> Hf. apply route_row_right; [exact Hin | lia | lia |]. intros i' Hi' HP.
      apply Hmem in HP as (H1 & _ & H3). pose proof (glyph_offsets_box _ H3) as Hb.
      simpl in Hb. rewrite Forall_seq in Hf.
      apply (Hf (i' - ox)); [lia |]. replace j with (oy + j - oy) by lia. exact H3. }
    assert (Hrel : (x - ox, y - oy) ∉ glyph_offsets).
    { intros Hg. apply Hq, Hmem. split; [lia | split; [lia | exact Hg]]. }
    assert (Hstep : forall a b, rtc (free_adj w h P) (0, 0) (a, b) -> a + 1 < w -> b < h ->
              (a, b) ∉ P -> (a + 1, b) ∉ P -> rtc (free_adj w h P) (0, 0) (a + 1, b)).
    { intros a b Hr Ha Hb Hab Hab'. eapply rtc_r; [exact Hr |].
      split; [split; simpl; lia | split; [split; simpl; lia | split; [exact Hab | split; [exact Hab' |]]]].
      exists EAST. unfold adjacent_dir. simpl. right; right; left. split; [reflexivity | lia]. }
    assert (Hnot : forall i j, (i, j) ∉ glyph_offsets -> (ox + i, oy + j) ∉ P).
    { intros i j Hg HP. apply Hmem in HP as (_ & _ & H3).
      replace (ox + i - ox) with i in H3 by lia. replace (oy + j - oy) with j in H3 by lia.
      exact (Hg H3). }
    remember (x - ox) as i eqn:Ei. remember (y - oy) as j eqn:Ej.
    assert (Ex : x = ox + i) by lia. assert (Ey : y = oy + j) by lia.
    assert (Hi : i < 7) by lia. assert (Hj : j < 5) by lia.
    clear Ei Ej Hx' Hy'.
    destruct i as [|[|[|[|[|[|[|i]]]]]]]; try lia;
      destruct j as [|[|[|[|[|j]]]]]; try lia;
      first
        [ exfalso; apply Hrel; compute_done
        | apply (Hcol _ _ Ex Ey); compute_done
        | apply (Hleft _ _ Ex Ey); compute_done
        | apply (Hright _ _ Ex Ey); compute_done
        | idtac ].
    + (* (4, 1): one step east of (3, 1) *)
      subst x y. replace (ox + 4) with (ox + 3 + 1) by lia.
      apply Hstep; [exact H31 | lia | lia | apply Hnot; compute_done |].
      replace (ox + 3 + 1) with (ox + 4) by lia. apply Hnot; compute_done.
    + (* (5, 1): two steps east of (3, 1) *)
      subst x y. replace (ox + 5) with (ox + 3 + 1 + 1) by lia.
      apply Hstep; [apply Hstep; [exact H31 | lia | lia | apply Hnot; compute_done |] | lia | lia | |];
        [replace (ox + 3 + 1) with (ox + 4) by lia; apply Hnot; compute_done
        | replace (ox + 3 + 1) with (ox + 4) by lia; apply Hnot; compute_done
        | replace (ox + 3 + 1 + 1) with (ox + 5) by lia; apply Hnot; compute_done].
Qed.

Lemma border_closed_all_walls (w h : nat) : border_closed w h (all_walls w h).
Proof.
  intros x y Hx Hy. rewrite get_all_walls by auto. repeat split; intros _; discriminate.
Qed.

Lemma removal_closed_and (Q1 Q2 : nat -> nat -> list (list Z) -> Prop) :
  removal_closed Q1 -> removal_closed Q2 -> removal_closed (fun w h g => Q1 w h g /\ Q2 w h g).
Proof.
  intros H1 H2 w h g hist x1 y1 x2 y2 d r ? ? ? ? ? Hadj [Hq1 Hq2].
  split; [eapply H1 | eapply H2]; eauto.
Qed.

Lemma land_clear_keeps_zero (v e D : Z) :
  Z.land v D = 0%Z -> Z.land (Z.land v (Z.lnot e)) D = 0%Z.
Proof.
  intros H. rewrite <- Z.land_assoc, (Z.land_comm (Z.lnot e) D), Z.land_assoc, H.
  apply Z.land_0_l.
Qed.

Lemma make_imperfect_linked (R : Random) (m : MazeGenerator (rstate R)) (p q : coord) :
  0 < width m -> 0 < height m -> wf_grid (width m) (height m) (grid m) ->
  linked (width m) (height m) (grid m) p q ->
  linked (width m) (height m) (grid (make_imperfect R m)) p q.
Proof.
  intros Hw Hh Hwf Hl. unfold make_imperfect.
  apply (imperfect_loop_invariant R (fun m' =>
    width m' = width m /\ height m' = height m /\
    wf_grid (width m) (height m) (grid m') /\ linked (width m) (height m) (grid m') p q)); auto.
  intros m' x y nx ny d s (Ew & Eh & Hwf' & Hp & D & Hadj & Hz) Hx Hy _ Hin _.
  apply valid_walls_spec in Hin as (Hadj' & _ & Hrg).
  rewrite Ew, Eh in *. destruct (Hrg Hy Hx) as [Hnx Hny].
  unfold imperfect_update; cbn [width height grid history].
  split; [auto | split; [auto | split; [by apply remove_wall_wf |]]].
  split; [exact Hp |]. exists D. split; [exact Hadj |].
  rewrite (remove_wall_get (width m) (height m)) by auto.
  destruct p as [px py]; cbn [fst snd] in *.
  repeat case_decide;
    repeat match goal with Hc : _ = _ /\ _ = _ |- _ => destruct Hc; subst end;
    auto using land_clear_keeps_zero.
Qed.

Lemma walls_symmetric_dir (w h : nat) (g : list (list Z)) (p q : coord) (D : Z) :
  walls_symmetric w h g -> in_range w h p -> in_range w h q -> adjacent_dir p q D ->
  (Z.land (get g p.1 p.2) D =? 0)%Z = (Z.land (get g q.1 q.2) (opposite D) =? 0)%Z.
Proof.
  intros Hs [Hpx Hpy] [Hqx Hqy] Hadj. destruct p as [px py], q as [qx qy]; cbn [fst snd] in *.
  destruct opposite_values as (O1 & O2 & O3 & O4).
  unfold adjacent_dir in Hadj; cbn [fst snd] in Hadj.
  destruct Hadj as [(-> & E1 & E2)|[(-> & E1 & E2)|[(-> & E1 & E2)|(-> & E1 & E2)]]];
    rewrite ?O1, ?O2, ?O3, ?O4.
  - subst qx. rewrite <- E2. symmetry. apply (proj2 (Hs px qy)); lia.
  - subst qx qy. apply (proj2 (Hs px py)); lia.
  - subst qx qy. apply (proj1 (Hs px py)); lia.
  - subst qy. rewrite <- E1. symmetry. apply (proj1 (Hs qx py)); lia.
Qed.

Lemma border_closed_dir (w h : nat) (g : list (list Z)) (p q : coord) (D : Z) :
  border_closed w h g -> in_range w h p -> adjacent_dir p q D ->
  Z.land (get g p.1 p.2) D = 0%Z -> in_range w h q.
Proof.
  intros Hb [Hpx Hpy] Hadj Hz. destruct p as [px py], q as [qx qy]; unfold in_range; cbn [fst snd] in *.
  destruct (Hb px py Hpx Hpy) as (_ & HS & _ & HE).
  unfold adjacent_dir in Hadj; cbn [fst snd] in Hadj.
  destruct (decide (py + 1 = h)) as [Ey|Ey]; destruct (decide (px + 1 = w)) as [Ex|Ex];
  destruct Hadj as [(-> & E1 & E2)|[(-> & E1 & E2)|[(-> & E1 & E2)|(-> & E1 & E2)]]];
    try lia; exfalso; first [exact (HS Ey Hz) | exact (HE Ex Hz)].
Qed.

(** A cell reached through open walls from [(0, 0)] is in the grid and is
    not in [C], when the border is closed, the walls are symmetric and the
    cells of [C] keep all their walls. *)
Lemma reachable_free (w h : nat) (g : list (list Z)) (C : gset coord) (q : coord) :
  0 < w -> 0 < h -> border_closed w h g -> walls_symmetric w h g -> (0, 0) ∉ C ->
  (forall c, c ∈ C -> in_range w h c -> get g c.1 c.2 = ALL_WALLS) ->
  reachable w h g q -> in_range w h q /\ q ∉ C.
Proof.
  intros Hw Hh Hb Hs H0 HC Hr. unfold reachable in Hr.
  revert q Hr. apply rtc_ind_r.
  - split; [unfold in_range; simpl; lia | exact H0].
  - intros p q _ (_ & D & Hadj & Hz) [Hp HpC].
    assert (Hq : in_range w h q) by exact (border_closed_dir w h g p q D Hb Hp Hadj Hz).
    split; [exact Hq |]. intros HqC.
    pose proof (walls_symmetric_dir w h g p q D Hs Hp Hq Hadj) as E.
    rewrite Hz, (HC q HqC Hq) in E.
    pose proof (opposite_dir D (adjacent_is_dir _ _ _ Hadj)) as Ho.
    unfold is_dir, NORTH, SOUTH, EAST, WEST in Ho.
    destruct Ho as [Ho | [Ho | [Ho | Ho]]]; rewrite Ho in E; vm_compute in E; discriminate E.
Qed.

(** Every grid cell outside [C] is carved when the carving loop has ended. *)
Lemma carved_all_free (R : Random) (w h : nat) (c : Carver (rstate R)) (q : coord) :
  carver_inv R w h (pattern_cells pat_4 pat_2 w h) c -> cv_stack c = [] ->
  in_range w h q -> q ∉ pattern_cells pat_4 pat_2 w h -> q ∈ carved (cv_history c).
Proof.
  intros Hinv Hs Hq HqC.
  pose proof (pattern_cells_connected w h q Hq HqC) as Hr. clear Hq HqC.
  revert q Hr. apply rtc_ind_r; [left |]. intros p q' _ Hpq IH.
  destruct Hpq as (_ & Hq' & _ & Hq'C & D & Hadj).
  assert (Hv : q' ∈ cv_visited c).
  { apply (ci_closed _ _ _ _ _ Hinv p q' D IH); [rewrite Hs; apply not_elem_of_nil | exact Hadj | exact Hq']. }
  apply (ci_visited _ _ _ _ _ Hinv) in Hv as [Hv|Hv]; [contradiction | exact Hv].
Qed.

Lemma generate_walls_facts (R : Random) (p : bool) (m m' : MazeGenerator (rstate R)) :
  0 < width m -> 0 < height m -> generate R p m = Some m' ->
  border_closed (width m) (height m) (grid m') /\ walls_symmetric (width m) (height m) (grid m').
Proof.
  intros Hw Hh Hg.
  destruct (generate_grid R (fun w h g => border_closed w h g /\ walls_symmetric w h g)
              pat_4 pat_2 p m m' (removal_closed_and _ _ border_closed_removal walls_symmetric_removal)
              Hw Hh (conj (border_closed_all_walls _ _) (walls_symmetric_all_walls _ _)) Hg)
    as (_ & _ & _ & H). exact H.
Qed.

(** X1: after [generate] (perfect or not) on a grid of any size, a cell is
    reachable from [(0, 0)] through open walls exactly when it is in the
    grid and is not a glyph cell: every non-glyph cell is connected to the
    start, and no path leaves the grid or enters the glyph. *)
Theorem generate_reachable_exactly (R : Random) (p : bool) (m m' : MazeGenerator (rstate R)) :
  0 < width m -> 0 < height m -> generate R p m = Some m' ->
  forall q, reachable (width m) (height m) (grid m') q <->
            in_range (width m) (height m) q /\ q ∉ pattern_42_coords m'.
Proof.
  intros Hw Hh Hg.
  destruct (generate_walls_facts R p m m' Hw Hh Hg) as [Hb Hs].
  destruct (generate_run R p m Hw Hh) as (c & _ & Hinv & Hst & Hg').
  rewrite Hg in Hg'. injection Hg' as ->.
  set (C := pattern_cells pat_4 pat_2 (width m) (height m)) in *.
  assert (H0 : (0, 0) ∉ C) by (intros H; apply pattern_cells_range in H; simpl in H; lia).
  assert (Hrange : forall q, q ∈ C -> in_range (width m) (height m) q)
    by (intros q Hq; apply pattern_cells_range in Hq; unfold in_range; lia).
  assert (Hcarved : forall q, in_range (width m) (height m) q -> q ∉ C ->
            reachable (width m) (height m) (cv_grid c) q).
  { intros q Hq HqC. apply (inv_reachable _ _ _ _ _ Hinv). exact (carved_all_free R _ _ c q Hinv Hst Hq HqC). }
  destruct p.
  - cbn [grid pattern_42_coords] in *. intros q. split.
    + intros Hr. apply (reachable_free _ _ _ C q Hw Hh Hb Hs H0); [| exact Hr].
      intros q' Hq' _. exact (inv_pattern_walls _ _ _ _ _ Hinv q' Hq' (Hrange q' Hq')).
    + intros [Hq HqC]. exact (Hcarved q Hq HqC).
  - cbv beta iota in *. match goal with |- context [make_imperfect R ?x] => set (m1 := x) in * end.
    destruct (make_imperfect_fields R m1 Hw Hh) as (_ & _ & Ep & _).
    destruct (make_imperfect_pattern R m1 Hw Hh (ci_wf _ _ _ _ _ Hinv) Hrange
      (fun q Hq => inv_pattern_walls _ _ _ _ _ Hinv q Hq (Hrange q Hq))
      (inv_hist_pattern _ _ _ _ _ Hinv)) as [Hpw _].
    rewrite Ep in Hpw |- *. cbn [pattern_42_coords m1] in *. intros q. split.
    + intros Hr. apply (reachable_free _ _ _ C q Hw Hh Hb Hs H0); [| exact Hr].
      intros q' Hq' _. exact (Hpw q' Hq').
    + intros [Hq HqC]. pose proof (Hcarved q Hq HqC) as Hr. unfold reachable in Hr |- *.
      clear Hq HqC. revert q Hr. apply rtc_ind_r; [reflexivity |].
      intros a b _ Hab IH. eapply rtc_r; [exact IH |].
      exact (make_imperfect_linked R m1 a b Hw Hh (ci_wf _ _ _ _ _ Hinv) Hab).
Qed.

(** X2: the outer boundary walls are never removed: after the constructor and
    any sequence of [generate] / [make_imperfect] calls, the top row keeps
    its NORTH walls, the bottom row its SOUTH walls, the left column its
    WEST walls and the right column its EAST walls. *)
Theorem border_walls_kept (R : Random) (w h : nat) (seed : Z) (ops : list op)
    (m0 m : MazeGenerator (rstate R)) :
  new_generator R w h seed = Some m0 -> run_ops R ops m0 = Some m ->
  border_closed w h (grid m).
Proof.
  unfold new_generator. intros Hn Hr.
  destruct (bool_decide (w < 3) || bool_decide (h < 3)) eqn:Hb; [discriminate |].
  apply orb_false_iff in Hb as [Hw Hh]. apply bool_decide_eq_false in Hw, Hh.
  injection Hn as <-.
  destruct (run_ops_grid R border_closed ops (mkGen w h (seeded R seed) (all_walls w h) [] ∅ false) m
              border_closed_removal border_closed_all_walls) as (_ & _ & _ & H); simpl; auto; try lia.
  - apply wf_all_walls.
  - apply border_closed_all_walls.
Qed.

(** ** Candidate lists and wall removal *)

Lemma valid_walls_complete (w h : nat) (g : list (list Z)) (x y qx qy : nat) (D : Z) :
  adjacent_dir (x, y) (qx, qy) D -> in_range w h (qx, qy) -> Z.land (get g x y) D <> 0%Z ->
  (qx, qy, D) ∈ valid_walls w h g x y.
Proof.
  unfold adjacent_dir, in_range, valid_walls; cbn [fst snd].
  intros Hadj [Hx Hy] Hv. apply Z.eqb_neq in Hv.
  destruct Hadj as [(-> & -> & <-)|[(-> & -> & ->)|[(-> & -> & ->)|(-> & <- & ->)]]];
    rewrite !elem_of_app; rewrite Hv; cbn [negb].
  - left. rewrite bool_decide_eq_true_2 by lia.
    replace (qy + 1 - 1) with qy by lia. left.
  - right; left. rewrite bool_decide_eq_true_2 by lia. left.
  - right; right; left. rewrite bool_decide_eq_true_2 by lia. left.
  - right; right; right. rewrite bool_decide_eq_true_2 by lia.
    replace (qx + 1 - 1) with qx by lia. left.
Qed.

Lemma nodup_four {A} (c1 c2 c3 c4 : bool) (a1 a2 a3 a4 : A) :
  (c1 = true -> c2 = true -> a1 <> a2) -> (c1 = true -> c3 = true -> a1 <> a3) ->
  (c1 = true -> c4 = true -> a1 <> a4) -> (c2 = true -> c3 = true -> a2 <> a3) ->
  (c2 = true -> c4 = true -> a2 <> a4) -> (c3 = true -> c4 = true -> a3 <> a4) ->
  NoDup ((if c1 then [a1] else []) ++ (if c2 then [a2] else []) ++
         (if c3 then [a3] else []) ++ (if c4 then [a4] else [])).
Proof.
  intros H12 H13 H14 H23 H24 H34.
  destruct c1, c2, c3, c4; simpl;
    repeat match goal with H : true = true -> _ |- _ => specialize (H eq_refl) end;
    repeat (apply NoDup_cons_2; [intros Hm; rewrite ?elem_of_cons, ?elem_of_nil in Hm; repeat match goal with H : _ \/ _ |- _ => destruct H end; try contradiction; subst; try congruence |]);
    apply NoDup_nil_2.
Qed.

(** X3: [_get_unvisited_neighbors] at a cell of the grid lists, without
    repetition, exactly the triples [(nx, ny, direction)] where [(nx, ny)] is
    the neighbour of the cell in [direction], lies in the grid and is not in
    [visited]. *)
Theorem unvisited_neighbors_exact (w h x y : nat) (V : gset coord) :
  x < w -> y < h ->
  NoDup (get_unvisited_neighbors w h x y V) /\
  forall nx ny d, (nx, ny, d) ∈ get_unvisited_neighbors w h x y V <->
    adjacent_dir (x, y) (nx, ny) d /\ in_range w h (nx, ny) /\ (nx, ny) ∉ V.
Proof.
  intros Hx Hy. split.
  - unfold get_unvisited_neighbors. apply nodup_four; intros _ _ E; injection E; intros; lia.
  - intros nx ny d. split.
    + intros Hin. destruct (get_unvisited_neighbors_spec w h x y V nx ny d Hin) as (Hadj & Hv & Hr).
      destruct (Hr Hy Hx). split; [exact Hadj | split; [split; simpl; auto | exact Hv]].
    + intros (Hadj & Hr & Hv). exact (get_unvisited_neighbors_complete w h x y V nx ny d Hadj Hr Hv).
Qed.

(** X4: the candidate list built by [make_imperfect] at a cell of the grid
    holds, without repetition, exactly the triples [(nx, ny, direction)]
    where [(nx, ny)] is the neighbour in [direction], lies in the grid, and
    the cell's wall toward it is still present. *)
Theorem imperfect_candidates_exact (w h : nat) (g : list (list Z)) (x y : nat) :
  x < w -> y < h ->
  NoDup (valid_walls w h g x y) /\
  forall nx ny d, (nx, ny, d) ∈ valid_walls w h g x y <->
    adjacent_dir (x, y) (nx, ny) d /\ in_range w h (nx, ny) /\ Z.land (get g x y) d <> 0%Z.
Proof.
  intros Hx Hy. split.
  - unfold valid_walls. apply nodup_four; intros _ _ E; injection E; intros; lia.
  - intros nx ny d. split.
    + intros Hin. destruct (valid_walls_spec w h g x y nx ny d Hin) as (Hadj & Hv & Hr).
      destruct (Hr Hy Hx). split; [exact Hadj | split; [split; simpl; auto | exact Hv]].
    + intros (Hadj & Hr & Hv). exact (valid_walls_complete w h g x y nx ny d Hadj Hr Hv).
Qed.

(** X5: [_remove_wall] between two adjacent cells of the grid opens exactly
    the wall between them: the bit of the first cell toward the second and
    the opposite bit of the second are cleared, every other direction bit of
    every cell is unchanged, the grid keeps its shape, and one history step
    holding the two new values is appended exactly when [record_history]. *)
Theorem remove_wall_exact (w h : nat) (g : list (list Z)) (hist : list step)
    (x1 y1 x2 y2 : nat) (d : Z) (r : bool) :
  wf_grid w h g -> x1 < w -> y1 < h -> x2 < w -> y2 < h -> adjacent_dir (x1, y1) (x2, y2) d ->
  let '(g', hist') := remove_wall g hist x1 y1 x2 y2 d r in
  wf_grid w h g' /\
  Z.land (get g' x1 y1) d = 0%Z /\ Z.land (get g' x2 y2) (opposite d) = 0%Z /\
  (forall x y D, is_dir D -> ~ ((x, y) = (x1, y1) /\ D = d) -> ~ ((x, y) = (x2, y2) /\ D = opposite d) ->
     Z.land (get g' x y) D = Z.land (get g x y) D) /\
  hist' = if r then hist ++ [((x1, y1, get g' x1 y1), (x2, y2, get g' x2 y2))] else hist.
Proof.
  intros Hwf Hx1 Hy1 Hx2 Hy2 Hadj.
  pose proof (remove_wall_get w h g hist x1 y1 x2 y2 d r) as Hget.
  pose proof (remove_wall_wf w h g hist x1 y1 x2 y2 d r Hwf) as Hwf'.
  pose proof (adjacent_is_dir _ _ _ Hadj) as Hd. pose proof (opposite_dir d Hd) as Ho.
  pose proof (adjacent_ne _ _ _ Hadj) as Hne.
  destruct (remove_wall g hist x1 y1 x2 y2 d r) as [g' hist'] eqn:E.
  cbn [fst] in Hget, Hwf'. split; [exact Hwf' | split; [| split; [| split]]].
  - rewrite Hget by auto. rewrite decide_True by auto.
    rewrite land_clear_dir by auto. rewrite decide_True; reflexivity.
  - rewrite Hget by auto. rewrite decide_False by (intros [-> ->]; apply Hne; reflexivity).
    rewrite decide_True by auto. rewrite land_clear_dir by auto. rewrite decide_True; reflexivity.
  - intros x y D HD N1 N2. rewrite Hget by auto.
    case_decide as E1; [destruct E1 as [-> ->] |]; [rewrite land_clear_dir by auto; rewrite decide_False; [reflexivity | intros ->; apply N1; auto] |].
    case_decide as E2; [destruct E2 as [-> ->] |]; [rewrite land_clear_dir by auto; rewrite decide_False; [reflexivity | intros ->; apply N2; auto] |].
    reflexivity.
  - unfold remove_wall in E. injection E as <- <-. reflexivity.
Qed.

(** ** The configuration loader *)

(** *** Strings *)

Lemma lstrip_split (s : pystr) :
  exists pre, s = pre ++ lstrip s /\ Forall (fun c => py_isspace c = true) pre.
Proof.
  induction s as [|c t IH]; simpl.
  - exists []. auto.
  - destruct (py_isspace c) eqn:E.
    + destruct IH as (pre & Hs & Hf). exists (c :: pre). rewrite Hs at 1. auto.
    + exists []. auto.
Qed.

Lemma lstrip_head (s : pystr) (c : Z) : head (lstrip s) = Some c -> py_isspace c = false.
Proof.
  induction s as [|d t IH]; simpl; [discriminate |].
  destruct (py_isspace d) eqn:E; [exact IH |]. simpl. intros [= <-]. exact E.
Qed.

Lemma lstrip_id (s : pystr) : (forall c, head s = Some c -> py_isspace c = false) -> lstrip s = s.
Proof. destruct s as [|c t]; simpl; [reflexivity |]. intros H. rewrite (H c eq_refl). reflexivity. Qed.

Lemma strip_stripped (s : pystr) : stripped (strip s).
Proof.
  unfold strip. destruct (lstrip_split (reverse (lstrip s))) as (pre & Hs & _).
  split.
  - intros c Hc. apply (lstrip_head s).
    assert (Hp : reverse (lstrip (reverse (lstrip s))) `prefix_of` lstrip s).
    { set (X := lstrip (reverse (lstrip s))) in *. exists (reverse pre).
      rewrite <- (reverse_involutive (lstrip s)), Hs, reverse_app. reflexivity. }
    destruct Hp as [k Hk]. rewrite Hk. destruct (reverse (lstrip (reverse (lstrip s)))); [discriminate | exact Hc].
  - intros c Hc. rewrite last_reverse in Hc. exact (lstrip_head _ c Hc).
Qed.

Lemma strip_id (s : pystr) : stripped s -> strip s = s.
Proof.
  intros [Hh Hl]. unfold strip. rewrite (lstrip_id s Hh).
  rewrite lstrip_id; [apply reverse_involutive |]. intros c. rewrite head_reverse. apply Hl.
Qed.

Lemma strip_idem (s : pystr) : strip (strip s) = strip s.
Proof. apply strip_id, strip_stripped. Qed.

Lemma strip_sub (s : pystr) (c : Z) : c ∈ strip s -> c ∈ s.
Proof.
  unfold strip. rewrite elem_of_reverse. intros H.
  destruct (lstrip_split (reverse (lstrip s))) as (pre & Hs & _).
  destruct (lstrip_split s) as (pre' & Hs' & _).
  assert (H1 : c ∈ reverse (lstrip s)) by (rewrite Hs; apply elem_of_app; auto).
  rewrite elem_of_reverse in H1. rewrite Hs'. apply elem_of_app. auto.
Qed.

Lemma split_first_Some (sep : Z) (s a b : pystr) :
  split_first sep s = Some (a, b) <-> s = a ++ sep :: b /\ sep ∉ a.
Proof.
  revert a. induction s as [|c t IH]; intros a; simpl.
  - split; [discriminate |]. intros [H _]. destruct a; discriminate.
  - destruct (Z.eqb_spec c sep) as [->|Hne].
    + split.
      * intros [= <- <-]. split; [reflexivity | apply not_elem_of_nil].
      * intros [H Hn]. destruct a as [|d a].
        -- injection H as ->. reflexivity.
        -- injection H as -> _. exfalso. apply Hn. left.
    + destruct (split_first sep t) as [[a' b']|] eqn:E.
      * split.
        -- intros [= <- <-]. destruct (proj1 (IH a') eq_refl) as [-> Hn].
           split; [reflexivity |]. rewrite elem_of_cons. intros [->|H]; auto.
        -- intros [H Hn]. destruct a as [|d a]; injection H as -> Ht; [exfalso; auto |].
           rewrite not_elem_of_cons in Hn. destruct Hn as [_ Hn].
           pose proof (proj2 (IH a) (conj Ht Hn)) as E'. injection E' as -> ->. reflexivity.
      * split; [discriminate |]. intros [H Hn]. destruct a as [|d a]; injection H as -> Ht; [exfalso; auto |].
        rewrite not_elem_of_cons in Hn. destruct Hn as [_ Hn].
        pose proof (proj2 (IH a) (conj Ht Hn)) as E'. discriminate E'.
Qed.

Lemma split_first_None (sep : Z) (s : pystr) : split_first sep s = None <-> sep ∉ s.
Proof.
  induction s as [|c t IH]; simpl.
  - split; [intros _; apply not_elem_of_nil | reflexivity].
  - rewrite not_elem_of_cons. destruct (Z.eqb_spec c sep) as [->|Hne].
    + split; [discriminate | tauto].
    + destruct (split_first sep t) as [[a b]|].
      * split; [discriminate |]. intros [_ H]. apply IH in H. discriminate.
      * split; [intros _; split; [congruence | apply IH; reflexivity] | reflexivity].
Qed.

Lemma split_all_single (sep : Z) (s p : pystr) : split_all sep s = [p] <-> s = p /\ sep ∉ p.
Proof.
  revert p. induction s as [|c t IH]; intros p; simpl.
  - split; [intros [= <-]; split; [reflexivity | apply not_elem_of_nil] | intros [<- _]; reflexivity].
  - destruct (Z.eqb_spec c sep) as [->|Hne].
    + split.
      * intros H. injection H as <- H. destruct t; simpl in H; [discriminate |].
        destruct (_ =? _)%Z; [discriminate | destruct (split_all sep t); discriminate].
      * intros [<- Hn]. exfalso. apply Hn. left.
    + destruct (split_all sep t) as [|q qs] eqn:E.
      * destruct t; simpl in E; [discriminate |].
        destruct (_ =? _)%Z; [discriminate | destruct (split_all sep t); discriminate].
      * split.
        -- intros [= <- ->]. destruct (proj1 (IH q) eq_refl) as [-> Hn].
           split; [reflexivity |]. rewrite not_elem_of_cons; auto.
        -- intros [<- Hn]. rewrite not_elem_of_cons in Hn. destruct Hn as [_ Hn].
           pose proof (proj2 (IH t) (conj eq_refl Hn)) as E'. injection E' as -> ->. reflexivity.
Qed.

Lemma split_all_pair (sep : Z) (s p0 p1 : pystr) :
  split_all sep s = [p0; p1] <-> s = p0 ++ (sep :: p1) /\ (sep ∉ p0) /\ (sep ∉ p1).
Proof.
  revert p0. induction s as [|c t IH]; intros p0; simpl.
  - split; [discriminate |]. intros [H _]. destruct p0; discriminate.
  - destruct (Z.eqb_spec c sep) as [->|Hne].
    + split.
      * intros [= <- H]. apply split_all_single in H as [-> Hn].
        split; [reflexivity | split; [apply not_elem_of_nil | exact Hn]].
      * intros (H & H0 & H1). destruct p0 as [|d p0].
        -- injection H as ->. rewrite (proj2 (split_all_single sep p1 p1) (conj eq_refl H1)). reflexivity.
        -- injection H as -> _. exfalso. apply H0. left.
    + destruct (split_all sep t) as [|q qs] eqn:E.
      * destruct t; simpl in E; [discriminate |].
        destruct (_ =? _)%Z; [discriminate | destruct (split_all sep t); discriminate].
      * split.
        -- intros H. injection H as <- ->. destruct (proj1 (IH q) eq_refl) as (-> & H0 & H1).
           split; [reflexivity | split; [rewrite not_elem_of_cons; auto | exact H1]].
        -- intros (H & H0 & H1). destruct p0 as [|d p0]; injection H as -> Ht; [exfalso; auto |].
           rewrite not_elem_of_cons in H0. destruct H0 as [_ H0].
           pose proof (proj2 (IH p0) (conj Ht (conj H0 H1))) as E'. injection E' as -> ->. reflexivity.
Qed.

Section Loader_proofs.
Context (py_int : pystr -> option Z) (py_lower : pystr -> pystr).

Lemma coord_checks_eq (w h : nat) (name : pystr) (x y : Z) :
  (if negb ((0 <=? x)%Z && (x <? Z.of_nat w)%Z && (0 <=? y)%Z && (y <? Z.of_nat h)%Z)
   then inr (OutOfMazeBounds name x y)
   else if negb ((x =? 0)%Z || (x =? Z.of_nat w - 1)%Z || (y =? 0)%Z || (y =? Z.of_nat h - 1)%Z)
   then inr (NotOnEdge name x y) else inl (x, y)) =
  (if decide (in_bounds w h (x, y)) then
     if decide (on_border w h (x, y)) then inl (x, y) else inr (NotOnEdge name x y)
   else inr (OutOfMazeBounds name x y) : (Z * Z) + config_error).
Proof.
  unfold in_bounds, on_border; simpl.
  destruct (Z.leb_spec 0 x), (Z.ltb_spec x (Z.of_nat w)),
    (Z.leb_spec 0 y), (Z.ltb_spec y (Z.of_nat h)); simpl;
    repeat case_decide; try lia;
    destruct (Z.eqb_spec x 0), (Z.eqb_spec x (Z.of_nat w - 1)),
      (Z.eqb_spec y 0), (Z.eqb_spec y (Z.of_nat h - 1)); simpl; try reflexivity; lia.
Qed.

Lemma coord_syntax_split (value : pystr) (x y : Z) :
  coord_syntax py_int value x y ->
  exists a b, split_all COMMA value = [a; b] /\ py_int (strip a) = Some x /\ py_int (strip b) = Some y.
Proof.
  intros (a & b & Hv & Ha & Hb & Hx & Hy). exists a, b.
  split; [apply split_all_pair; auto | auto].
Qed.

Lemma parse_coord_cases (value name : pystr) (w h : nat) :
  match parse_coord py_int value name (Z.of_nat w) (Z.of_nat h) with
  | inl (x, y) => coord_syntax py_int value x y /\ border_point w h (x, y)
  | inr (BadFormat n) => n = name /\ forall x y, ~ coord_syntax py_int value x y
  | inr (OutOfMazeBounds n x y) => n = name /\ coord_syntax py_int value x y /\ ~ in_bounds w h (x, y)
  | inr (NotOnEdge n x y) =>
      n = name /\ coord_syntax py_int value x y /\ in_bounds w h (x, y) /\ ~ on_border w h (x, y)
  | inr _ => False
  end.
Proof.
  unfold parse_coord. case_bool_decide as Hc; cbn [negb].
  - destruct (split_all COMMA value) as [|p0 [|p1 [|p2 ps]]] eqn:Es;
      try (split; [reflexivity |]; intros x y Hs; apply coord_syntax_split in Hs as (a & b & E & _);
           rewrite Es in E; discriminate E).
    apply split_all_pair in Es as (Hv & H0 & H1).
    destruct (py_int (strip p0)) as [x|] eqn:Ex, (py_int (strip p1)) as [y|] eqn:Ey;
      try (split; [reflexivity |]; intros x' y' Hs; apply coord_syntax_split in Hs as (a & b & E & Ha & Hb);
           rewrite (proj2 (split_all_pair COMMA value p0 p1) (conj Hv (conj H0 H1))) in E;
           injection E as <- <-; congruence).
    assert (Hs : coord_syntax py_int value x y) by (exists p0, p1; auto).
    rewrite coord_checks_eq.
    destruct (decide (in_bounds w h (x, y))); [destruct (decide (on_border w h (x, y))) |].
    + split; [exact Hs | split; assumption].
    + auto.
    + auto.
  - split; [reflexivity |]. intros x y (a & b & Hv & _). apply Hc. rewrite Hv.
    apply elem_of_app. right. left.
Qed.

(** X6: [_parse_coord] with the maze size [w x h] returns [(x, y)] exactly
    when the value is [x,y] with a single comma, both parts read as integers
    and the point is a border cell; otherwise it exits with the format error
    (no single comma, or a part that is not an integer), then the
    out-of-bounds error, then the not-on-the-edge error, in this order. *)
Theorem parse_coord_outcome (value name : pystr) (w h : nat) :
  match parse_coord py_int value name (Z.of_nat w) (Z.of_nat h) with
  | inl (x, y) => coord_syntax py_int value x y /\ border_point w h (x, y)
  | inr (BadFormat n) => n = name /\ forall x y, ~ coord_syntax py_int value x y
  | inr (OutOfMazeBounds n x y) => n = name /\ coord_syntax py_int value x y /\ ~ in_bounds w h (x, y)
  | inr (NotOnEdge n x y) =>
      n = name /\ coord_syntax py_int value x y /\ in_bounds w h (x, y) /\ ~ on_border w h (x, y)
  | inr _ => False
  end.
Proof. exact (parse_coord_cases value name w h). Qed.

Lemma parse_coord_ok (value name : pystr) (width height : Z) (p : Z * Z) :
  (0 <= width)%Z -> (0 <= height)%Z ->
  parse_coord py_int value name width height = inl p ->
  border_point (Z.to_nat width) (Z.to_nat height) p.
Proof.
  intros Hw Hh E. pose proof (parse_coord_cases value name (Z.to_nat width) (Z.to_nat height)) as Hc.
  rewrite !Z2Nat.id in Hc by assumption. rewrite E in Hc. destruct p as [x y]. exact (proj2 Hc).
Qed.

Lemma validate_ok (raw : gmap pystr pystr) (cfg : config) :
  validate_and_convert py_int py_lower raw = inl cfg ->
  (3 <= cfg_width cfg)%Z /\ (3 <= cfg_height cfg)%Z /\
  raw !! lit "OUTPUT_FILE" = Some (cfg_output_file cfg) /\ cfg_output_file cfg <> [] /\
  border_point (Z.to_nat (cfg_width cfg)) (Z.to_nat (cfg_height cfg)) (cfg_entry cfg) /\
  border_point (Z.to_nat (cfg_width cfg)) (Z.to_nat (cfg_height cfg)) (cfg_exit cfg) /\
  cfg_entry cfg <> cfg_exit cfg.
Proof.
  unfold validate_and_convert. case_bool_decide as Hm; [discriminate |].
  assert (Ho : is_Some (raw !! lit "OUTPUT_FILE")).
  { apply elem_of_dom. destruct (decide (lit "OUTPUT_FILE" ∈ dom raw)) as [|Hn]; [assumption |].
    exfalso. assert (Hi : lit "OUTPUT_FILE" ∈ MANDATORY_KEYS ∖ dom raw).
    { apply elem_of_difference. split; [unfold MANDATORY_KEYS; simpl; set_solver | exact Hn]. }
    rewrite Hm in Hi. set_solver. }
  destruct Ho as [out Hout]. rewrite Hout. cbn [default].
  destruct (py_int _) as [width|]; [| discriminate].
  destruct (py_int _) as [height|]; [| discriminate].
  destruct (Z.ltb_spec width 3), (Z.ltb_spec height 3); cbn [orb]; try discriminate.
  destruct (parse_bool py_lower _) as [perfect|]; [| discriminate].
  destruct out as [|c out]; [discriminate |]. unfold id.
  match goal with |- context [parse_coord ?pi ?v (lit "ENTRY") ?a ?b] =>
    destruct (parse_coord pi v (lit "ENTRY") a b) as [entry|] eqn:Ee; [| discriminate] end.
  match goal with |- context [parse_coord ?pi ?v (lit "EXIT") ?a ?b] =>
    destruct (parse_coord pi v (lit "EXIT") a b) as [exit|] eqn:Ex; [| discriminate] end.
  case_decide as Hne; [discriminate |].
  intros [= <-]. cbn.
  split; [lia | split; [lia | split; [reflexivity | split; [discriminate | split; [| split]]]]].
  - eapply parse_coord_ok; [lia | lia | exact Ee].
  - eapply parse_coord_ok; [lia | lia | exact Ex].
  - exact Hne.
Qed.

Lemma load_config_ok (lines : list pystr) (cfg : config) :
  load_config py_int py_lower lines = inl cfg ->
  (3 <= cfg_width cfg)%Z /\ (3 <= cfg_height cfg)%Z /\
  border_point (Z.to_nat (cfg_width cfg)) (Z.to_nat (cfg_height cfg)) (cfg_entry cfg) /\
  border_point (Z.to_nat (cfg_width cfg)) (Z.to_nat (cfg_height cfg)) (cfg_exit cfg) /\
  cfg_entry cfg <> cfg_exit cfg /\ cfg_output_file cfg <> [].
Proof.
  unfold load_config. destruct (read_and_parse_raw_file lines) as [raw|]; [| discriminate].
  intros E. destruct (validate_ok raw cfg E) as (H1 & H2 & _ & H4 & H5 & H6 & H7). auto 10.
Qed.

(** X7: a configuration that [load_config] returns has [WIDTH] and [HEIGHT]
    at least 3, [ENTRY] and [EXIT] inside the maze and on its border, [ENTRY]
    different from [EXIT], and a non-empty [OUTPUT_FILE]. *)
Theorem load_config_accepts (lines : list pystr) (cfg : config) :
  load_config py_int py_lower lines = inl cfg ->
  (3 <= cfg_width cfg)%Z /\ (3 <= cfg_height cfg)%Z /\
  border_point (Z.to_nat (cfg_width cfg)) (Z.to_nat (cfg_height cfg)) (cfg_entry cfg) /\
  border_point (Z.to_nat (cfg_width cfg)) (Z.to_nat (cfg_height cfg)) (cfg_exit cfg) /\
  cfg_entry cfg <> cfg_exit cfg /\ cfg_output_file cfg <> [].
Proof. exact (load_config_ok lines cfg). Qed.

(** X8: keys of the file other than the six mandatory ones are ignored:
    adding one to the raw dictionary does not change what
    [_validate_and_convert] returns or the error it exits with. *)
Theorem validate_ignores_other_keys (raw : gmap pystr pystr) (k v : pystr) :
  k ∉ MANDATORY_KEYS ->
  validate_and_convert py_int py_lower (<[k := v]> raw) = validate_and_convert py_int py_lower raw.
Proof.
  intros Hk. unfold validate_and_convert.
  assert (Hd : MANDATORY_KEYS ∖ dom (<[k:=v]> raw) = MANDATORY_KEYS ∖ dom raw).
  { rewrite dom_insert_L. set_solver. }
  rewrite Hd.
  assert (Hl : forall s, lit s ∈ MANDATORY_KEYS -> <[k:=v]> raw !! lit s = raw !! lit s).
  { intros s Hs. rewrite lookup_insert_ne; [reflexivity |]. intros ->. contradiction. }
  unfold MANDATORY_KEYS in Hl.
  rewrite !Hl by (simpl; set_solver). reflexivity.
Qed.

Lemma set_entry_exit_ok (w h : nat) (entry exit : Z * Z) :
  border_point w h entry -> border_point w h exit -> entry <> exit ->
  set_entry_exit w h entry exit = inl tt.
Proof.
  intros [He1 He2] [Hx1 Hx2] Hne. unfold set_entry_exit.
  rewrite !validate_border_point_eq, !decide_True by assumption.
  rewrite decide_False by assumption. reflexivity.
Qed.

Lemma generate_dims (R : Random) (p : bool) (m : MazeGenerator (rstate R)) :
  0 < width m -> 0 < height m ->
  exists m', generate R p m = Some m' /\ width m' = width m /\ height m' = height m.
Proof.
  intros Hw Hh. destruct (generate_run R p m Hw Hh) as (c & _ & _ & _ & Hg).
  rewrite Hg. eexists; split; [reflexivity |]. destruct p; [split; reflexivity |].
  cbv zeta. match goal with |- context [make_imperfect R ?x] => set (m1 := x) end.
  destruct (make_imperfect_fields R m1 Hw Hh) as (-> & -> & _). split; reflexivity.
Qed.

(** X9: with a configuration that [load_config] returns, [main] and the
    application never hit an error of the generator: [MazeGenerator(WIDTH,
    HEIGHT)] is built, and every later [generate(PERFECT)] followed by
    [set_entry_exit(ENTRY, EXIT)] (at start-up, on regenerate, on
    animate) returns normally, whatever ran on the generator before. *)
Theorem loaded_config_never_raises (R : Random) (lines : list pystr) (cfg : config) (seed : Z) :
  load_config py_int py_lower lines = inl cfg ->
  exists m0, new_generator R (Z.to_nat (cfg_width cfg)) (Z.to_nat (cfg_height cfg)) seed = Some m0 /\
  forall ops m, run_ops R ops m0 = Some m ->
    exists m', generate R (cfg_perfect cfg) m = Some m' /\
      set_entry_exit (width m') (height m') (cfg_entry cfg) (cfg_exit cfg) = inl tt.
Proof.
  intros Hl. destruct (load_config_ok lines cfg Hl) as (Hw & Hh & He & Hx & Hne & _).
  unfold new_generator. rewrite !bool_decide_eq_false_2 by lia. cbn [orb].
  eexists; split; [reflexivity |]. intros ops m Hr.
  apply (run_ops_grid R (fun _ _ _ => True)) in Hr as (Ew & Eh & _);
    [| intros ?; auto | auto | simpl; lia | simpl; lia | apply wf_all_walls | exact I].
  cbn [width height] in Ew, Eh.
  destruct (generate_dims R (cfg_perfect cfg) m) as (m' & Hg & Ew' & Eh'); [lia | lia |].
  exists m'. split; [exact Hg |]. rewrite Ew', Eh', Ew, Eh. apply set_entry_exit_ok; assumption.
Qed.

End Loader_proofs.

(** ** The raw parse *)

Lemma before_hash_no_hash (line : pystr) : HASH ∉ before_hash line.
Proof.
  unfold before_hash. destruct (split_first HASH line) as [[a b]|] eqn:E.
  - apply split_first_Some in E. tauto.
  - apply split_first_None in E. exact E.
Qed.

Lemma before_hash_sub (line : pystr) (c : Z) : c ∈ before_hash line -> c ∈ line.
Proof.
  unfold before_hash. destruct (split_first HASH line) as [[a b]|] eqn:E; [| auto].
  apply split_first_Some in E as [-> _]. intros H. apply elem_of_app. auto.
Qed.

Lemma line_entry_ok (line a b : pystr) :
  split_first EQUALS (strip (before_hash line)) = Some (a, b) -> strip a <> [] ->
  raw_entry_ok (strip a) (strip b).
Proof.
  intros E Ha. apply split_first_Some in E as [E Hn].
  assert (Hsub : forall c, c ∈ a \/ c ∈ b -> c ∈ before_hash line).
  { intros c Hc. apply strip_sub. rewrite E. apply elem_of_app. rewrite elem_of_cons. tauto. }
  pose proof (before_hash_no_hash line) as Hh.
  split; [exact Ha | split; [apply strip_idem | split; [apply strip_idem | split; [| split]]]].
  - intros Hc. apply strip_sub in Hc. apply Hh, Hsub. auto.
  - intros Hc. apply strip_sub in Hc. auto.
  - intros Hc. apply strip_sub in Hc. apply Hh, Hsub. auto.
Qed.

Lemma parse_lines_entries (n : nat) (lines : list pystr) (m raw : gmap pystr pystr) :
  map_Forall raw_entry_ok m -> parse_lines n lines m = inl raw -> map_Forall raw_entry_ok raw.
Proof.
  revert n m. induction lines as [|line rest IH]; intros n m Hm; simpl.
  - intros [= <-]. exact Hm.
  - destruct (strip (before_hash line)) as [|c0 cl] eqn:Ec; [apply IH; exact Hm |].
    destruct (split_first EQUALS (c0 :: cl)) as [[a b]|] eqn:Es; [| discriminate].
    destruct (strip a) as [|k0 kl] eqn:Ek; [discriminate |].
    apply IH. apply map_Forall_insert_2; [| exact Hm].
    rewrite <- Ek. rewrite <- Ec in Es. apply (line_entry_ok line a b Es). rewrite Ek. discriminate.
Qed.

(** X10: every entry of the dictionary [_read_and_parse_raw_file] returns has
    a non-empty key, a key and a value without surrounding whitespace, no
    [#] in either (comments are cut off) and no [=] in the key (the line is
    split at its first [=]). *)
Theorem raw_entries_well_formed (lines : list pystr) (raw : gmap pystr pystr) :
  read_and_parse_raw_file lines = inl raw -> map_Forall raw_entry_ok raw.
Proof. apply parse_lines_entries, map_Forall_empty. Qed.

Lemma parse_lines_error (n : nat) (lines : list pystr) (m : gmap pystr pystr) (e : config_error) :
  parse_lines n lines m = inr e ->
  exists i line, lines !! i = Some line /\ (exists raw, parse_lines n (take i lines) m = inl raw) /\
    ((e = SyntaxError (n + i) /\ strip (before_hash line) <> [] /\ (EQUALS ∉ strip (before_hash line))) \/
     (e = MissingKey (n + i) /\ exists a b,
        strip (before_hash line) = a ++ EQUALS :: b /\ (EQUALS ∉ a) /\ strip a = [])).
Proof.
  revert n m. induction lines as [|line rest IH]; intros n m; simpl; [discriminate |].
  destruct (strip (before_hash line)) as [|c0 cl] eqn:Ec.
  - intros H. destruct (IH (S n) m H) as (i & l & Hi & Hp & He).
    exists (S i), l. split; [exact Hi | split].
    + simpl. rewrite Ec. exact Hp.
    + replace (n + S i) with (S n + i) by lia. exact He.
  - destruct (split_first EQUALS (c0 :: cl)) as [[a b]|] eqn:Es.
    + destruct (strip a) as [|k0 kl] eqn:Ek.
      * intros [= <-]. exists 0, line. split; [reflexivity | split; [eexists; reflexivity |]].
        right. split; [f_equal; lia |]. exists a, b. rewrite Ec. apply split_first_Some in Es. tauto.
      * intros H. destruct (IH (S n) _ H) as (i & l & Hi & Hp & He).
        exists (S i), l. split; [exact Hi | split].
        -- simpl. rewrite Ec, Es, Ek. exact Hp.
        -- replace (n + S i) with (S n + i) by lia. exact He.
    + intros [= <-]. exists 0, line. split; [reflexivity | split; [eexists; reflexivity |]].
      left. rewrite Ec. split; [f_equal; lia | split; [discriminate |]].
      apply split_first_None. exact Es.
Qed.

(** X11: when [_read_and_parse_raw_file] exits on a line, the line number it
    reports is that of the first bad line: the lines before it parse, and
    the reported line either has content (after its comment is cut off) but
    no [=] (syntax error), or has nothing but whitespace before its first
    [=] (missing key). *)
Theorem raw_parse_error_line (lines : list pystr) (e : config_error) :
  read_and_parse_raw_file lines = inr e ->
  exists k line, 1 <= k /\ lines !! (k - 1) = Some line /\
    (exists raw, read_and_parse_raw_file (take (k - 1) lines) = inl raw) /\
    ((e = SyntaxError k /\ strip (before_hash line) <> [] /\ (EQUALS ∉ strip (before_hash line))) \/
     (e = MissingKey k /\ exists a b,
        strip (before_hash line) = a ++ EQUALS :: b /\ (EQUALS ∉ a) /\ strip a = [])).
Proof.
  intros H. destruct (parse_lines_error 1 lines ∅ e H) as (i & line & Hi & Hp & He).
  exists (1 + i), line. replace (1 + i - 1) with i by lia.
  split; [lia | split; [exact Hi | split; [exact Hp | exact He]]].
Qed.

Lemma lstrip_snoc_space (s : pystr) (c : Z) :
  py_isspace c = true -> lstrip (s ++ [c]) = match lstrip s with [] => [] | _ => lstrip s ++ [c] end.
Proof.
  intros Hc. induction s as [|d t IH]; simpl; [rewrite Hc; reflexivity |].
  destruct (py_isspace d); [exact IH | reflexivity].
Qed.

Lemma strip_snoc_space (s : pystr) (c : Z) : py_isspace c = true -> strip (s ++ [c]) = strip s.
Proof.
  intros Hc. unfold strip. rewrite lstrip_snoc_space by exact Hc.
  destruct (lstrip s) as [|d t]; [reflexivity |].
  rewrite reverse_app. simpl. rewrite Hc. reflexivity.
Qed.

Lemma kv_line_clean (k v : pystr) :
  raw_entry_ok k v -> strip (before_hash (kv_line (k, v))) = k ++ EQUALS :: v.
Proof.
  intros (Hk & Hsk & Hsv & Hhk & Hek & Hhv). unfold kv_line; cbn [fst snd].
  assert (Hb : before_hash (k ++ EQUALS :: v ++ [10%Z]) = k ++ EQUALS :: v ++ [10%Z]).
  { unfold before_hash. rewrite (proj2 (split_first_None _ _)); [reflexivity |].
    rewrite elem_of_app, elem_of_cons, elem_of_app, list_elem_of_singleton.
    unfold HASH, EQUALS. intros [H|[H|[H|H]]]; [tauto | discriminate | tauto | discriminate]. }
  rewrite Hb. rewrite app_comm_cons, app_assoc, strip_snoc_space by reflexivity.
  apply strip_id. pose proof (strip_stripped k) as [Hh _]. pose proof (strip_stripped v) as [_ Hl].
  rewrite Hsk in Hh. rewrite Hsv in Hl. split.
  - intros c. destruct k as [|c0 k]; [contradiction |]. simpl. apply Hh.
  - intros c. rewrite last_app. destruct v as [|c1 v' _] using rev_ind.
    + simpl. intros [= <-]. reflexivity.
    + rewrite app_comm_cons, !last_snoc. intros [= <-]. apply Hl. rewrite last_snoc. reflexivity.
Qed.

Lemma parse_lines_kv (n : nat) (kvs : list (pystr * pystr)) (m : gmap pystr pystr) :
  Forall (fun kv => raw_entry_ok kv.1 kv.2) kvs ->
  parse_lines n (map kv_line kvs) m = inl (foldl (fun m kv => <[kv.1 := kv.2]> m) m kvs).
Proof.
  revert n m. induction kvs as [|[k v] kvs IH]; intros n m Hf; simpl; [reflexivity |].
  apply Forall_cons in Hf as [Hkv Hf]. cbn [fst snd] in Hkv.
  rewrite (kv_line_clean k v Hkv).
  destruct Hkv as (Hk & Hsk & Hsv & Hhk & Hek & Hhv).
  destruct k as [|c0 k]; [contradiction |].
  rewrite (proj2 (split_first_Some EQUALS _ (c0 :: k) v) (conj eq_refl Hek)).
  rewrite Hsk, Hsv. apply IH. exact Hf.
Qed.

(** X12: writing the pairs [kvs] as lines [key=value] gives back, through
    [_read_and_parse_raw_file], the dictionary of [kvs] where a later line
    for a key overrides an earlier one, provided each pair is one the parser
    can produce ([raw_entry_ok]). *)
Theorem raw_parse_roundtrip (kvs : list (pystr * pystr)) :
  Forall (fun kv => raw_entry_ok kv.1 kv.2) kvs ->
  read_and_parse_raw_file (map kv_line kvs) = inl (list_to_map (reverse kvs)).
Proof.
  intros Hf. unfold read_and_parse_raw_file. rewrite (parse_lines_kv 1 kvs ∅ Hf). f_equal.
  clear Hf. induction kvs as [|[k v] kvs IH] using rev_ind; [reflexivity |].
  rewrite foldl_snoc, reverse_snoc, list_to_map_cons, IH. reflexivity.
Qed.

(** ** The ASCII renderer *)

Lemma lookup_concat_const {A} (k : nat) (bs : list (list A)) (i j : nat) :
  Forall (fun b => length b = k) bs -> j < k ->
  concat bs !! (k * i + j) = bs !! i ≫= fun b => b !! j.
Proof.
  intros Hf Hj. revert i. induction Hf as [|b bs Hb Hf IH]; intros i; simpl.
  - rewrite lookup_nil. reflexivity.
  - destruct i as [|i].
    + rewrite Nat.mul_0_r, Nat.add_0_l, lookup_app_l by lia. reflexivity.
    + rewrite lookup_app_r by nia. replace (k * S i + j - length b) with (k * i + j) by nia. apply IH.
Qed.

Lemma length_concat_const {A} (k : nat) (bs : list (list A)) :
  Forall (fun b => length b = k) bs -> length (concat bs) = k * length bs.
Proof. induction 1; simpl; [lia |]. rewrite length_app. lia. Qed.

Lemma lookup_map_seq_lt {A} (f : nat -> A) (n i : nat) : i < n -> map f (seq 0 n) !! i = Some (f i).
Proof. intros Hi. rewrite list_lookup_fmap, lookup_seq_lt by exact Hi. reflexivity. Qed.

Lemma wf_grid_lookup (w h : nat) (g : list (list Z)) (y : nat) :
  wf_grid w h g -> y < h -> exists row, g !! y = Some row /\ length row = w.
Proof.
  intros [Hl Hr] Hy. destruct (lookup_lt_is_Some_2 g y ltac:(lia)) as [row Hrow].
  exists row. split; [exact Hrow | exact (Hr y row Hrow)].
Qed.

Lemma wf_get_row (w h : nat) (g : list (list Z)) (y : nat) (row : list Z) (x : nat) :
  g !! y = Some row -> x < length row -> row !! x = Some (get g x y).
Proof.
  intros Hy Hx. unfold get. rewrite Hy. destruct (lookup_lt_is_Some_2 row x Hx) as [v Hv].
  rewrite Hv. reflexivity.
Qed.

Lemma py_index_last {A} (l : list A) (n : nat) :
  1 <= n -> length l = n -> py_index l (Z.of_nat n - 1) = l !! (n - 1).
Proof.
  intros Hn Hl. unfold py_index. destruct (Z.ltb_spec (Z.of_nat n - 1) 0); [lia |].
  f_equal. lia.
Qed.

Lemma grid_width_wf (w h : nat) (g : list (list Z)) :
  wf_grid w h g -> 1 <= h -> grid_width g = w.
Proof.
  intros [Hl Hr] Hh. destruct g as [|row g]; simpl in Hl; [lia |]. exact (Hr 0 row eq_refl).
Qed.

Lemma render_cells_map (g : list (list Z)) (y : nat) (row : list Z) (xs : list nat) (r b : pystr) :
  g !! y = Some row -> (forall x, x ∈ xs -> x < length row) ->
  render_cells row xs r b =
  Some (r ++ concat (map (fun x => roof_seg (get g x y)) xs),
        b ++ concat (map (fun x => body_seg (get g x y)) xs)).
Proof.
  intros Hy. revert r b. induction xs as [|x xs IH]; intros r b Hxs; simpl.
  - rewrite !app_nil_r. reflexivity.
  - rewrite (wf_get_row 0 0 g y row x Hy) by (apply Hxs; apply elem_of_cons; left; reflexivity).
    rewrite IH by (intros x' Hx'; apply Hxs; apply elem_of_cons; right; exact Hx').
    unfold roof_seg, body_seg. rewrite <- !app_assoc. reflexivity.
Qed.

Lemma render_rows_map (w h : nat) (g : list (list Z)) (ys : list nat) (acc : list pystr) :
  wf_grid w h g -> 1 <= w -> (forall y, y ∈ ys -> y < h) ->
  render_rows g w ys acc = Some (acc ++ concat (map (fun y => [roof_line g w y; body_line g w y]) ys)).
Proof.
  intros Hwf Hw. revert acc. induction ys as [|y ys IH]; intros acc Hys; simpl.
  - rewrite app_nil_r. reflexivity.
  - destruct (wf_grid_lookup w h g y Hwf (Hys y ltac:(apply elem_of_cons; left; reflexivity))) as (row & Hrow & Hlen).
    rewrite Hrow. rewrite (render_cells_map g y row (seq 0 w) [] [] Hrow) by (intros x Hx; apply elem_of_seq in Hx; lia).
    rewrite (py_index_last row w Hw Hlen). rewrite (wf_get_row 0 0 g y row (w - 1) Hrow) by lia.
    rewrite IH by (intros y' Hy'; apply Hys; apply elem_of_cons; right; exact Hy').
    rewrite <- app_assoc. reflexivity.
Qed.

Lemma render_bottom_map (w h : nat) (g : list (list Z)) (xs : list nat) (b : pystr) :
  wf_grid w h g -> 1 <= h -> (forall x, x ∈ xs -> x < w) ->
  render_bottom g h xs b = Some (b ++ concat (map (fun x => floor_seg (get g x (h - 1))) xs)).
Proof.
  intros Hwf Hh. destruct (wf_grid_lookup w h g (h - 1) Hwf ltac:(lia)) as (row & Hrow & Hlen).
  assert (Hp : py_index g (Z.of_nat h - 1) = Some row).
  { rewrite (py_index_last g h Hh (proj1 Hwf)). exact Hrow. }
  revert b. induction xs as [|x xs IH]; intros b Hxs; simpl.
  - rewrite app_nil_r. reflexivity.
  - rewrite Hp. rewrite (wf_get_row 0 0 g (h - 1) row x Hrow) by (rewrite Hlen; apply Hxs; apply elem_of_cons; left; reflexivity).
    rewrite IH by (intros x' Hx'; apply Hxs; apply elem_of_cons; right; exact Hx').
    unfold floor_seg. rewrite <- !app_assoc. reflexivity.
Qed.

Lemma render_lines (w h : nat) (g : list (list Z)) :
  wf_grid w h g -> 1 <= w -> 1 <= h ->
  render g = Some (py_join [NEWLINE]
    (concat (map (fun y => [roof_line g w y; body_line g w y]) (seq 0 h)) ++ [floor_line g w h])).
Proof.
  intros Hwf Hw Hh. unfold render. rewrite (grid_width_wf w h g Hwf Hh), (proj1 Hwf).
  rewrite (render_rows_map w h g) by (auto; intros y Hy; apply elem_of_seq in Hy; lia).
  rewrite (render_bottom_map w h g) by (auto; intros x Hx; apply elem_of_seq in Hx; lia).
  unfold floor_line. reflexivity.
Qed.

Lemma not_in_concat_map {A B} (f : A -> list B) (l : list A) (z : B) :
  (forall a, z ∉ f a) -> z ∉ concat (map f l).
Proof.
  intros H Hz. apply list_elem_of_In, in_concat in Hz as (l' & Hl' & Hz).
  apply in_map_iff in Hl' as (a & <- & _). apply (H a), list_elem_of_In, Hz.
Qed.

Lemma roof_line_at (g : list (list Z)) (w y x i : nat) :
  x < w -> i < 4 -> roof_line g w y !! (4 * x + i) = roof_seg (get g x y) !! i.
Proof.
  intros Hx Hi. unfold roof_line.
  assert (Hf : Forall (fun b => length b = 4) (map (fun x => roof_seg (get g x y)) (seq 0 w))).
  { apply Forall_forall. intros b Hb. apply list_elem_of_fmap in Hb as (x' & -> & _).
    unfold roof_seg. destruct (_ =? _)%Z; reflexivity. }
  rewrite lookup_app_l by (rewrite (length_concat_const 4 _ Hf), length_map, length_seq; lia).
  rewrite (lookup_concat_const 4 _ x i Hf Hi), lookup_map_seq_lt by exact Hx. reflexivity.
Qed.

Lemma body_line_at (g : list (list Z)) (w y x i : nat) :
  x < w -> i < 4 -> body_line g w y !! (4 * x + i) = body_seg (get g x y) !! i.
Proof.
  intros Hx Hi. unfold body_line.
  assert (Hf : Forall (fun b => length b = 4) (map (fun x => body_seg (get g x y)) (seq 0 w))).
  { apply Forall_forall. intros b Hb. apply list_elem_of_fmap in Hb as (x' & -> & _).
    unfold body_seg. destruct (_ =? _)%Z; reflexivity. }
  rewrite lookup_app_l by (rewrite (length_concat_const 4 _ Hf), length_map, length_seq; lia).
  rewrite (lookup_concat_const 4 _ x i Hf Hi), lookup_map_seq_lt by exact Hx. reflexivity.
Qed.

Lemma floor_line_at (g : list (list Z)) (w h x i : nat) :
  x < w -> i < 4 -> floor_line g w h !! (4 * x + i) = floor_seg (get g x (h - 1)) !! i.
Proof.
  intros Hx Hi. unfold floor_line.
  assert (Hf : Forall (fun b => length b = 4) (map (fun x => floor_seg (get g x (h - 1))) (seq 0 w))).
  { apply Forall_forall. intros b Hb. apply list_elem_of_fmap in Hb as (x' & -> & _).
    unfold floor_seg. destruct (_ =? _)%Z; reflexivity. }
  rewrite lookup_app_l by (rewrite (length_concat_const 4 _ Hf), length_map, length_seq; lia).
  rewrite (lookup_concat_const 4 _ x i Hf Hi), lookup_map_seq_lt by exact Hx. reflexivity.
Qed.

Lemma line_lengths (g : list (list Z)) (w h y : nat) :
  length (roof_line g w y) = 4 * w + 1 /\ length (body_line g w y) = 4 * w + 1 /\
  length (floor_line g w h) = 4 * w + 1.
Proof.
  unfold roof_line, body_line, floor_line.
  rewrite !length_app, !(length_concat_const 4), !length_map, !length_seq;
    [| apply Forall_forall; intros b Hb; apply list_elem_of_fmap in Hb as (x' & -> & _);
       cbv [roof_seg body_seg floor_seg]; case_match; reflexivity ..].
  case_match; simpl; lia.
Qed.

Lemma lines_no_newline (g : list (list Z)) (w h y : nat) :
  (NEWLINE ∉ roof_line g w y) /\ (NEWLINE ∉ body_line g w y) /\ (NEWLINE ∉ floor_line g w h).
Proof.
  unfold roof_line, body_line, floor_line. rewrite !not_elem_of_app.
  split; [| split]; (split; [apply not_in_concat_map; intros a | ]);
    cbv [roof_seg body_seg floor_seg]; repeat case_match; compute_done.
Qed.

Lemma rows_at {A} (f1 f2 : nat -> A) (last : A) (h y : nat) :
  let ls := concat (map (fun y => [f1 y; f2 y]) (seq 0 h)) ++ [last] in
  length ls = 2 * h + 1 /\
  (y < h -> ls !! (2 * y) = Some (f1 y) /\ ls !! (2 * y + 1) = Some (f2 y)) /\
  ls !! (2 * h) = Some last.
Proof.
  intros ls.
  assert (Hf : Forall (fun b => length b = 2) (map (fun y => [f1 y; f2 y]) (seq 0 h))).
  { apply Forall_forall. intros b Hb. apply list_elem_of_fmap in Hb as (y' & -> & _). reflexivity. }
  pose proof (length_concat_const 2 _ Hf) as Hl. rewrite length_map, length_seq in Hl.
  split; [unfold ls; rewrite length_app, Hl; simpl; lia | split].
  - intros Hy. unfold ls. rewrite !lookup_app_l by lia.
    rewrite <- (Nat.add_0_r (2 * y)) at 1.
    rewrite !(lookup_concat_const 2 _ y _ Hf), !lookup_map_seq_lt by lia. split; reflexivity.
  - unfold ls. rewrite lookup_app_r by lia. rewrite Hl. replace (2 * h - 2 * h) with 0 by lia. reflexivity.
Qed.

(** X13: [render] of a grid of [h >= 1] rows of [w >= 1] cells returns
    [2h + 1] lines of [4w + 1] characters joined by newlines: for each cell
    a [+] corner and three [-] over it when its NORTH bit is set (spaces
    otherwise), a [|] on its left when its WEST bit is set and three spaces
    beside it; a [|] closing each row on the right when the last cell's EAST
    bit is set; and a bottom line of [+] corners with [---] under each cell
    of the last row whose SOUTH bit is set. *)
Theorem render_draws_grid (w h : nat) (g : list (list Z)) :
  wf_grid w h g -> 1 <= w -> 1 <= h ->
  exists ls, render g = Some (py_join [NEWLINE] ls) /\ length ls = 2 * h + 1 /\
  (forall l, l ∈ ls -> length l = 4 * w + 1 /\ NEWLINE ∉ l) /\
  (forall x y, x < w -> y < h ->
     char_at ls (2 * y) (4 * x) = Some (chr "+"%char) /\
     (forall i, 1 <= i <= 3 -> char_at ls (2 * y) (4 * x + i) =
        Some (if (Z.land (get g x y) NORTH =? 0)%Z then chr " "%char else chr "-"%char)) /\
     char_at ls (2 * y + 1) (4 * x) =
        Some (if (Z.land (get g x y) WEST =? 0)%Z then chr " "%char else chr "|"%char) /\
     (forall i, 1 <= i <= 3 -> char_at ls (2 * y + 1) (4 * x + i) = Some (chr " "%char))) /\
  (forall y, y < h ->
     char_at ls (2 * y) (4 * w) = Some (chr "+"%char) /\
     char_at ls (2 * y + 1) (4 * w) =
        Some (if (Z.land (get g (w - 1) y) EAST =? 0)%Z then chr " "%char else chr "|"%char)) /\
  (forall x, x < w ->
     char_at ls (2 * h) (4 * x) = Some (chr "+"%char) /\
     forall i, 1 <= i <= 3 -> char_at ls (2 * h) (4 * x + i) =
        Some (if (Z.land (get g x (h - 1)) SOUTH =? 0)%Z then chr " "%char else chr "-"%char)) /\
  char_at ls (2 * h) (4 * w) = Some (chr "+"%char).
Proof.
  intros Hwf Hw Hh. eexists. split; [exact (render_lines w h g Hwf Hw Hh) |].
  destruct (rows_at (roof_line g w) (body_line g w) (floor_line g w h) h 0) as (Hlen & _ & Hlast).
  split; [exact Hlen | split; [| split; [| split; [| split]]]].
  - intros l Hl. rewrite elem_of_app, list_elem_of_singleton in Hl.
    destruct Hl as [Hl| ->].
    + apply list_elem_of_In, in_concat in Hl as (b & Hb & Hl).
      apply in_map_iff in Hb as (y & <- & _). simpl in Hl.
      destruct (line_lengths g w h y) as (L1 & L2 & _). destruct (lines_no_newline g w h y) as (N1 & N2 & _).
      destruct Hl as [<-|[<-|[]]]; auto.
    + destruct (line_lengths g w h 0) as (_ & _ & L3). destruct (lines_no_newline g w h 0) as (_ & _ & N3). auto.
  - intros x y Hx Hy. destruct (rows_at (roof_line g w) (body_line g w) (floor_line g w h) h y) as (_ & Hr & _).
    destruct (Hr Hy) as [R1 R2]. unfold char_at. rewrite R1, R2. cbn [mbind option_bind].
    rewrite <- (Nat.add_0_r (4 * x)), roof_line_at, body_line_at by lia. rewrite Nat.add_0_r.
    split; [unfold roof_seg; case_match; reflexivity | split; [| split]].
    + intros i Hi. rewrite roof_line_at by lia. unfold roof_seg.
      destruct (_ =? _)%Z; (destruct i as [|[|[|[|i]]]]; [lia | reflexivity | reflexivity | reflexivity | lia]).
    + unfold body_seg. case_match; reflexivity.
    + intros i Hi. rewrite body_line_at by lia. unfold body_seg.
      destruct (_ =? _)%Z; (destruct i as [|[|[|[|i]]]]; [lia | reflexivity | reflexivity | reflexivity | lia]).
  - intros y Hy. destruct (rows_at (roof_line g w) (body_line g w) (floor_line g w h) h y) as (_ & Hr & _).
    destruct (Hr Hy) as [R1 R2]. unfold char_at. rewrite R1, R2. cbn [mbind option_bind].
    destruct (line_lengths g w h y) as (L1 & L2 & _).
    unfold roof_line, body_line in *. rewrite !length_app in L1, L2. split.
    + rewrite lookup_app_r by (simpl in L1; lia).
      replace (4 * w - length (concat (map (fun x => roof_seg (get g x y)) (seq 0 w)))) with 0
        by (simpl in L1; lia). reflexivity.
    + destruct (_ =? _)%Z; (rewrite lookup_app_r by (simpl in L2; lia);
      replace (4 * w - length (concat (map (fun x => body_seg (get g x y)) (seq 0 w)))) with 0
        by (simpl in L2; lia); reflexivity).
  - intros x Hx. unfold char_at. rewrite Hlast. cbn [mbind option_bind].
    rewrite <- (Nat.add_0_r (4 * x)), floor_line_at by lia. rewrite Nat.add_0_r.
    split; [unfold floor_seg; case_match; reflexivity |].
    intros i Hi. rewrite floor_line_at by lia. unfold floor_seg.
    destruct (_ =? _)%Z; (destruct i as [|[|[|[|i]]]]; [lia | reflexivity | reflexivity | reflexivity | lia]).
  - unfold char_at. rewrite Hlast. cbn [mbind option_bind].
    destruct (line_lengths g w h 0) as (_ & _ & L3). unfold floor_line in *.
    rewrite length_app in L3. rewrite lookup_app_r by (simpl in L3; lia).
    replace (4 * w - length (concat (map (fun x => floor_seg (get g x (h - 1))) (seq 0 w)))) with 0
      by (simpl in L3; lia). reflexivity.
Qed.

(** ** When the renderers raise *)

Lemma py_index_pos {A} (l : list A) (n : nat) :
  1 <= n -> py_index l (Z.of_nat n - 1) = l !! (n - 1).
Proof.
  intros Hn. unfold py_index. destruct (Z.ltb_spec (Z.of_nat n - 1) 0); [lia |].
  f_equal. lia.
Qed.

Lemma render_cells_is_Some (row : list Z) (xs : list nat) (r b : pystr) :
  is_Some (render_cells row xs r b) <-> forall x, x ∈ xs -> x < length row.
Proof.
  revert r b. induction xs as [|x xs IH]; intros r b; simpl.
  - split; [intros _ x Hx; apply elem_of_nil in Hx as [] | intros _; eexists; reflexivity].
  - destruct (row !! x) as [c|] eqn:Hc.
    + rewrite IH. apply lookup_lt_Some in Hc. split.
      * intros H x' Hx'. apply elem_of_cons in Hx' as [->|Hx']; auto.
      * intros H x' Hx'. apply H, elem_of_cons; right; exact Hx'.
    + apply lookup_ge_None in Hc. split; [intros [? Hf]; discriminate |].
      intros H. specialize (H x ltac:(apply elem_of_cons; left; reflexivity)). lia.
Qed.

Lemma render_rows_is_Some (g : list (list Z)) (w : nat) (ys : list nat) (acc : list pystr) :
  1 <= w -> (forall y, y ∈ ys -> y < length g) ->
  is_Some (render_rows g w ys acc) <->
  forall y row, y ∈ ys -> g !! y = Some row -> w <= length row.
Proof.
  intros Hw. revert acc. induction ys as [|y ys IH]; intros acc Hys; simpl.
  - split; [intros _ y row Hy; apply elem_of_nil in Hy as [] | intros _; eexists; reflexivity].
  - destruct (lookup_lt_is_Some_2 g y (Hys y ltac:(apply elem_of_cons; left; reflexivity))) as [row Hrow].
    rewrite Hrow.
    assert (IH' : forall acc, is_Some (render_rows g w ys acc) <->
      forall y row, y ∈ ys -> g !! y = Some row -> w <= length row).
    { intros acc'. apply IH. intros y' Hy'. apply Hys, elem_of_cons; right; exact Hy'. }
    destruct (render_cells row (seq 0 w) [] []) as [[lr lb]|] eqn:Hc.
    + assert (Hlen : w <= length row).
      { assert (Hs : is_Some (render_cells row (seq 0 w) [] [])) by (rewrite Hc; eexists; reflexivity).
        rewrite render_cells_is_Some in Hs. specialize (Hs (w - 1)). rewrite elem_of_seq in Hs. lia. }
      rewrite py_index_pos by exact Hw.
      destruct (lookup_lt_is_Some_2 row (w - 1) ltac:(lia)) as [c Hc']. rewrite Hc'.
      rewrite IH'. split.
      * intros H y' row' Hy' Hr'. apply elem_of_cons in Hy' as [->|Hy'].
        -- rewrite Hrow in Hr'. injection Hr' as <-. exact Hlen.
        -- exact (H y' row' Hy' Hr').
      * intros H y' row' Hy' Hr'. apply (H y' row'); [apply elem_of_cons; right; exact Hy' | exact Hr'].
    + split; [intros [? Hf]; discriminate |].
      intros H. specialize (H y row ltac:(apply elem_of_cons; left; reflexivity) Hrow).
      assert (Hs : is_Some (render_cells row (seq 0 w) [] [])).
      { apply render_cells_is_Some. intros x Hx. apply elem_of_seq in Hx. lia. }
      rewrite Hc in Hs. destruct Hs as [? Hf]; discriminate.
Qed.

Lemma render_bottom_is_Some (g : list (list Z)) (xs : list nat) (b : pystr) :
  g <> [] -> (forall x, x ∈ xs -> forall y row, g !! y = Some row -> x < length row) ->
  is_Some (render_bottom g (length g) xs b).
Proof.
  intros Hg Hxs. assert (Hl : 1 <= length g) by (destruct g; [congruence | simpl; lia]).
  destruct (lookup_lt_is_Some_2 g (length g - 1) ltac:(lia)) as [last Hlast].
  revert b. induction xs as [|x xs IH]; intros b; simpl; [eexists; reflexivity |].
  rewrite py_index_pos by exact Hl. rewrite Hlast.
  destruct (lookup_lt_is_Some_2 last x (Hxs x ltac:(apply elem_of_cons; left; reflexivity) _ _ Hlast)) as [c Hc].
  rewrite Hc. apply IH. intros x' Hx'. apply Hxs, elem_of_cons; right; exact Hx'.
Qed.

Lemma short_row_cases (g : list (list Z)) :
  short_row g <->
  (exists row0 rest, g = row0 :: rest /\ row0 = []) \/
  (1 <= grid_width g /\ exists y row, g !! y = Some row /\ length row < grid_width g).
Proof.
  unfold short_row. split.
  - intros (row & Hr & Hl). destruct g as [|row0 rest]; [apply elem_of_nil in Hr as [] |].
    simpl in Hl |- *. destruct row0 as [|c row0]; [left; eauto |].
    right. split; [simpl; lia |]. apply list_elem_of_lookup_1 in Hr as (y & Hy).
    exists y, row. split; [exact Hy | simpl in *; lia].
  - intros [(row0 & rest & -> & ->)|(Hw & y & row & Hy & Hl)].
    + exists []. split; [apply elem_of_cons; left; reflexivity | simpl; lia].
    + exists row. split; [apply list_elem_of_lookup_2 in Hy; exact Hy | lia].
Qed.

Lemma render_is_Some (g : list (list Z)) :
  is_Some (render g) <-> ~ short_row g.
Proof.
  rewrite short_row_cases. unfold render.
  destruct g as [|row0 rest]; [simpl; split; [intros _ [(? & ? & ? & _)|(Hw & _)]; [discriminate | simpl in Hw; lia] | intros _; eexists; reflexivity] |].
  destruct row0 as [|c0 row0].
  - simpl. split; [intros [? Hf]; discriminate | intros H; exfalso; apply H; left; eauto].
  - set (g := (c0 :: row0) :: rest). set (w := grid_width g).
    assert (Hw : 1 <= w) by (subst w g; simpl; lia).
    assert (Hys : forall y, y ∈ seq 0 (length g) -> y < length g) by (intros y Hy; apply elem_of_seq in Hy; lia).
    pose proof (render_rows_is_Some g w (seq 0 (length g)) [] Hw Hys) as Hrows.
    destruct (render_rows g w (seq 0 (length g)) []) as [lines|] eqn:Hr.
    + assert (Hall : forall y row, g !! y = Some row -> w <= length row).
      { intros y row Hy. apply (proj1 Hrows (ltac:(eexists; reflexivity)) y row); [| exact Hy].
        apply elem_of_seq. apply lookup_lt_Some in Hy. lia. }
      destruct (render_bottom_is_Some g (seq 0 w) [] ltac:(subst g; discriminate)) as [bl Hb].
      { intros x Hx y row Hy. apply elem_of_seq in Hx. specialize (Hall y row Hy). lia. }
      rewrite Hb. split; [intros _ | intros _; eexists; reflexivity].
      intros [(? & ? & Heq & ->)|(_ & y & row & Hy & Hl)]; [subst g; injection Heq; discriminate |].
      specialize (Hall y row Hy). fold w in Hl. lia.
    + split; [intros [? Hf]; discriminate |]. intros H. exfalso. apply H. right. split; [exact Hw |].
      destruct (decide (Exists (fun row => length row < w) g)) as [Hex|Hno].
      { apply Exists_exists in Hex as (row & Hrow & Hl). apply list_elem_of_lookup_1 in Hrow as (y & Hy).
        exists y, row. split; [exact Hy | exact Hl]. }
      rewrite <- Forall_Exists_neg, Forall_lookup in Hno.
      assert (Hs : is_Some (None : option (list pystr))).
      { apply Hrows. intros y row _ Hy. apply Nat.nlt_ge. exact (Hno y row Hy). }
      destruct Hs as [? Hf]; discriminate.
Qed.

Lemma thick_cells_is_Some (row : list Z) (P : gset coord) (entry exit : Z * Z) (y : nat)
    (xs : list nat) (is42 : option bool) (lt lb : pystr) :
  is_Some (thick_cells row P entry exit y xs is42 lt lb) <-> forall x, x ∈ xs -> x < length row.
Proof.
  revert is42 lt lb. induction xs as [|x xs IH]; intros is42 lt lb; simpl.
  - split; [intros _ x Hx; apply elem_of_nil in Hx as [] | intros _; eexists; reflexivity].
  - destruct (row !! x) as [c|] eqn:Hc.
    + rewrite IH. apply lookup_lt_Some in Hc. split.
      * intros H x' Hx'. apply elem_of_cons in Hx' as [->|Hx']; auto.
      * intros H x' Hx'. apply H, elem_of_cons; right; exact Hx'.
    + apply lookup_ge_None in Hc. split; [intros [? Hf]; discriminate |].
      intros H. specialize (H x ltac:(apply elem_of_cons; left; reflexivity)). lia.
Qed.

Lemma thick_cells_bound (row : list Z) (P : gset coord) (entry exit : Z * Z) (y : nat)
    (xs : list nat) (is42 : option bool) (lt lb : pystr) b lt' lb' :
  thick_cells row P entry exit y xs is42 lt lb = Some (b, lt', lb') ->
  (xs = [] -> is_Some is42) -> is_Some b.
Proof.
  revert is42 lt lb. induction xs as [|x xs IH]; intros is42 lt lb; simpl.
  - intros Heq H. injection Heq as -> _ _. apply H; reflexivity.
  - destruct (row !! x) as [c|]; [| discriminate].
    intros Heq _. apply (IH _ _ _ Heq). intros _. eexists; reflexivity.
Qed.

Lemma thick_rows_is_Some (g : list (list Z)) (P : gset coord) (entry exit : Z * Z) (w : nat)
    (ys : list nat) (is42 : option bool) (acc : list pystr) :
  1 <= w -> (forall y, y ∈ ys -> y < length g) ->
  is_Some (thick_rows g P entry exit w ys is42 acc) <->
  forall y row, y ∈ ys -> g !! y = Some row -> w <= length row.
Proof.
  intros Hw. revert is42 acc. induction ys as [|y ys IH]; intros is42 acc Hys; simpl.
  - split; [intros _ y row Hy; apply elem_of_nil in Hy as [] | intros _; eexists; reflexivity].
  - destruct (lookup_lt_is_Some_2 g y (Hys y ltac:(apply elem_of_cons; left; reflexivity))) as [row Hrow].
    rewrite Hrow.
    assert (IH' : forall is42 acc, is_Some (thick_rows g P entry exit w ys is42 acc) <->
      forall y row, y ∈ ys -> g !! y = Some row -> w <= length row).
    { intros is42' acc'. apply IH. intros y' Hy'. apply Hys, elem_of_cons; right; exact Hy'. }
    destruct (thick_cells row P entry exit y (seq 0 w) is42 [] []) as [[[b lt] lb]|] eqn:Hc.
    + assert (Hlen : w <= length row).
      { assert (Hs : is_Some (thick_cells row P entry exit y (seq 0 w) is42 [] []))
          by (rewrite Hc; eexists; reflexivity).
        rewrite thick_cells_is_Some in Hs. specialize (Hs (w - 1)). rewrite elem_of_seq in Hs. lia. }
      destruct (thick_cells_bound row P entry exit y (seq 0 w) is42 [] [] b lt lb Hc) as [b' ->].
      { intros Hs. destruct w; [lia | discriminate]. }
      rewrite py_index_pos by exact Hw.
      destruct (lookup_lt_is_Some_2 row (w - 1) ltac:(lia)) as [c Hc']. rewrite Hc'.
      assert (Hstep : forall lb', is_Some (thick_rows g P entry exit w ys (Some b') (acc ++ [lt ++ [BLOCK]; lb'])) <->
        forall y' row', y' ∈ y :: ys -> g !! y' = Some row' -> w <= length row').
      { intros lb'. rewrite IH'. split.
        - intros H y' row' Hy' Hr'. apply elem_of_cons in Hy' as [->|Hy'].
          + rewrite Hrow in Hr'. injection Hr' as <-. exact Hlen.
          + exact (H y' row' Hy' Hr').
        - intros H y' row' Hy' Hr'. apply (H y' row'); [apply elem_of_cons; right; exact Hy' | exact Hr']. }
      destruct (b' && bool_decide ((w - 1, y) ∈ P)); apply Hstep.
    + split; [intros [? Hf]; discriminate |].
      intros H. specialize (H y row ltac:(apply elem_of_cons; left; reflexivity) Hrow).
      assert (Hs : is_Some (thick_cells row P entry exit y (seq 0 w) is42 [] [])).
      { apply thick_cells_is_Some. intros x Hx. apply elem_of_seq in Hx. lia. }
      rewrite Hc in Hs. destruct Hs as [? Hf]; discriminate.
Qed.

Lemma thick_bottom_is_Some (g : list (list Z)) (P : gset coord) (xs : list nat) (b : pystr) :
  g <> [] -> (forall x, x ∈ xs -> forall y row, g !! y = Some row -> x < length row) ->
  is_Some (thick_bottom g P (length g) xs b).
Proof.
  intros Hg Hxs. assert (Hl : 1 <= length g) by (destruct g; [congruence | simpl; lia]).
  destruct (lookup_lt_is_Some_2 g (length g - 1) ltac:(lia)) as [last Hlast].
  revert b. induction xs as [|x xs IH]; intros b; simpl; [eexists; reflexivity |].
  rewrite py_index_pos by exact Hl. rewrite Hlast.
  destruct (lookup_lt_is_Some_2 last x (Hxs x ltac:(apply elem_of_cons; left; reflexivity) _ _ Hlast)) as [c Hc].
  rewrite Hc. apply IH. intros x' Hx'. apply Hxs, elem_of_cons; right; exact Hx'.
Qed.

Lemma render_thick_is_Some (g : list (list Z)) (P : gset coord) (entry exit : Z * Z) :
  is_Some (render_thick g P entry exit) <-> ~ short_row g.
Proof.
  rewrite short_row_cases. unfold render_thick.
  destruct g as [|row0 rest]; [simpl; split; [intros _ [(? & ? & ? & _)|(Hw & _)]; [discriminate | simpl in Hw; lia] | intros _; eexists; reflexivity] |].
  destruct row0 as [|c0 row0].
  - simpl. split; [intros [? Hf]; discriminate | intros H; exfalso; apply H; left; eauto].
  - set (g := (c0 :: row0) :: rest). set (w := grid_width g).
    assert (Hw : 1 <= w) by (subst w g; simpl; lia).
    assert (Hys : forall y, y ∈ seq 0 (length g) -> y < length g) by (intros y Hy; apply elem_of_seq in Hy; lia).
    pose proof (thick_rows_is_Some g P entry exit w (seq 0 (length g)) None [] Hw Hys) as Hrows.
    destruct (thick_rows g P entry exit w (seq 0 (length g)) None []) as [lines|] eqn:Hr.
    + assert (Hall : forall y row, g !! y = Some row -> w <= length row).
      { intros y row Hy. apply (proj1 Hrows (ltac:(eexists; reflexivity)) y row); [| exact Hy].
        apply elem_of_seq. apply lookup_lt_Some in Hy. lia. }
      destruct (thick_bottom_is_Some g P (seq 0 w) [] ltac:(subst g; discriminate)) as [bl Hb].
      { intros x Hx y row Hy. apply elem_of_seq in Hx. specialize (Hall y row Hy). lia. }
      rewrite Hb. split; [intros _ | intros _; eexists; reflexivity].
      intros [(? & ? & Heq & ->)|(_ & y & row & Hy & Hl)]; [subst g; injection Heq; discriminate |].
      specialize (Hall y row Hy). fold w in Hl. lia.
    + split; [intros [? Hf]; discriminate |]. intros H. exfalso. apply H. right. split; [exact Hw |].
      destruct (decide (Exists (fun row => length row < w) g)) as [Hex|Hno].
      { apply Exists_exists in Hex as (row & Hrow & Hl). apply list_elem_of_lookup_1 in Hrow as (y & Hy).
        exists y, row. split; [exact Hy | exact Hl]. }
      rewrite <- Forall_Exists_neg, Forall_lookup in Hno.
      assert (Hs : is_Some (None : option (list pystr))).
      { apply Hrows. intros y row _ Hy. apply Nat.nlt_ge. exact (Hno y row Hy). }
      destruct Hs as [? Hf]; discriminate.
Qed.

(** X14: both renderers fail (Python raises [IndexError], or
    [UnboundLocalError] in [render_thick]) exactly when some row of the grid
    is shorter than the first row or the first row is empty; longer rows
    are accepted.  The empty grid draws a single corner. *)
Theorem renderers_fail_exactly (g : list (list Z)) (P : gset coord) (entry exit : Z * Z) :
  (render g = None <-> short_row g) /\
  (render_thick g P entry exit = None <-> short_row g) /\
  render [] = Some (lit "+") /\ render_thick [] P entry exit = Some [BLOCK].
Proof.
  split; [| split; [| split; reflexivity]].
  - pose proof (render_is_Some g) as H. destruct (render g) as [s|].
    + split; [discriminate | intros Hs; exfalso; apply H; [eexists; reflexivity | exact Hs]].
    + split; [intros _ | reflexivity]. destruct (decide (short_row g)) as [Hs|Hs]; [exact Hs |].
      apply H in Hs as [? Hf]; discriminate.
  - pose proof (render_thick_is_Some g P entry exit) as H. destruct (render_thick g P entry exit) as [s|].
    + split; [discriminate | intros Hs; exfalso; apply H; [eexists; reflexivity | exact Hs]].
    + split; [intros _ | reflexivity]. destruct (decide (short_row g)) as [Hs|Hs]; [exact Hs |].
      apply H in Hs as [? Hf]; discriminate.
Qed.

(** ** The thick renderer *)

Lemma thick_cells_map (g : list (list Z)) (P : gset coord) (entry exit : Z * Z) (y : nat) (row : list Z)
    (xs : list nat) (is42 : option bool) (lt lb : pystr) :
  g !! y = Some row -> (forall x, x ∈ xs -> x < length row) ->
  thick_cells row P entry exit y xs is42 lt lb =
  Some (match last xs with None => is42 | Some x => Some (bool_decide ((x, y) ∈ P)) end,
        lt ++ concat (map (fun x => thick_top_seg P x y (get g x y)) xs),
        lb ++ concat (map (fun x => thick_bot_seg P entry exit x y (get g x y)) xs)).
Proof.
  intros Hy. revert is42 lt lb. induction xs as [|x xs IH]; intros is42 lt lb Hxs; simpl.
  - rewrite !app_nil_r. reflexivity.
  - rewrite (wf_get_row 0 0 g y row x Hy) by (apply Hxs; apply elem_of_cons; left; reflexivity).
    rewrite IH by (intros x' Hx'; apply Hxs; apply elem_of_cons; right; exact Hx').
    f_equal. f_equal; [f_equal |].
    + destruct xs as [|n xs]; [reflexivity |]. rewrite last_cons_cons.
      destruct (last (n :: xs)) eqn:E; [reflexivity | apply last_None in E; discriminate].
    + unfold thick_top_seg. case_bool_decide; [| destruct (_ =? _)%Z]; simpl; rewrite <- !app_assoc; reflexivity.
    + unfold thick_bot_seg, thick_center. case_bool_decide; [| destruct (_ =? _)%Z]; simpl; rewrite <- !app_assoc; reflexivity.
Qed.

Lemma last_seq_pos (w : nat) : 1 <= w -> last (seq 0 w) = Some (w - 1).
Proof.
  intros Hw. destruct w as [|w]; [lia |]. rewrite seq_S, last_snoc. f_equal. lia.
Qed.

Lemma thick_rows_map (w h : nat) (g : list (list Z)) (P : gset coord) (entry exit : Z * Z)
    (ys : list nat) (is42 : option bool) (acc : list pystr) :
  wf_grid w h g -> 1 <= w -> (forall y, y ∈ ys -> y < h) ->
  thick_rows g P entry exit w ys is42 acc =
  Some (acc ++ concat (map (fun y => [thick_top_line g P w y; thick_bot_line g P entry exit w y]) ys)).
Proof.
  intros Hwf Hw. revert is42 acc. induction ys as [|y ys IH]; intros is42 acc Hys; simpl.
  - rewrite app_nil_r. reflexivity.
  - destruct (wf_grid_lookup w h g y Hwf (Hys y ltac:(apply elem_of_cons; left; reflexivity))) as (row & Hrow & Hlen).
    rewrite Hrow.
    rewrite (thick_cells_map g P entry exit y row (seq 0 w) is42 [] [] Hrow)
      by (intros x Hx; apply elem_of_seq in Hx; lia).
    rewrite (last_seq_pos w Hw).
    assert (Hlast : match (if bool_decide ((w - 1, y) ∈ P) && bool_decide ((w - 1, y) ∈ P)
                           then Some ([] ++ concat (map (fun x => thick_bot_seg P entry exit x y (get g x y)) (seq 0 w)) ++ [P42])
                           else match py_index row (Z.of_nat w - 1) with
                                | Some last_cell => Some ([] ++ concat (map (fun x => thick_bot_seg P entry exit x y (get g x y)) (seq 0 w)) ++
                                    [if (Z.land last_cell 2 =? 0)%Z then SPACE else BLOCK])
                                | None => None end) with
                    | Some l => l = thick_bot_line g P entry exit w y
                    | None => False end).
    { rewrite (py_index_last row w Hw Hlen), (wf_get_row 0 0 g y row (w - 1) Hrow) by lia.
      unfold thick_bot_line. case_bool_decide; reflexivity. }
    destruct (if bool_decide ((w - 1, y) ∈ P) && bool_decide ((w - 1, y) ∈ P) then _ else _) as [lb|];
      [| contradiction]. subst lb.
    rewrite IH by (intros y' Hy'; apply Hys; apply elem_of_cons; right; exact Hy').
    rewrite <- app_assoc. reflexivity.
Qed.

Lemma thick_bottom_map (w h : nat) (g : list (list Z)) (P : gset coord) (xs : list nat) (b : pystr) :
  wf_grid w h g -> 1 <= h -> (forall x, x ∈ xs -> x < w) ->
  thick_bottom g P h xs b = Some (b ++ concat (map (fun x => thick_floor_seg P x h (get g x (h - 1))) xs)).
Proof.
  intros Hwf Hh. destruct (wf_grid_lookup w h g (h - 1) Hwf ltac:(lia)) as (row & Hrow & Hlen).
  assert (Hp : py_index g (Z.of_nat h - 1) = Some row).
  { rewrite (py_index_last g h Hh (proj1 Hwf)). exact Hrow. }
  revert b. induction xs as [|x xs IH]; intros b Hxs; simpl.
  - rewrite app_nil_r. reflexivity.
  - rewrite Hp. rewrite (wf_get_row 0 0 g (h - 1) row x Hrow) by (rewrite Hlen; apply Hxs; apply elem_of_cons; left; reflexivity).
    rewrite IH by (intros x' Hx'; apply Hxs; apply elem_of_cons; right; exact Hx').
    unfold thick_floor_seg. case_bool_decide; [| destruct (_ =? _)%Z]; simpl; rewrite <- !app_assoc; reflexivity.
Qed.

Lemma render_thick_lines (w h : nat) (g : list (list Z)) (P : gset coord) (entry exit : Z * Z) :
  wf_grid w h g -> 1 <= w -> 1 <= h ->
  render_thick g P entry exit = Some (py_join [NEWLINE]
    (concat (map (fun y => [thick_top_line g P w y; thick_bot_line g P entry exit w y]) (seq 0 h)) ++
     [thick_floor_line g P w h])).
Proof.
  intros Hwf Hw Hh. unfold render_thick. rewrite (grid_width_wf w h g Hwf Hh), (proj1 Hwf).
  rewrite (thick_rows_map w h g) by (auto; intros y Hy; apply elem_of_seq in Hy; lia).
  rewrite (thick_bottom_map w h g) by (auto; intros x Hx; apply elem_of_seq in Hx; lia).
  unfold thick_floor_line. reflexivity.
Qed.

Lemma seg_line_at {A} (k : nat) (f : nat -> list A) (w x i : nat) (t : list A) :
  (forall x, length (f x) = k) -> x < w -> i < k ->
  (concat (map f (seq 0 w)) ++ t) !! (k * x + i) = f x !! i.
Proof.
  intros Hf Hx Hi.
  assert (Hk : Forall (fun b => length b = k) (map f (seq 0 w))).
  { apply Forall_forall. intros b Hb. apply list_elem_of_fmap in Hb as (x' & -> & _). apply Hf. }
  rewrite lookup_app_l by (rewrite (length_concat_const k _ Hk), length_map, length_seq; nia).
  rewrite (lookup_concat_const k _ x i Hk Hi), lookup_map_seq_lt by exact Hx. reflexivity.
Qed.

Lemma seg_line_length {A} (k : nat) (f : nat -> list A) (w : nat) (c : A) :
  (forall x, length (f x) = k) -> length (concat (map f (seq 0 w)) ++ [c]) = k * w + 1.
Proof.
  intros Hf.
  assert (Hk : Forall (fun b => length b = k) (map f (seq 0 w))).
  { apply Forall_forall. intros b Hb. apply list_elem_of_fmap in Hb as (x' & -> & _). apply Hf. }
  rewrite length_app, (length_concat_const k _ Hk), length_map, length_seq. reflexivity.
Qed.

Lemma seg_line_end {A} (k : nat) (f : nat -> list A) (w : nat) (c : A) :
  (forall x, length (f x) = k) -> (concat (map f (seq 0 w)) ++ [c]) !! (k * w) = Some c.
Proof.
  intros Hf.
  assert (Hk : Forall (fun b => length b = k) (map f (seq 0 w))).
  { apply Forall_forall. intros b Hb. apply list_elem_of_fmap in Hb as (x' & -> & _). apply Hf. }
  rewrite lookup_app_r by (rewrite (length_concat_const k _ Hk), length_map, length_seq; lia).
  rewrite (length_concat_const k _ Hk), length_map, length_seq, Nat.sub_diag. reflexivity.
Qed.

Lemma thick_center_length (entry exit : Z * Z) (x y : nat) : length (thick_center entry exit x y) = 5.
Proof. unfold thick_center. repeat case_decide; reflexivity. Qed.

Lemma thick_seg_lengths (P : gset coord) (entry exit : Z * Z) (x y h : nat) (c : Z) :
  length (thick_top_seg P x y c) = 6 /\ length (thick_bot_seg P entry exit x y c) = 6 /\
  length (thick_floor_seg P x h c) = 6.
Proof.
  unfold thick_top_seg, thick_bot_seg, thick_floor_seg.
  split; [| split]; repeat case_match; simpl; rewrite ?thick_center_length; reflexivity.
Qed.

Lemma thick_no_newline (g : list (list Z)) (P : gset coord) (entry exit : Z * Z) (w h y : nat) :
  (NEWLINE ∉ thick_top_line g P w y) /\ (NEWLINE ∉ thick_bot_line g P entry exit w y) /\
  (NEWLINE ∉ thick_floor_line g P w h).
Proof.
  unfold thick_top_line, thick_bot_line, thick_floor_line. rewrite !not_elem_of_app.
  split; [| split]; (split; [apply not_in_concat_map; intros a | ]);
    cbv [thick_top_seg thick_bot_seg thick_floor_seg thick_center]; repeat case_match; compute_done.
Qed.

Lemma render_thick_layout (w h : nat) (g : list (list Z)) (P : gset coord) (entry exit : Z * Z) :
  wf_grid w h g -> 1 <= w -> 1 <= h ->
  exists ls, render_thick g P entry exit = Some (py_join [NEWLINE] ls) /\ length ls = 2 * h + 1 /\
  (forall l, l ∈ ls -> length l = 6 * w + 1 /\ NEWLINE ∉ l) /\
  (forall x y, x < w -> y < h -> (x, y) ∈ P -> forall i, i < 6 ->
     char_at ls (2 * y) (6 * x + i) = Some P42 /\ char_at ls (2 * y + 1) (6 * x + i) = Some P42) /\
  (forall x y, x < w -> y < h -> (x, y) ∉ P ->
     char_at ls (2 * y) (6 * x) = Some BLOCK /\
     (forall i, 1 <= i <= 5 -> char_at ls (2 * y) (6 * x + i) =
        Some (if (Z.land (get g x y) NORTH =? 0)%Z then SPACE else BLOCK)) /\
     char_at ls (2 * y + 1) (6 * x) = Some (if (Z.land (get g x y) WEST =? 0)%Z then SPACE else BLOCK) /\
     (forall i, 1 <= i <= 5 -> char_at ls (2 * y + 1) (6 * x + i) =
        Some (if decide (i = 3) then
                (if decide ((Z.of_nat x, Z.of_nat y) = entry) then ENTRY_DOT
                 else if decide ((Z.of_nat x, Z.of_nat y) = exit) then EXIT_DOT else SPACE)
              else SPACE))) /\
  (forall y, y < h ->
     char_at ls (2 * y) (6 * w) = Some BLOCK /\
     char_at ls (2 * y + 1) (6 * w) =
       Some (if bool_decide ((w - 1, y) ∈ P) then P42
             else if (Z.land (get g (w - 1) y) EAST =? 0)%Z then SPACE else BLOCK)) /\
  (forall x, x < w ->
     char_at ls (2 * h) (6 * x) = Some BLOCK /\
     forall i, 1 <= i <= 5 -> char_at ls (2 * h) (6 * x + i) =
       Some (if bool_decide ((x, h - 1) ∈ P) then P42
             else if (Z.land (get g x (h - 1)) SOUTH =? 0)%Z then SPACE else BLOCK)) /\
  char_at ls (2 * h) (6 * w) = Some BLOCK.
Proof.
  intros Hwf Hw Hh. eexists. split; [exact (render_thick_lines w h g P entry exit Hwf Hw Hh) |].
  assert (Lt : forall y x, length (thick_top_seg P x y (get g x y)) = 6)
    by (intros y x; destruct (thick_seg_lengths P entry exit x y 0 (get g x y)) as (A & B & C); exact A).
  assert (Lb : forall y x, length (thick_bot_seg P entry exit x y (get g x y)) = 6)
    by (intros y x; destruct (thick_seg_lengths P entry exit x y 0 (get g x y)) as (A & B & C); exact B).
  assert (Lf : forall x, length (thick_floor_seg P x h (get g x (h - 1))) = 6)
    by (intros x; destruct (thick_seg_lengths P entry exit x 0 h (get g x (h - 1))) as (A & B & C); exact C).
  destruct (rows_at (thick_top_line g P w) (thick_bot_line g P entry exit w) (thick_floor_line g P w h) h 0)
    as (Hlen & _ & Hlast).
  split; [exact Hlen | split; [| split; [| split; [| split; [| split]]]]].
  - intros l Hl. rewrite elem_of_app, list_elem_of_singleton in Hl.
    destruct Hl as [Hl| ->].
    + apply list_elem_of_In, in_concat in Hl as (b & Hb & Hl).
      apply in_map_iff in Hb as (y & <- & _). simpl in Hl.
      destruct (thick_no_newline g P entry exit w h y) as (N1 & N2 & _).
      destruct Hl as [<-|[<-|[]]]; split; auto; [apply seg_line_length, Lt | apply seg_line_length, Lb].
    + destruct (thick_no_newline g P entry exit w h 0) as (_ & _ & N3). split; [apply seg_line_length, Lf | exact N3].
  - intros x y Hx Hy Hp i Hi.
    destruct (rows_at (thick_top_line g P w) (thick_bot_line g P entry exit w) (thick_floor_line g P w h) h y)
      as (_ & Hr & _).
    destruct (Hr Hy) as [R1 R2]. unfold char_at. rewrite R1, R2. cbn [mbind option_bind].
    unfold thick_top_line, thick_bot_line.
    rewrite (seg_line_at 6 _ w x i _ (Lt y) Hx Hi), (seg_line_at 6 _ w x i _ (Lb y) Hx Hi).
    unfold thick_top_seg, thick_bot_seg. rewrite bool_decide_eq_true_2 by exact Hp.
    rewrite lookup_replicate_2 by lia. split; reflexivity.
  - intros x y Hx Hy Hp.
    destruct (rows_at (thick_top_line g P w) (thick_bot_line g P entry exit w) (thick_floor_line g P w h) h y)
      as (_ & Hr & _).
    destruct (Hr Hy) as [R1 R2]. unfold char_at. rewrite R1, R2. cbn [mbind option_bind].
    unfold thick_top_line, thick_bot_line.
    rewrite <- (Nat.add_0_r (6 * x)).
    rewrite (seg_line_at 6 _ w x 0 _ (Lt y) Hx ltac:(lia)), (seg_line_at 6 _ w x 0 _ (Lb y) Hx ltac:(lia)).
    rewrite Nat.add_0_r.
    unfold thick_top_seg, thick_bot_seg. rewrite bool_decide_eq_false_2 by exact Hp.
    split; [reflexivity | split; [| split; [reflexivity |]]].
    + intros i Hi. rewrite (seg_line_at 6 _ w x i _ (Lt y) Hx ltac:(lia)).
      unfold thick_top_seg. rewrite bool_decide_eq_false_2 by exact Hp.
      destruct (_ =? _)%Z; destruct i as [|[|[|[|[|[|i]]]]]]; try lia; reflexivity.
    + intros i Hi. rewrite (seg_line_at 6 _ w x i _ (Lb y) Hx ltac:(lia)).
      unfold thick_bot_seg. rewrite bool_decide_eq_false_2 by exact Hp.
      destruct i as [|i]; [lia |]. simpl. unfold thick_center.
      destruct i as [|[|[|[|[|i]]]]]; try lia; repeat case_decide; try lia; reflexivity.
  - intros y Hy.
    destruct (rows_at (thick_top_line g P w) (thick_bot_line g P entry exit w) (thick_floor_line g P w h) h y)
      as (_ & Hr & _).
    destruct (Hr Hy) as [R1 R2]. unfold char_at. rewrite R1, R2. cbn [mbind option_bind].
    unfold thick_top_line, thick_bot_line.
    rewrite (seg_line_end 6 _ w _ (Lt y)), (seg_line_end 6 _ w _ (Lb y)). split; reflexivity.
  - intros x Hx. unfold char_at. rewrite Hlast. cbn [mbind option_bind]. unfold thick_floor_line.
    rewrite <- (Nat.add_0_r (6 * x)), (seg_line_at 6 _ w x 0 _ Lf Hx ltac:(lia)), Nat.add_0_r.
    split; [reflexivity |].
    intros i Hi. rewrite (seg_line_at 6 _ w x i _ Lf Hx ltac:(lia)).
    unfold thick_floor_seg.
    case_bool_decide; [| destruct (_ =? _)%Z]; destruct i as [|[|[|[|[|[|i]]]]]]; try lia; reflexivity.
  - unfold char_at. rewrite Hlast. cbn [mbind option_bind]. unfold thick_floor_line.
    rewrite (seg_line_end 6 _ w _ Lf). reflexivity.
Qed.

(** X15: [render_thick] of a grid of [h >= 1] rows of [w >= 1] cells returns
    [2h + 1] lines of [6w + 1] characters joined by newlines.  A cell of the
    pattern is drawn as a 6x2 block of [P42]; any other cell as a [BLOCK]
    corner with five [BLOCK]s over it when its NORTH bit is set (spaces
    otherwise), a [BLOCK] on its left when its WEST bit is set, and five
    characters whose middle one is the entry dot on the entry cell, else the
    exit dot on the exit cell, else a space.  Each row is closed by a
    [BLOCK] and, below it, by [P42] when the last cell of the row is in the
    pattern, else by the last cell's EAST bit; the bottom line draws the
    SOUTH bits of the last row, [P42] under its pattern cells. *)
Theorem render_thick_draws_grid (w h : nat) (g : list (list Z)) (P : gset coord) (entry exit : Z * Z) :
  wf_grid w h g -> 1 <= w -> 1 <= h ->
  exists ls, render_thick g P entry exit = Some (py_join [NEWLINE] ls) /\ length ls = 2 * h + 1 /\
  (forall l, l ∈ ls -> length l = 6 * w + 1 /\ NEWLINE ∉ l) /\
  (forall x y, x < w -> y < h -> (x, y) ∈ P -> forall i, i < 6 ->
     char_at ls (2 * y) (6 * x + i) = Some P42 /\ char_at ls (2 * y + 1) (6 * x + i) = Some P42) /\
  (forall x y, x < w -> y < h -> (x, y) ∉ P ->
     char_at ls (2 * y) (6 * x) = Some BLOCK /\
     (forall i, 1 <= i <= 5 -> char_at ls (2 * y) (6 * x + i) =
        Some (if (Z.land (get g x y) NORTH =? 0)%Z then SPACE else BLOCK)) /\
     char_at ls (2 * y + 1) (6 * x) = Some (if (Z.land (get g x y) WEST =? 0)%Z then SPACE else BLOCK) /\
     (forall i, 1 <= i <= 5 -> char_at ls (2 * y + 1) (6 * x + i) =
        Some (if decide (i = 3) then
                (if decide ((Z.of_nat x, Z.of_nat y) = entry) then ENTRY_DOT
                 else if decide ((Z.of_nat x, Z.of_nat y) = exit) then EXIT_DOT else SPACE)
              else SPACE))) /\
  (forall y, y < h ->
     char_at ls (2 * y) (6 * w) = Some BLOCK /\
     char_at ls (2 * y + 1) (6 * w) =
       Some (if bool_decide ((w - 1, y) ∈ P) then P42
             else if (Z.land (get g (w - 1) y) EAST =? 0)%Z then SPACE else BLOCK)) /\
  (forall x, x < w ->
     char_at ls (2 * h) (6 * x) = Some BLOCK /\
     forall i, 1 <= i <= 5 -> char_at ls (2 * h) (6 * x + i) =
       Some (if bool_decide ((x, h - 1) ∈ P) then P42
             else if (Z.land (get g x (h - 1)) SOUTH =? 0)%Z then SPACE else BLOCK)) /\
  char_at ls (2 * h) (6 * w) = Some BLOCK.
Proof. exact (render_thick_layout w h g P entry exit). Qed.

Lemma char_at_bounds (ls : list pystr) (r c : nat) (v : Z) (k : nat) :
  (forall l, l ∈ ls -> length l = k) -> char_at ls r c = Some v -> r < length ls /\ c < k.
Proof.
  intros Hl Hc. unfold char_at in Hc. destruct (ls !! r) as [l|] eqn:Er; [| discriminate].
  cbn [mbind option_bind] in Hc. apply lookup_lt_Some in Hc. pose proof (lookup_lt_Some _ _ _ Er).
  apply list_elem_of_lookup_2 in Er. rewrite (Hl l Er) in Hc. lia.
Qed.

Lemma render_thick_dots (w h : nat) (g : list (list Z)) (P : gset coord) (entry exit : Z * Z) :
  wf_grid w h g -> 1 <= w -> 1 <= h ->
  exists ls, render_thick g P entry exit = Some (py_join [NEWLINE] ls) /\
  (forall l, l ∈ ls -> NEWLINE ∉ l) /\
  forall r c v, v <> BLOCK -> v <> SPACE -> v <> P42 ->
    (char_at ls r c = Some v <->
     exists x y, x < w /\ y < h /\ ((x, y) ∉ P) /\ r = 2 * y + 1 /\ c = 6 * x + 3 /\
       v = (if decide ((Z.of_nat x, Z.of_nat y) = entry) then ENTRY_DOT
            else if decide ((Z.of_nat x, Z.of_nat y) = exit) then EXIT_DOT else SPACE)).
Proof.
  intros Hwf Hw Hh.
  destruct (render_thick_layout w h g P entry exit Hwf Hw Hh) as (ls & Hr & Hlen & Hl & HP & HN & HE & HB & HC).
  exists ls. split; [exact Hr | split; [intros l Hl'; apply (Hl l Hl') |]].
  intros r c v Hb Hs Hp. split.
  - intros Hv.
    destruct (char_at_bounds ls r c v (6 * w + 1) (fun l Hl' => proj1 (Hl l Hl')) Hv) as [Hrl Hcl].
    rewrite Hlen in Hrl.
    pose proof (Nat.div_mod r 2 ltac:(lia)) as Er. pose proof (Nat.mod_upper_bound r 2 ltac:(lia)) as Er'.
    pose proof (Nat.div_mod c 6 ltac:(lia)) as Ec. pose proof (Nat.mod_upper_bound c 6 ltac:(lia)) as Ec'.
    set (y := r / 2) in *. set (x := c / 6) in *. set (i := c mod 6) in *.
    set (j := r mod 2) in *.
    assert (Hx : x < w \/ (x = w /\ i = 0)) by lia.
    assert (Hj : (j = 0 /\ y = h) \/ (j = 0 /\ y < h) \/ (j = 1 /\ y < h)) by lia.
    rewrite Er, Ec in Hv.
    destruct Hj as [(-> & ->)|[(-> & Hy)|(-> & Hy)]]; rewrite ?Nat.add_0_r in Hv.
    + destruct Hx as [Hx|(-> & ->)]; [| rewrite Nat.add_0_r, HC in Hv; congruence].
      destruct (HB x Hx) as [H0 Hi].
      destruct (decide (i = 0)) as [->|Hi0]; [rewrite Nat.add_0_r, H0 in Hv; congruence |].
      rewrite Hi in Hv by lia. injection Hv as Hv. repeat case_match; congruence.
    + destruct Hx as [Hx|(-> & ->)]; [| rewrite Nat.add_0_r, (proj1 (HE y Hy)) in Hv; congruence].
      destruct (decide ((x, y) ∈ P)) as [Hin|Hout].
      * rewrite (proj1 (HP x y Hx Hy Hin i Ec')) in Hv. congruence.
      * destruct (HN x y Hx Hy Hout) as (H0 & Hi & _).
        destruct (decide (i = 0)) as [->|Hi0]; [rewrite Nat.add_0_r, H0 in Hv; congruence |].
        rewrite Hi in Hv by lia. injection Hv as Hv. repeat case_match; congruence.
    + destruct Hx as [Hx|(-> & ->)];
        [| rewrite Nat.add_0_r, (proj2 (HE y Hy)) in Hv; injection Hv as Hv; repeat case_match; congruence].
      destruct (decide ((x, y) ∈ P)) as [Hin|Hout].
      * rewrite (proj2 (HP x y Hx Hy Hin i Ec')) in Hv. congruence.
      * destruct (HN x y Hx Hy Hout) as (_ & _ & H0 & Hi).
        destruct (decide (i = 0)) as [->|Hi0];
          [rewrite Nat.add_0_r, H0 in Hv; injection Hv as Hv; repeat case_match; congruence |].
        rewrite Hi in Hv by lia. injection Hv as Hv.
        destruct (decide (i = 3)) as [Hi3|Hi3]; [| congruence].
        exists x, y. split; [exact Hx | split; [exact Hy | split; [exact Hout | split; [lia | split; [lia |]]]]].
        rewrite <- Hv. reflexivity.
  - intros (x & y & Hx & Hy & Hout & -> & -> & ->).
    destruct (HN x y Hx Hy Hout) as (_ & _ & _ & Hi). rewrite (Hi 3 ltac:(lia)). reflexivity.
Qed.

Lemma set_entry_exit_inv (w h : nat) (entry exit : Z * Z) :
  set_entry_exit w h entry exit = inl tt ->
  border_point w h entry /\ border_point w h exit /\ entry <> exit.
Proof.
  unfold set_entry_exit, border_point. rewrite !validate_border_point_eq.
  repeat case_decide; intros Heq; try discriminate; tauto.
Qed.

Lemma generate_view (R : Random) (p : bool) (m m' : MazeGenerator (rstate R)) :
  0 < width m -> 0 < height m -> generate R p m = Some m' ->
  width m' = width m /\ height m' = height m /\ wf_grid (width m) (height m) (grid m') /\
  forall q, q ∈ pattern_42_coords m' -> 1 <= q.1 /\ q.1 + 1 < width m /\ 1 <= q.2 /\ q.2 + 1 < height m.
Proof.
  intros Hw Hh Hg.
  destruct (generate_grid R (fun _ _ _ => True) pat_4 pat_2 p m m') as (Ew & Eh & Hwf & _);
    [intros ?; auto | exact Hw | exact Hh | exact I | exact Hg |].
  destruct (generate_pattern_fields R p m m' Hw Hh Hg) as [HP _].
  split; [exact Ew | split; [exact Eh | split; [exact Hwf |]]].
  intros q Hq. rewrite HP in Hq. exact (pattern_cells_range _ _ q Hq).
Qed.

Lemma border_cell (w h : nat) (q : Z * Z) :
  border_point w h q ->
  (0 <= q.1)%Z /\ (0 <= q.2)%Z /\ Z.to_nat q.1 < w /\ Z.to_nat q.2 < h /\
  q = (Z.of_nat (Z.to_nat q.1), Z.of_nat (Z.to_nat q.2)) /\
  (Z.to_nat q.1 = 0 \/ Z.to_nat q.1 + 1 = w \/ Z.to_nat q.2 = 0 \/ Z.to_nat q.2 + 1 = h).
Proof.
  destruct q as [a b]. unfold border_point, in_bounds, on_border; simpl. intros [[Ha Hb] Ho].
  split; [lia | split; [lia | split; [lia | split; [lia | split; [f_equal; lia | lia]]]]].
Qed.

(** X16: in what the application shows after [generate] and a successful
    [set_entry_exit] (at start-up, on regenerate), drawn by [render_thick]
    with the generator's pattern, the entry dot appears exactly once, in
    the middle of the entry cell (line [2y + 1], column [6x + 3]), and the
    exit dot exactly once, in the middle of the exit cell: entry and exit
    are border cells, which the glyph never covers. *)
Theorem shown_maze_marks_entry_exit (R : Random) (p : bool) (m m' : MazeGenerator (rstate R))
    (entry exit : Z * Z) :
  0 < width m -> 0 < height m -> generate R p m = Some m' ->
  set_entry_exit (width m') (height m') entry exit = inl tt ->
  exists ls, render_thick (grid m') (pattern_42_coords m') entry exit = Some (py_join [NEWLINE] ls) /\
  (forall l, l ∈ ls -> NEWLINE ∉ l) /\
  forall r c,
    (char_at ls r c = Some ENTRY_DOT <-> r = 2 * Z.to_nat entry.2 + 1 /\ c = 6 * Z.to_nat entry.1 + 3) /\
    (char_at ls r c = Some EXIT_DOT <-> r = 2 * Z.to_nat exit.2 + 1 /\ c = 6 * Z.to_nat exit.1 + 3).
Proof.
  intros Hw Hh Hg Hs.
  destruct (generate_view R p m m' Hw Hh Hg) as (Ew & Eh & Hwf & HP).
  rewrite Ew, Eh in Hs. apply set_entry_exit_inv in Hs as (He & Hx & Hne).
  destruct (render_thick_dots (width m) (height m) (grid m') (pattern_42_coords m') entry exit Hwf
              ltac:(lia) ltac:(lia)) as (ls & Hr & Hn & Hd).
  exists ls. split; [exact Hr | split; [exact Hn |]].
  destruct (border_cell _ _ entry He) as (Ea1 & Ea2 & Ea3 & Ea4 & Ea5 & Ea6).
  destruct (border_cell _ _ exit Hx) as (Eb1 & Eb2 & Eb3 & Eb4 & Eb5 & Eb6).
  assert (Hnot : forall q : Z * Z, (Z.to_nat q.1 = 0 \/ Z.to_nat q.1 + 1 = width m \/
                   Z.to_nat q.2 = 0 \/ Z.to_nat q.2 + 1 = height m) ->
                 (Z.to_nat q.1, Z.to_nat q.2) ∉ pattern_42_coords m').
  { intros q Hq Hin. apply HP in Hin. simpl in Hin. lia. }
  assert (Hcell : forall x y : nat, forall q : Z * Z, q = (Z.of_nat (Z.to_nat q.1), Z.of_nat (Z.to_nat q.2)) ->
            (Z.of_nat x, Z.of_nat y) = q <-> x = Z.to_nat q.1 /\ y = Z.to_nat q.2).
  { intros x y [a b] Hq. simpl in *. split.
    - intros Heq. injection Heq as <- <-. rewrite !Nat2Z.id. split; reflexivity.
    - intros [-> ->]. symmetry. exact Hq. }
  assert (Hd1 : ENTRY_DOT <> BLOCK /\ ENTRY_DOT <> SPACE /\ ENTRY_DOT <> P42 /\ ENTRY_DOT <> EXIT_DOT)
    by (unfold ENTRY_DOT, BLOCK, SPACE, P42, EXIT_DOT; lia).
  assert (Hd2 : EXIT_DOT <> BLOCK /\ EXIT_DOT <> SPACE /\ EXIT_DOT <> P42)
    by (unfold EXIT_DOT, BLOCK, SPACE, P42; lia).
  intros r c. split.
  - rewrite (Hd r c ENTRY_DOT) by tauto. split.
    + intros (x & y & _ & _ & _ & -> & -> & Hv).
      destruct (decide ((Z.of_nat x, Z.of_nat y) = entry)) as [Heq|Hne'].
      * apply (Hcell x y entry Ea5) in Heq as [-> ->]. split; reflexivity.
      * exfalso. destruct (decide ((Z.of_nat x, Z.of_nat y) = exit)); unfold ENTRY_DOT, EXIT_DOT, SPACE in Hv; lia.
    + intros [-> ->]. exists (Z.to_nat entry.1), (Z.to_nat entry.2).
      split; [exact Ea3 | split; [exact Ea4 | split; [exact (Hnot entry Ea6) | split; [reflexivity | split; [reflexivity |]]]]].
      rewrite decide_True by (symmetry; exact Ea5). reflexivity.
  - rewrite (Hd r c EXIT_DOT) by tauto. split.
    + intros (x & y & _ & _ & _ & -> & -> & Hv).
      destruct (decide ((Z.of_nat x, Z.of_nat y) = entry)) as [Heq|Hne'];
        [exfalso; unfold EXIT_DOT, ENTRY_DOT in Hv; lia |].
      destruct (decide ((Z.of_nat x, Z.of_nat y) = exit)) as [Heq|Hne''];
        [| exfalso; unfold EXIT_DOT, SPACE in Hv; lia].
      apply (Hcell x y exit Eb5) in Heq as [-> ->]. split; reflexivity.
    + intros [-> ->]. exists (Z.to_nat exit.1), (Z.to_nat exit.2).
      split; [exact Eb3 | split; [exact Eb4 | split; [exact (Hnot exit Eb6) | split; [reflexivity | split; [reflexivity |]]]]].
      rewrite decide_False by (rewrite <- Eb5; intros Heq; apply Hne; rewrite Heq; reflexivity).
      rewrite decide_True by (symmetry; exact Eb5). reflexivity.
Qed.

(** ** The generation animation *)

Lemma generate_history (R : Random) (p : bool) (m m' : MazeGenerator (rstate R)) :
  0 < width m -> 0 < height m -> generate R p m = Some m' ->
  width m' = width m /\ height m' = height m /\ wf_grid (width m) (height m) (grid m') /\
  replay (history m') (all_walls (width m) (height m)) = grid m' /\
  Forall (step_in_range (width m) (height m)) (history m').
Proof.
  intros Hw Hh Hg. destruct (generate_run R p m Hw Hh) as (c & _ & Hinv & _ & Hg').
  rewrite Hg in Hg'. injection Hg' as ->.
  assert (Hc : Forall (step_in_range (width m) (height m)) (cv_history c)).
  { apply Forall_forall. intros s Hs.
    destruct (inv_hist_carved R _ _ _ c Hinv s Hs) as [Hp Hq].
    split; apply (ci_in_range _ _ _ _ _ Hinv); assumption. }
  destruct p.
  - simpl. split; [auto | split; [auto | split; [exact (ci_wf _ _ _ _ _ Hinv) | split; [exact (ci_replay _ _ _ _ _ Hinv) | exact Hc]]]].
  - cbv beta iota. match goal with |- context [make_imperfect R ?x] => set (m1 := x) end.
    destruct (make_imperfect_fields R m1 Hw Hh) as (Ew & Eh & _).
    rewrite Ew, Eh. split; [auto | split; [auto |]].
    split; [| split].
    + destruct (make_imperfect_grid R (fun _ _ _ => True) m1) as (_ & _ & Hwf & _);
        [intros ?; auto | exact Hw | exact Hh | exact (ci_wf _ _ _ _ _ Hinv) | exact I | exact Hwf].
    + exact (make_imperfect_replay R m1 Hw Hh (ci_wf _ _ _ _ _ Hinv) (ci_replay _ _ _ _ _ Hinv)).
    + unfold make_imperfect.
      apply (imperfect_loop_invariant R (fun m'' =>
        width m'' = width m1 /\ height m'' = height m1 /\
        Forall (step_in_range (width m1) (height m1)) (history m''))); auto.
      intros m'' x y nx ny d s (Ew' & Eh' & Hf) Hx Hy _ Hin _.
      apply valid_walls_spec in Hin as (_ & _ & Hrg). destruct (Hrg Hy Hx) as [Hnx Hny].
      unfold imperfect_update; cbn [width height grid history].
      split; [auto | split; [auto |]]. apply Forall_app; split; [exact Hf |].
      apply Forall_singleton. unfold step_in_range, parent, child, in_range; simpl. subst m1; simpl in *. lia.
Qed.

Lemma set_item_cell (w h : nat) (g : list (list Z)) (x y : nat) (v : Z) :
  wf_grid w h g -> x < w -> y < h -> set_item g x y v = Some (set_cell g x y v).
Proof.
  intros Hwf Hx Hy. destruct (wf_grid_lookup w h g y Hwf Hy) as (row & Hrow & Hlen).
  unfold set_item, set_cell. rewrite Hrow. rewrite decide_True by lia. reflexivity.
Qed.

Lemma apply_step (w h : nat) (g : list (list Z)) (s : step) :
  wf_grid w h g -> step_in_range w h s -> apply_updates g (step_updates s) = Some (replay_step g s).
Proof.
  destruct s as [[[x1 y1] v1] [[x2 y2] v2]]. unfold step_in_range, parent, child, in_range; simpl.
  intros Hwf [[Hx1 Hy1] [Hx2 Hy2]].
  rewrite (set_item_cell w h g x1 y1 v1 Hwf Hx1 Hy1).
  rewrite (set_item_cell w h _ x2 y2 v2 (wf_set_cell w h g x1 y1 v1 Hwf) Hx2 Hy2). reflexivity.
Qed.

Lemma replay_wf (w h : nat) (hist : list step) (g : list (list Z)) :
  wf_grid w h g -> wf_grid w h (replay hist g).
Proof.
  unfold replay. revert g. induction hist as [|s hist IH]; intros g Hwf; simpl; [exact Hwf |].
  apply IH. destruct s as [[[x1 y1] v1] [[x2 y2] v2]]. simpl. apply wf_set_cell, wf_set_cell, Hwf.
Qed.

Lemma wf_not_short (w h : nat) (g : list (list Z)) : wf_grid w h g -> 1 <= w -> ~ short_row g.
Proof.
  intros [Hl Hr] Hw (row & Hrow & Hlen). apply list_elem_of_lookup_1 in Hrow as (y & Hy).
  rewrite (Hr y row Hy) in Hlen. destruct g as [|row0 g]; [discriminate |].
  simpl in Hlen. rewrite (Hr 0 row0 eq_refl) in Hlen. lia.
Qed.

Lemma render_thick_wf (w h : nat) (g : list (list Z)) (P : gset coord) (entry exit : Z * Z) :
  wf_grid w h g -> 1 <= w -> exists str, render_thick g P entry exit = Some str.
Proof.
  intros Hwf Hw. destruct (proj2 (render_thick_is_Some g P entry exit) (wf_not_short w h g Hwf Hw)) as [str Hs].
  exists str. exact Hs.
Qed.

Lemma tick_step (hist : list step) (P : gset coord) (entry exit : Z * Z) (w h j : nat) :
  1 <= w -> Forall (step_in_range w h) hist -> j < length hist ->
  exists str, render_thick (replay (take (S j) hist) (all_walls w h)) P entry exit = Some str /\
  on_timer_tick hist P entry exit (mkTui (replay (take j hist) (all_walls w h)) j true) =
    Some (mkTui (replay (take (S j) hist) (all_walls w h)) (S j) true, Some str).
Proof.
  intros Hw Hf Hj. destruct (lookup_lt_is_Some_2 hist j Hj) as [s Hs].
  assert (Hwf : wf_grid w h (replay (take j hist) (all_walls w h))) by (apply replay_wf, wf_all_walls).
  assert (Hin : step_in_range w h s) by (rewrite Forall_lookup in Hf; exact (Hf j s Hs)).
  assert (Ht : replay (take (S j) hist) (all_walls w h) = replay_step (replay (take j hist) (all_walls w h)) s).
  { rewrite (take_S_r hist j s Hs). unfold replay. rewrite foldl_app. reflexivity. }
  destruct (render_thick_wf w h (replay (take (S j) hist) (all_walls w h)) P entry exit
              (replay_wf w h _ _ (wf_all_walls w h)) Hw) as [str Hstr].
  exists str. split; [exact Hstr |].
  unfold on_timer_tick; cbn [step_index display_grid timer_set].
  rewrite decide_False by lia. rewrite Hs, (apply_step w h _ s Hwf Hin), <- Ht, Hstr. reflexivity.
Qed.

Lemma ticks_run (hist : list step) (P : gset coord) (entry exit : Z * Z) (w h : nat) (k j : nat) :
  1 <= w -> Forall (step_in_range w h) hist -> j + k <= length hist ->
  exists shown,
    timer_ticks hist P entry exit k (mkTui (replay (take j hist) (all_walls w h)) j true) =
      Some (mkTui (replay (take (j + k) hist) (all_walls w h)) (j + k) true, shown) /\
    length shown = k /\
    forall i, i < k -> exists str, shown !! i = Some (Some str) /\
      render_thick (replay (take (S (j + i)) hist) (all_walls w h)) P entry exit = Some str.
Proof.
  intros Hw Hf. revert j. induction k as [|k IH]; intros j Hjk.
  - exists []. rewrite Nat.add_0_r. split; [reflexivity | split; [reflexivity | intros i Hi; lia]].
  - destruct (tick_step hist P entry exit w h j Hw Hf ltac:(lia)) as (str & Hstr & Htick).
    destruct (IH (S j) ltac:(lia)) as (shown & Hrun & Hlen & Hsh).
    exists (Some str :: shown). simpl. rewrite Htick, Hrun.
    replace (S j + k) with (j + S k) by lia.
    split; [reflexivity | split; [simpl; lia |]].
    intros [|i] Hi.
    + exists str. rewrite Nat.add_0_r. split; [reflexivity | exact Hstr].
    + destruct (Hsh i ltac:(lia)) as (str' & Hi' & Hr'). exists str'. simpl.
      replace (j + S i) with (S j + i) by lia. split; [exact Hi' | exact Hr'].
Qed.

(** X17: [action_animate_gen] followed by the timer: when it returns normally,
    each of the [len(history)] ticks that follow applies one history entry
    to the all-walls display grid and renders it without error, showing
    the grid replayed up to that entry; after the last one the display grid
    is the generator's grid (so the last frame is the maze shown without
    animation), and the next tick stops the timer without drawing. *)
Theorem animation_replays_history (R : Random) (p : bool) (entry exit : Z * Z)
    (m : MazeGenerator (rstate R)) (st : tui_state) (m' : MazeGenerator (rstate R)) (st' : tui_state) :
  0 < width m -> 0 < height m -> action_animate_gen R p entry exit m st = Some (m', st') ->
  let hist := history m' in
  let P := pattern_42_coords m' in
  exists shown,
    timer_ticks hist P entry exit (length hist) st' = Some (mkTui (grid m') (length hist) true, shown) /\
    length shown = length hist /\
    (forall k, k < length hist -> exists str, shown !! k = Some (Some str) /\
       render_thick (replay (take (S k) hist) (all_walls (width m') (height m'))) P entry exit = Some str) /\
    (hist <> [] -> last shown = Some (render_thick (grid m') P entry exit)) /\
    on_timer_tick hist P entry exit (mkTui (grid m') (length hist) true) =
      Some (mkTui (grid m') (length hist) false, None).
Proof.
  intros Hw Hh Ha hist P. unfold action_animate_gen in Ha.
  destruct (generate R p m) as [m1|] eqn:Hg; [| discriminate].
  destruct (set_entry_exit (width m1) (height m1) entry exit); [| discriminate].
  injection Ha as <- <-.
  destruct (generate_history R p m m1 Hw Hh Hg) as (Ew & Eh & _ & Hrep & Hf).
  rewrite Ew, Eh. fold hist in Hrep, Hf.
  destruct (ticks_run hist P entry exit (width m) (height m) (length hist) 0 ltac:(lia) Hf ltac:(lia))
    as (shown & Hrun & Hlen & Hsh).
  rewrite take_0, Nat.add_0_l, firstn_all, Hrep in Hrun. unfold replay in Hrun at 1. simpl in Hrun.
  exists shown. split; [exact Hrun | split; [exact Hlen | split; [exact Hsh | split]]].
  - intros Hne. destruct (Hsh (length hist - 1)) as (str & Hk & Hr);
      [destruct hist; [congruence | simpl; lia] |].
    rewrite last_lookup, Hlen, <- Nat.sub_1_r, Hk. f_equal.
    replace (S (length hist - 1)) with (length hist) in Hr by (destruct hist; [congruence | simpl; lia]).
    rewrite take_ge, Hrep in Hr by lia. symmetry. exact Hr.
  - unfold on_timer_tick; cbn [step_index display_grid timer_set]. rewrite decide_True by lia. reflexivity.
Qed.

(** ** Witnesses on a concrete generator *)

Lemma walls_symmetric_after_ops_witness :
  new_generator lcg 5 4 7 = Some ex_gen_5x4 /\
  run_ops lcg ex_ops ex_gen_5x4 = Some ex_after_ops /\
  walls_symmetric 5 4 (grid ex_gen_5x4) /\ walls_symmetric 5 4 (grid ex_after_ops).
Proof.
  assert (H1 : new_generator lcg 5 4 7 = Some ex_gen_5x4) by reflexivity.
  assert (H2 : run_ops lcg ex_ops ex_gen_5x4 = Some ex_after_ops) by (vm_compute; reflexivity).
  split; [exact H1 | split; [exact H2 |]].
  exact (walls_symmetric_after_ops lcg 5 4 7 ex_ops ex_gen_5x4 ex_after_ops H1 H2).
Defined.

Lemma bitmask_range_and_monotone_witness :
  new_generator lcg 5 4 7 = Some ex_gen_5x4 /\
  run_ops lcg ex_ops ex_gen_5x4 = Some ex_after_ops /\
  cells_in_range 5 4 (grid ex_after_ops).
Proof.
  assert (H1 : new_generator lcg 5 4 7 = Some ex_gen_5x4) by reflexivity.
  assert (H2 : run_ops lcg ex_ops ex_gen_5x4 = Some ex_after_ops) by (vm_compute; reflexivity).
  split; [exact H1 | split; [exact H2 |]].
  exact (proj1 (proj2 (bitmask_range_and_monotone lcg 5 4 7 ex_ops ex_gen_5x4 ex_after_ops H1 H2))).
Defined.

Lemma perfect_maze_spanning_tree_witness :
  3 <= width ex_gen_9x7 /\ 3 <= height ex_gen_9x7 /\
  generate lcg true ex_gen_9x7 = Some ex_perfect_9x7 /\
  (forall a b, reachable 9 7 (grid ex_perfect_9x7) a -> reachable 9 7 (grid ex_perfect_9x7) b ->
     exists l, simple_path (linked 9 7 (grid ex_perfect_9x7)) l a b).
Proof.
  assert (H1 : 3 <= width ex_gen_9x7) by (simpl; lia).
  assert (H2 : 3 <= height ex_gen_9x7) by (simpl; lia).
  assert (H3 : generate lcg true ex_gen_9x7 = Some ex_perfect_9x7) by (vm_compute; reflexivity).
  split; [exact H1 | split; [exact H2 | split; [exact H3 |]]].
  exact (proj1 (proj2 (perfect_maze_spanning_tree lcg ex_gen_9x7 ex_perfect_9x7 H1 H2 H3))).
Defined.

Lemma generate_deterministic_witness :
  reverse pat_4 ≡ₚ pat_4 /\ reverse pat_2 ≡ₚ pat_2 /\
  new_generator lcg 9 7 7 = Some ex_gen_9x7 /\
  exists m1' m2', generate_with lcg (reverse pat_4) (reverse pat_2) false ex_gen_9x7 = Some m1' /\
    generate_with lcg pat_4 pat_2 false ex_gen_9x7 = Some m2' /\ m1' = m2'.
Proof.
  assert (H1 : reverse pat_4 ≡ₚ pat_4) by (apply reverse_Permutation).
  assert (H2 : reverse pat_2 ≡ₚ pat_2) by (apply reverse_Permutation).
  assert (H3 : new_generator lcg 9 7 7 = Some ex_gen_9x7) by reflexivity.
  split; [exact H1 | split; [exact H2 | split; [exact H3 |]]].
  destruct (generate_deterministic lcg 9 7 7 false (reverse pat_4) (reverse pat_2) pat_4 pat_2
              ex_gen_9x7 ex_gen_9x7 H1 H2 ltac:(reflexivity) ltac:(reflexivity) H3 H3)
    as (m1' & m2' & E1 & E2 & _ & _ & E).
  exists m1', m2'. split; [exact E1 | split; [exact E2 | exact E]].
Defined.

Lemma history_replays_to_grid_witness :
  0 < width ex_gen_9x7 /\ 0 < height ex_gen_9x7 /\
  generate lcg false ex_gen_9x7 = Some ex_imperfect_9x7 /\
  replay (history ex_imperfect_9x7) (all_walls 9 7) = grid ex_imperfect_9x7.
Proof.
  assert (H1 : 0 < width ex_gen_9x7) by (simpl; lia).
  assert (H2 : 0 < height ex_gen_9x7) by (simpl; lia).
  assert (H3 : generate lcg false ex_gen_9x7 = Some ex_imperfect_9x7) by (vm_compute; reflexivity).
  split; [exact H1 | split; [exact H2 | split; [exact H3 |]]].
  exact (proj2 (proj2 (history_replays_to_grid lcg false ex_gen_9x7 ex_imperfect_9x7 H1 H2 H3))).
Defined.

Lemma pattern_cells_never_mutated_witness :
  0 < width ex_gen_9x7 /\ 0 < height ex_gen_9x7 /\
  generate lcg false ex_gen_9x7 = Some ex_imperfect_9x7 /\
  (forall q, q ∈ pattern_42_coords ex_imperfect_9x7 -> get (grid ex_imperfect_9x7) q.1 q.2 = ALL_WALLS).
Proof.
  assert (H1 : 0 < width ex_gen_9x7) by (simpl; lia).
  assert (H2 : 0 < height ex_gen_9x7) by (simpl; lia).
  assert (H3 : generate lcg false ex_gen_9x7 = Some ex_imperfect_9x7) by (vm_compute; reflexivity).
  split; [exact H1 | split; [exact H2 | split; [exact H3 |]]].
  exact (proj1 (proj2 (pattern_cells_never_mutated lcg false ex_gen_9x7 ex_imperfect_9x7 H1 H2 H3))).
Defined.

Lemma pattern_fit_contract_witness :
  0 < width ex_gen_9x7 /\ 0 < height ex_gen_9x7 /\
  exists m', generate lcg true ex_gen_9x7 = Some m' /\ pattern_42_failed m' = false /\
    pattern_42_coords m' ≠ ∅.
Proof.
  assert (H1 : 0 < width ex_gen_9x7) by (simpl; lia).
  assert (H2 : 0 < height ex_gen_9x7) by (simpl; lia).
  split; [exact H1 | split; [exact H2 |]].
  destruct (pattern_fit_contract lcg true ex_gen_9x7 H1 H2) as (m' & Hg & _ & Hbig & _).
  destruct (Hbig ltac:(simpl; lia) ltac:(simpl; lia)) as (Hf & Hne & _).
  exists m'. split; [exact Hg | split; [exact Hf | exact Hne]].
Defined.

Lemma carving_loop_terminates_witness :
  0 < 9 /\ 0 < 7 /\
  exists c, carve_loop lcg 9 7 (2 * 9 * 7 - 1)
              (initial_carver 9 7 (pattern_cells pat_4 pat_2 9 7) 7%Z) = Some c /\
            cv_stack c = [] /\ length (cv_history c) <= 9 * 7 - 1.
Proof.
  assert (H1 : 0 < 9) by lia. assert (H2 : 0 < 7) by lia.
  split; [exact H1 | split; [exact H2 |]].
  destruct (carving_loop_terminates lcg 9 7 7%Z H1 H2) as (c & Hc & Hs & _ & Hl & _).
  exists c. split; [exact Hc | split; [exact Hs | exact Hl]].
Defined.

Lemma ex_grid_wf : wf_grid 2 2 ex_grid.
Proof.
  split; [reflexivity |]. intros y row Hy.
  destruct y as [|[|y]]; simpl in Hy; [injection Hy as <-; reflexivity | injection Hy as <-; reflexivity | discriminate].
Qed.

Lemma generate_reachable_exactly_witness :
  0 < width ex_gen_9x7 /\ 0 < height ex_gen_9x7 /\
  generate lcg false ex_gen_9x7 = Some ex_imperfect_9x7 /\
  (forall q, reachable 9 7 (grid ex_imperfect_9x7) q <->
     in_range 9 7 q /\ q ∉ pattern_42_coords ex_imperfect_9x7).
Proof.
  assert (H1 : 0 < width ex_gen_9x7) by (simpl; lia).
  assert (H2 : 0 < height ex_gen_9x7) by (simpl; lia).
  assert (H3 : generate lcg false ex_gen_9x7 = Some ex_imperfect_9x7) by (vm_compute; reflexivity).
  split; [exact H1 | split; [exact H2 | split; [exact H3 |]]].
  exact (generate_reachable_exactly lcg false ex_gen_9x7 ex_imperfect_9x7 H1 H2 H3).
Defined.

Lemma border_walls_kept_witness :
  new_generator lcg 5 4 7 = Some ex_gen_5x4 /\
  run_ops lcg ex_ops ex_gen_5x4 = Some ex_after_ops /\
  border_closed 5 4 (grid ex_after_ops).
Proof.
  assert (H1 : new_generator lcg 5 4 7 = Some ex_gen_5x4) by reflexivity.
  assert (H2 : run_ops lcg ex_ops ex_gen_5x4 = Some ex_after_ops) by (vm_compute; reflexivity).
  split; [exact H1 | split; [exact H2 |]].
  exact (border_walls_kept lcg 5 4 7 ex_ops ex_gen_5x4 ex_after_ops H1 H2).
Defined.

Lemma unvisited_neighbors_exact_witness :
  2 < 5 /\ 0 < 4 /\ NoDup (get_unvisited_neighbors 5 4 2 0 {[(1, 0)]}).
Proof.
  assert (H1 : 2 < 5) by lia. assert (H2 : 0 < 4) by lia.
  split; [exact H1 | split; [exact H2 |]].
  exact (proj1 (unvisited_neighbors_exact 5 4 2 0 {[(1, 0)]} H1 H2)).
Defined.

Lemma imperfect_candidates_exact_witness :
  1 < 2 /\ 0 < 2 /\ NoDup (valid_walls 2 2 ex_grid 1 0).
Proof.
  assert (H1 : 1 < 2) by lia. assert (H2 : 0 < 2) by lia.
  split; [exact H1 | split; [exact H2 |]].
  exact (proj1 (imperfect_candidates_exact 2 2 ex_grid 1 0 H1 H2)).
Defined.

Lemma remove_wall_exact_witness :
  wf_grid 2 2 (all_walls 2 2) /\ adjacent_dir (0, 0) (1, 0) EAST /\
  wf_grid 2 2 (remove_wall (all_walls 2 2) [] 0 0 1 0 EAST true).1.
Proof.
  assert (H1 : wf_grid 2 2 (all_walls 2 2)).
  { split; [reflexivity |]. intros y row Hy.
    destruct y as [|[|y]]; simpl in Hy; [injection Hy as <-; reflexivity | injection Hy as <-; reflexivity | discriminate]. }
  assert (H2 : adjacent_dir (0, 0) (1, 0) EAST) by (cbv [adjacent_dir NORTH SOUTH EAST WEST]; simpl; lia).
  split; [exact H1 | split; [exact H2 |]].
  pose proof (remove_wall_exact 2 2 (all_walls 2 2) [] 0 0 1 0 EAST true H1
                ltac:(lia) ltac:(lia) ltac:(lia) ltac:(lia) H2) as H.
  destruct (remove_wall (all_walls 2 2) [] 0 0 1 0 EAST true) as [g' hist'].
  exact (proj1 H).
Defined.

Lemma load_config_accepts_witness :
  load_config dec_int ascii_lower ex_config_lines = inl ex_config /\
  border_point 9 7 (0, 0)%Z /\ border_point 9 7 (8, 6)%Z.
Proof.
  assert (H : load_config dec_int ascii_lower ex_config_lines = inl ex_config) by (vm_compute; reflexivity).
  split; [exact H |].
  destruct (load_config_accepts dec_int ascii_lower ex_config_lines ex_config H) as (_ & _ & He & Hx & _).
  split; [exact He | exact Hx].
Defined.

Lemma validate_ignores_other_keys_witness :
  (lit "SEED" ∉ MANDATORY_KEYS) /\
  validate_and_convert dec_int ascii_lower (<[lit "SEED" := lit "42"]> {[lit "WIDTH" := lit "9"]}) =
  validate_and_convert dec_int ascii_lower {[lit "WIDTH" := lit "9"]}.
Proof.
  assert (H : lit "SEED" ∉ MANDATORY_KEYS) by (apply (bool_decide_unpack _); vm_compute; exact I).
  split; [exact H |].
  exact (validate_ignores_other_keys dec_int ascii_lower {[lit "WIDTH" := lit "9"]} (lit "SEED") (lit "42") H).
Defined.

Lemma loaded_config_never_raises_witness :
  load_config dec_int ascii_lower ex_config_lines = inl ex_config /\
  exists m0, new_generator lcg 9 7 7 = Some m0.
Proof.
  assert (H : load_config dec_int ascii_lower ex_config_lines = inl ex_config) by (vm_compute; reflexivity).
  split; [exact H |].
  destruct (loaded_config_never_raises dec_int ascii_lower lcg ex_config_lines ex_config 7%Z H) as (m0 & Hm0 & _).
  exists m0. exact Hm0.
Defined.

Lemma raw_entries_well_formed_witness :
  exists raw, read_and_parse_raw_file ex_config_lines = inl raw /\ map_Forall raw_entry_ok raw.
Proof.
  eexists. assert (H : read_and_parse_raw_file ex_config_lines = inl _) by (vm_compute; reflexivity).
  split; [exact H |]. exact (raw_entries_well_formed ex_config_lines _ H).
Defined.

Lemma raw_parse_error_line_witness :
  read_and_parse_raw_file ex_bad_lines = inr (SyntaxError 2) /\
  exists k line, 1 <= k /\ ex_bad_lines !! (k - 1) = Some line /\ SyntaxError 2 = SyntaxError k.
Proof.
  assert (H : read_and_parse_raw_file ex_bad_lines = inr (SyntaxError 2)) by (vm_compute; reflexivity).
  split; [exact H |].
  destruct (raw_parse_error_line ex_bad_lines (SyntaxError 2) H) as (k & line & Hk & Hl & _ & He).
  exists k, line. split; [exact Hk | split; [exact Hl |]].
  destruct He as [[He _]|[He _]]; [exact He | discriminate He].
Defined.

Lemma raw_parse_roundtrip_witness :
  Forall (fun kv => raw_entry_ok kv.1 kv.2) [(lit "WIDTH", lit "9"); (lit "WIDTH", lit "10")] /\
  read_and_parse_raw_file (map kv_line [(lit "WIDTH", lit "9"); (lit "WIDTH", lit "10")]) =
    inl (list_to_map (reverse [(lit "WIDTH", lit "9"); (lit "WIDTH", lit "10")])).
Proof.
  assert (H : Forall (fun kv => raw_entry_ok kv.1 kv.2) [(lit "WIDTH", lit "9"); (lit "WIDTH", lit "10")]).
  { repeat apply Forall_cons_2; [..| apply Forall_nil_2];
      unfold raw_entry_ok; cbn [fst snd];
      (split; [discriminate |]);
      (split; [vm_compute; reflexivity |]); (split; [vm_compute; reflexivity |]);
      repeat split; apply (bool_decide_unpack _); vm_compute; exact I. }
  split; [exact H |]. exact (raw_parse_roundtrip _ H).
Defined.

Lemma render_draws_grid_witness :
  wf_grid 2 2 ex_grid /\ 1 <= 2 /\ exists ls, render ex_grid = Some (py_join [NEWLINE] ls) /\ length ls = 5.
Proof.
  assert (H1 : 1 <= 2) by lia.
  split; [exact ex_grid_wf | split; [exact H1 |]].
  destruct (render_draws_grid 2 2 ex_grid ex_grid_wf H1 H1) as (ls & Hr & Hl & _).
  exists ls. split; [exact Hr | exact Hl].
Defined.

Lemma render_thick_draws_grid_witness :
  wf_grid 2 2 ex_grid /\ 1 <= 2 /\
  exists ls, render_thick ex_grid {[(1, 1)]} (0, 0)%Z (1, 0)%Z = Some (py_join [NEWLINE] ls) /\ length ls = 5.
Proof.
  assert (H1 : 1 <= 2) by lia.
  split; [exact ex_grid_wf | split; [exact H1 |]].
  destruct (render_thick_draws_grid 2 2 ex_grid {[(1, 1)]} (0, 0)%Z (1, 0)%Z ex_grid_wf H1 H1) as (ls & Hr & Hl & _).
  exists ls. split; [exact Hr | exact Hl].
Defined.

Lemma shown_maze_marks_entry_exit_witness :
  0 < width ex_gen_9x7 /\ 0 < height ex_gen_9x7 /\
  generate lcg false ex_gen_9x7 = Some ex_imperfect_9x7 /\
  set_entry_exit (width ex_imperfect_9x7) (height ex_imperfect_9x7) (0, 0)%Z (8, 6)%Z = inl tt /\
  exists ls, render_thick (grid ex_imperfect_9x7) (pattern_42_coords ex_imperfect_9x7) (0, 0)%Z (8, 6)%Z =
    Some (py_join [NEWLINE] ls) /\ char_at ls 13 51 = Some EXIT_DOT.
Proof.
  assert (H1 : 0 < width ex_gen_9x7) by (simpl; lia).
  assert (H2 : 0 < height ex_gen_9x7) by (simpl; lia).
  assert (H3 : generate lcg false ex_gen_9x7 = Some ex_imperfect_9x7) by (vm_compute; reflexivity).
  assert (H4 : set_entry_exit (width ex_imperfect_9x7) (height ex_imperfect_9x7) (0, 0)%Z (8, 6)%Z = inl tt)
    by (vm_compute; reflexivity).
  split; [exact H1 | split; [exact H2 | split; [exact H3 | split; [exact H4 |]]]].
  destruct (shown_maze_marks_entry_exit lcg false ex_gen_9x7 ex_imperfect_9x7 (0, 0)%Z (8, 6)%Z H1 H2 H3 H4)
    as (ls & Hr & _ & Hc).
  exists ls. split; [exact Hr |]. apply (proj2 (Hc 13 51)). split; reflexivity.
Defined.

Lemma animation_replays_history_witness :
  0 < width ex_gen_9x7 /\ 0 < height ex_gen_9x7 /\
  action_animate_gen lcg false (0, 0)%Z (8, 6)%Z ex_gen_9x7 ex_tui =
    Some (ex_imperfect_9x7, mkTui (all_walls 9 7) 0 true) /\
  exists shown, timer_ticks (history ex_imperfect_9x7) (pattern_42_coords ex_imperfect_9x7) (0, 0)%Z (8, 6)%Z
    (length (history ex_imperfect_9x7)) (mkTui (all_walls 9 7) 0 true) =
    Some (mkTui (grid ex_imperfect_9x7) (length (history ex_imperfect_9x7)) true, shown).
Proof.
  assert (H1 : 0 < width ex_gen_9x7) by (simpl; lia).
  assert (H2 : 0 < height ex_gen_9x7) by (simpl; lia).
  assert (H3 : action_animate_gen lcg false (0, 0)%Z (8, 6)%Z ex_gen_9x7 ex_tui =
                 Some (ex_imperfect_9x7, mkTui (all_walls 9 7) 0 true)) by (vm_compute; reflexivity).
  split; [exact H1 | split; [exact H2 | split; [exact H3 |]]].
  destruct (animation_replays_history lcg false (0, 0)%Z (8, 6)%Z ex_gen_9x7 ex_tui ex_imperfect_9x7
              (mkTui (all_walls 9 7) 0 true) H1 H2 H3) as (shown & Ht & _).
  exists shown. exact Ht.
Defined.
